(** * XNNPACK micro-kernels: QS8 depthwise convolution (AVX2, 8 channels x 9 taps)
      and X32 depth-to-space (CHW to HWC, scalar)

    A shallow embedding of
      - [src/qs8-dwconv/gen/up8x9-minmax-avx2-mul32.c]
      - [src/x32-depth-to-space-chw2hwc/gen/scalar-c1-ib2.c]
      - [test/depth-to-space-operator-tester.h]
    Vector registers are bit patterns ([Z]) that the intrinsics view as lanes
    of 8, 16, 32 or 64 bits; memory is a byte-addressed store together with
    the log of the accesses performed on it. *)

From Stdlib Require Import ZArith List Lia Bool.
Import ListNotations.
Local Open Scope Z_scope.

(** ** Lanes of a register *)

Module Bits.

(** Lane [i] of width [w] of the bit pattern [v] (lane 0 is the least
    significant one). *)
Definition lane (w i v : Z) : Z := Z.land (Z.shiftr v (w * i)) (Z.ones w).

(** The register whose lane [i] (for [i < n]) holds the low [w] bits of [f i]. *)
Fixpoint pack (w : Z) (n : nat) (f : Z -> Z) : Z :=
  match n with
  | O => 0
  | S n' => f 0 mod 2 ^ w + 2 ^ w * pack w n' (fun i => f (i + 1))
  end.

(** Two's complement reading of the low [w] bits of [x]. *)
Definition signed (w x : Z) : Z :=
  let u := x mod 2 ^ w in if u <? 2 ^ (w - 1) then u else u - 2 ^ w.

(** Saturation to the signed [w]-bit range. *)
Definition sat (w x : Z) : Z :=
  Z.max (- 2 ^ (w - 1)) (Z.min (2 ^ (w - 1) - 1) x).

(** Bits [lo..hi] (both inclusive) of [x]. *)
Definition bits (lo hi x : Z) : Z := (x / 2 ^ lo) mod 2 ^ (hi - lo + 1).

End Bits.

(** ** The AVX2 and SSE intrinsics the kernel uses

    A [__m128i] or [__m256i] value is its bit pattern; every intrinsic reads
    the lanes of its operands and builds the lanes of its result. *)

Module Intrin.
Import Bits.

Definition __m128i := Z.
Definition __m256i := Z.

Definition _mm256_setzero_si256 : __m256i := 0.

Definition _mm256_broadcastsi128_si256 (a : __m128i) : __m256i :=
  pack 128 2 (fun _ => a).

Definition _mm256_cvtepi8_epi32 (a : __m128i) : __m256i :=
  pack 32 8 (fun i => signed 8 (lane 8 i a)).

Definition _mm256_add_epi32 (a b : __m256i) : __m256i :=
  pack 32 8 (fun i => lane 32 i a + lane 32 i b).

Definition _mm256_sub_epi32 (a b : __m256i) : __m256i :=
  pack 32 8 (fun i => lane 32 i a - lane 32 i b).

Definition _mm256_mullo_epi32 (a b : __m256i) : __m256i :=
  pack 32 8 (fun i => signed 32 (lane 32 i a) * signed 32 (lane 32 i b)).

Definition _mm256_mul_epi32 (a b : __m256i) : __m256i :=
  pack 64 4 (fun i => signed 32 (lane 32 (2 * i) a) * signed 32 (lane 32 (2 * i) b)).

Definition _mm256_add_epi64 (a b : __m256i) : __m256i :=
  pack 64 4 (fun i => lane 64 i a + lane 64 i b).

Definition _mm256_srli_epi64 (a : __m256i) (imm8 : Z) : __m256i :=
  pack 64 4 (fun i => if imm8 >? 63 then 0 else Z.shiftr (lane 64 i a) imm8).

Definition _mm256_blend_epi16 (a b : __m256i) (imm8 : Z) : __m256i :=
  pack 16 16 (fun i => if Z.testbit imm8 (i mod 8) then lane 16 i b else lane 16 i a).

Definition _mm256_and_si256 (a b : __m256i) : __m256i := Z.land a b.

Definition _mm256_cmpgt_epi32 (a b : __m256i) : __m256i :=
  pack 32 8 (fun i =>
    if signed 32 (lane 32 i a) >? signed 32 (lane 32 i b) then Z.ones 32 else 0).

Definition _mm256_sra_epi32 (a : __m256i) (count : __m128i) : __m256i :=
  let c := lane 64 0 count in
  pack 32 8 (fun i =>
    let x := signed 32 (lane 32 i a) in
    if c >? 31 then (if x <? 0 then -1 else 0) else Z.shiftr x c).

Definition _mm256_castsi256_si128 (a : __m256i) : __m128i := lane 128 0 a.

Definition _mm256_extracti128_si256 (a : __m256i) (imm8 : Z) : __m128i :=
  lane 128 imm8 a.

Definition _mm_packs_epi32 (a b : __m128i) : __m128i :=
  pack 16 8 (fun i =>
    if i <? 4 then sat 16 (signed 32 (lane 32 i a))
    else sat 16 (signed 32 (lane 32 (i - 4) b))).

Definition _mm_adds_epi16 (a b : __m128i) : __m128i :=
  pack 16 8 (fun i => sat 16 (signed 16 (lane 16 i a) + signed 16 (lane 16 i b))).

Definition _mm_max_epi16 (a b : __m128i) : __m128i :=
  pack 16 8 (fun i => Z.max (signed 16 (lane 16 i a)) (signed 16 (lane 16 i b))).

Definition _mm_min_epi16 (a b : __m128i) : __m128i :=
  pack 16 8 (fun i => Z.min (signed 16 (lane 16 i a)) (signed 16 (lane 16 i b))).

Definition _mm_packs_epi16 (a b : __m128i) : __m128i :=
  pack 8 16 (fun i =>
    if i <? 8 then sat 8 (signed 16 (lane 16 i a))
    else sat 8 (signed 16 (lane 16 (i - 8) b))).

Definition _mm_cvtsi128_si32 (a : __m128i) : Z := lane 32 0 a.

Definition _mm_extract_epi16 (a : __m128i) (imm8 : Z) : Z := lane 16 imm8 a.

Definition _mm_extract_epi8 (a : __m128i) (imm8 : Z) : Z := lane 8 imm8 a.

Definition _mm_srli_epi64 (a : __m128i) (imm8 : Z) : __m128i :=
  pack 64 2 (fun i => if imm8 >? 63 then 0 else Z.shiftr (lane 64 i a) imm8).

Definition _mm_srli_epi32 (a : __m128i) (imm8 : Z) : __m128i :=
  pack 32 4 (fun i => if imm8 >? 31 then 0 else Z.shiftr (lane 32 i a) imm8).

End Intrin.

(** ** Requantization (lines 142-172 and 238-267 of the kernel) *)

Module Requant.
Import Bits Intrin.

(** [params->sse2]: every field is the 16-byte block that [_mm_load_si128]
    reads.  The kernel takes [params] as a [restrict] pointer and never
    writes through it, so the block is passed by value. *)
Record xnn_qs8_gemm_params : Type := {
  multiplier : __m128i;
  rounding : __m128i;
  remainder_mask : __m128i;
  remainder_threshold : __m128i;
  shift : __m128i;
  output_zero_point : __m128i;
  output_min : __m128i;
  output_max : __m128i
}.

(** Lines 142-154: the Q31 product of the eight accumulators. *)
Definition q31_multiply (params : xnn_qs8_gemm_params) (vacc01234567 : __m256i) : __m256i :=
  let vmultiplier := _mm256_broadcastsi128_si256 (multiplier params) in
  let vrounding := _mm256_broadcastsi128_si256 (rounding params) in
  let vacc1357 := _mm256_srli_epi64 vacc01234567 32 in
  let vprod0246 := _mm256_add_epi64 (_mm256_mul_epi32 vacc01234567 vmultiplier) vrounding in
  let vprod1357 := _mm256_add_epi64 (_mm256_mul_epi32 vacc1357 vmultiplier) vrounding in
  let vq31prod0246 := _mm256_srli_epi64 vprod0246 31 in
  let vq31prod1357 := _mm256_add_epi64 vprod1357 vprod1357 in
  _mm256_blend_epi16 vq31prod0246 vq31prod1357 204.

(** Lines 156-158: [vrem01234567]. *)
Definition remainder (params : xnn_qs8_gemm_params) (vq31prod01234567 : __m256i) : __m256i :=
  let vremainder_mask := _mm256_broadcastsi128_si256 (remainder_mask params) in
  _mm256_add_epi32 (_mm256_and_si256 vq31prod01234567 vremainder_mask)
                   (_mm256_cmpgt_epi32 _mm256_setzero_si256 vq31prod01234567).

(** Lines 160-163: the rescaled accumulators. *)
Definition rescale (params : xnn_qs8_gemm_params) (vq31prod01234567 : __m256i) : __m256i :=
  let vrem01234567 := remainder params vq31prod01234567 in
  let vremainder_threshold := _mm256_broadcastsi128_si256 (remainder_threshold params) in
  let vshift := shift params in
  _mm256_sub_epi32 (_mm256_sra_epi32 vq31prod01234567 vshift)
                   (_mm256_cmpgt_epi32 vrem01234567 vremainder_threshold).

(** Lines 165-166: narrowing to 16 bits and adding the zero point. *)
Definition add_zero_point (params : xnn_qs8_gemm_params) (vacc01234567 : __m256i) : __m128i :=
  let voutput_zero_point := output_zero_point params in
  _mm_adds_epi16
    (_mm_packs_epi32 (_mm256_castsi256_si128 vacc01234567)
                     (_mm256_extracti128_si256 vacc01234567 1))
    voutput_zero_point.

(** Lines 168-172: clamping and narrowing to 8 bits. *)
Definition clamp_narrow (params : xnn_qs8_gemm_params) (vout01234567 : __m128i) : __m128i :=
  let voutput_min := output_min params in
  let voutput_max := output_max params in
  let vout01234567 := _mm_min_epi16 (_mm_max_epi16 vout01234567 voutput_min) voutput_max in
  _mm_packs_epi16 vout01234567 vout01234567.

(** Lines 142-172: from [vacc01234567] to [vout0123456701234567]. *)
Definition requantize (params : xnn_qs8_gemm_params) (vacc01234567 : __m256i) : __m128i :=
  clamp_narrow params (add_zero_point params (rescale params (q31_multiply params vacc01234567))).

(** Modelled from the spec: the routine that fills [params->sse2] is not in
    the sources; the quantization parameters are per convolution, so every
    lane of a field holds the same value. *)
Definition broadcast_params
    (multiplier rounding remainder_mask remainder_threshold shift
     output_zero_point output_min output_max : Z) : xnn_qs8_gemm_params :=
  {| multiplier := pack 32 4 (fun _ => multiplier);
     rounding := pack 64 2 (fun _ => rounding);
     remainder_mask := pack 32 4 (fun _ => remainder_mask);
     remainder_threshold := pack 32 4 (fun _ => remainder_threshold);
     shift := pack 64 2 (fun _ => shift);
     output_zero_point := pack 16 8 (fun _ => output_zero_point);
     output_min := pack 16 8 (fun _ => output_min);
     output_max := pack 16 8 (fun _ => output_max) |}.

End Requant.

(** ** Memory and control flow *)

Module Mem.
Import Bits.

(** An access to [len] bytes starting at [addr]; a store carries the value
    written (little endian). *)
Inductive event : Type :=
| Load (addr : Z) (len : nat)
| Store (addr : Z) (len : nat) (val : Z).

(** The store and the accesses performed so far, oldest first. *)
Record state : Type := { bytes : Z -> Z; log : list event }.

(** Computations on the store; [None] is a loop that ran out of fuel. *)
Definition M (A : Type) : Type := state -> option (A * state).

Definition ret {A : Type} (a : A) : M A := fun s => Some (a, s).

Definition bind {A B : Type} (m : M A) (f : A -> M B) : M B :=
  fun s => match m s with
           | Some (a, s') => f a s'
           | None => None
           end.

Definition fail {A : Type} : M A := fun _ => None.

Notation "x <- m ;; f" := (bind m (fun x => f))
  (at level 61, m at next level, right associativity).
Notation "' pat <- m ;; f" := (bind m (fun x => match x with pat => f end))
  (at level 61, pat pattern, m at next level, right associativity).

(** Little-endian load of [n] bytes. *)
Definition load (n : nat) (addr : Z) : M Z :=
  fun s => Some (pack 8 n (fun i => bytes s (addr + i)),
                 {| bytes := bytes s; log := log s ++ [Load addr n] |}).

(** Little-endian store of the low [n] bytes of [val]. *)
Definition store (n : nat) (addr val : Z) : M unit :=
  fun s => Some (tt,
    {| bytes := fun x => if (addr <=? x) && (x <? addr + Z.of_nat n)
                         then lane 8 (x - addr) val else bytes s x;
       log := log s ++ [Store addr n val] |}).

(** [size_t] and [uintptr_t] are 64 bits wide (x86-64). *)
Definition size_add (a b : Z) : Z := (a + b) mod 2 ^ 64.
Definition size_sub (a b : Z) : Z := (a - b) mod 2 ^ 64.
Definition size_mul (a b : Z) : Z := (a * b) mod 2 ^ 64.

(** [do { a = body(a); } while (--n != 0);] *)
Fixpoint do_while {A : Type} (fuel : nat) (body : A -> M A) (n : Z) (a : A) : M A :=
  match fuel with
  | O => fail
  | S fuel' =>
      a' <- body a ;;
      let n' := size_sub n 1 in
      if negb (n' =? 0) then do_while fuel' body n' a' else ret a'
  end.

(** [for (; n >= k; n -= k) { a = body(a); }], returning the final [n] too. *)
Fixpoint for_ge {A : Type} (fuel : nat) (k : Z) (body : A -> M A) (n : Z) (a : A)
  : M (Z * A) :=
  if n >=? k then
    match fuel with
    | O => fail
    | S fuel' => a' <- body a ;; for_ge fuel' k body (size_sub n k) a'
    end
  else ret (n, a).

(** [for (; n != 0; n--) { a = body(a); }] *)
Fixpoint for_nz {A : Type} (fuel : nat) (body : A -> M A) (n : Z) (a : A) : M A :=
  if negb (n =? 0) then
    match fuel with
    | O => fail
    | S fuel' => a' <- body a ;; for_nz fuel' body (size_sub n 1) a'
    end
  else ret a.

End Mem.

(** ** [xnn_qs8_dwconv_minmax_ukernel_up8x9__avx2_mul32] *)

Module DWConv.
Import Bits Intrin Requant Mem.

Definition _mm_loadl_epi64 (mem_addr : Z) : M __m128i := load 8 mem_addr.

Definition _mm256_loadu_si256 (mem_addr : Z) : M __m256i := load 32 mem_addr.

Definition _mm_storel_epi64 (mem_addr : Z) (a : __m128i) : M unit :=
  store 8 mem_addr (lane 64 0 a).

(** Lines 33-37 (and 38-77 for the other taps): [ik = input[k]], moved by
    [input_offset] unless it is the [zero] pointer.  The [assert (ik != NULL)]
    is compiled out. *)
Definition load_tap_pointer (input zero input_offset k : Z) : M Z :=
  ik <- load 8 (size_add input (8 * k)) ;;
  ret (if negb (ik =? zero) then size_add ik input_offset else ik).

Fixpoint load_tap_pointers (input zero input_offset k : Z) (n : nat) : M (list Z) :=
  match n with
  | O => ret []
  | S n' =>
      ik <- load_tap_pointer input zero input_offset k ;;
      rest <- load_tap_pointers input zero input_offset (k + 1) n' ;;
      ret (ik :: rest)
  end.

(** Lines 86-90 for tap 0, and the eight that follow for taps 1 to 8: the
    tap loads 8 inputs at [ik] and 8 weights at [w + 8 * sizeof(int32_t) + 8 * k],
    widens both and adds their products to the accumulators. *)
Definition tap (w k ik : Z) (vacc01234567 : __m256i) : M __m256i :=
  vik <- _mm_loadl_epi64 ik ;;
  vkk <- _mm_loadl_epi64 (size_add w (8 * 4 + 8 * k * 1)) ;;
  let vikx01234567 := _mm256_cvtepi8_epi32 vik in
  let vkkx01234567 := _mm256_cvtepi8_epi32 vkk in
  ret (_mm256_add_epi32 vacc01234567 (_mm256_mullo_epi32 vikx01234567 vkkx01234567)).

Fixpoint taps (w k : Z) (i : list Z) (vacc01234567 : __m256i) : M __m256i :=
  match i with
  | [] => ret vacc01234567
  | ik :: i' => vacc <- tap w k ik vacc01234567 ;; taps w (k + 1) i' vacc
  end.

(** Lines 83-138 (and 179-234): the biases, then the nine taps. *)
Definition accumulate (w : Z) (i : list Z) : M __m256i :=
  vacc01234567 <- _mm256_loadu_si256 w ;;
  taps w 0 i vacc01234567.

(** The variables a column carries from tile to tile: the nine row pointers
    [i0 .. i8], the weight pointer and the output pointer. *)
Record locals : Type := { i : list Z; w : Z; output : Z }.

(** Lines 83-175: one full tile of 8 channels. *)
Definition full_tile (params : xnn_qs8_gemm_params) (l : locals) : M locals :=
  vacc01234567 <- accumulate (w l) (i l) ;;
  let i' := map (fun ik => size_add ik 8) (i l) in
  let w' := size_add (w l) (8 * 4 + 72 * 1) in
  let vout0123456701234567 := requantize params vacc01234567 in
  _ <- _mm_storel_epi64 (output l) vout0123456701234567 ;;
  ret {| i := i'; w := w'; output := size_add (output l) 8 |}.

(** Lines 269-282: the partial stores of the last [c] channels. *)
Definition store_tail (c : Z) (vout0123456701234567 : __m128i) (output : Z) : M Z :=
  '(vout, output) <-
    (if negb (Z.land c 4 =? 0) then
       _ <- store 4 output (_mm_cvtsi128_si32 vout0123456701234567) ;;
       ret (_mm_srli_epi64 vout0123456701234567 32, size_add output 4)
     else ret (vout0123456701234567, output)) ;;
  '(vout, output) <-
    (if negb (Z.land c 2 =? 0) then
       _ <- store 2 output (_mm_extract_epi16 vout 0) ;;
       ret (_mm_srli_epi32 vout 16, size_add output 2)
     else ret (vout, output)) ;;
  if negb (Z.land c 1 =? 0) then
    _ <- store 1 output (_mm_extract_epi8 vout 0) ;;
    ret (size_add output 1)
  else ret output.

(** Lines 179-283: the last tile, of [c] channels with [0 < c < 8]. *)
Definition tail_tile (params : xnn_qs8_gemm_params) (c : Z) (l : locals) : M locals :=
  vacc01234567 <- accumulate (w l) (i l) ;;
  let i' := map (fun ik => size_add ik 8) (i l) in
  let w' := size_add (w l) (8 * 4) in
  let vout0123456701234567 := requantize params vacc01234567 in
  output' <- store_tail c vout0123456701234567 (output l) ;;
  ret {| i := i'; w := w'; output := output' |}.

(** The arguments that stay fixed during a call. *)
Record args : Type := {
  channels : Z;
  weights : Z;
  input_stride : Z;
  output_increment : Z;
  input_offset : Z;
  zero : Z;
  params : xnn_qs8_gemm_params
}.

(** Lines 33-286: one output pixel.  The loop carries [input] and [output]. *)
Definition pixel (a : args) (io : Z * Z) : M (Z * Z) :=
  let '(input, output) := io in
  i <- load_tap_pointers input (zero a) (input_offset a) 0 9 ;;
  let input := size_add input (input_stride a) in
  '(c, l) <- for_ge (Z.to_nat (channels a)) 8 (full_tile (params a)) (channels a)
               {| i := i; w := weights a; output := output |} ;;
  l <- (if negb (c =? 0) then tail_tile (params a) c l else ret l) ;;
  let output := size_add (DWConv.output l) (output_increment a) in
  ret (input, output).

(** Lines 32-287.  The two [assert]s on [channels] and [output_width] are
    compiled out; every statement below takes them as hypotheses. *)
Definition xnn_qs8_dwconv_minmax_ukernel_up8x9__avx2_mul32
    (channels output_width input weights output input_stride output_increment
     input_offset zero : Z) (params : xnn_qs8_gemm_params) : M unit :=
  let a := {| channels := channels; weights := weights; input_stride := input_stride;
              output_increment := output_increment; input_offset := input_offset;
              zero := zero; params := params |} in
  _ <- do_while (Z.to_nat output_width) (pixel a) output_width (input, output) ;;
  ret tt.

End DWConv.

(** ** [xnn_x32_depth_to_space_chw2hwc_ukernel__scalar_c1_ib2] *)

Module DepthToSpace.
Import Bits Mem.

Section Kernel.
(** The arguments, in the order of the C prototype.  The four [assert]s
    are compiled out; the statements below take them as hypotheses. *)
Variables output_channels input_height input_width block_size : Z.
Variables input output : Z.
Variables input_channel_stride input_height_stride : Z.
Variables output_height_stride output_width_stride : Z.

(** Lines 40-52. *)
Definition element_stride : Z := 4.

Definition iy_output_increment : Z := size_mul block_size output_height_stride.
Definition by_output_increment : Z := output_height_stride.
Definition ix_output_increment : Z := size_mul block_size output_width_stride.
Definition bx_output_increment : Z := output_width_stride.
Definition c_output_increment : Z := element_stride.

Definition c_input_increment : Z :=
  size_mul (size_mul block_size block_size) input_channel_stride.
Definition by_input_increment : Z := size_mul block_size input_channel_stride.
Definition bx_input_increment : Z := input_channel_stride.
Definition iy_input_increment : Z := input_height_stride.
Definition ix_input_increment : Z := element_stride.

(** Lines 72-80 (and 83-91, 98-106): [c = output_channels] and the
    [do ... while (--c != 0)] that copies one element per channel. *)
Definition copy_channels (i_c o_c : Z) : M unit :=
  _ <- do_while (Z.to_nat output_channels)
         (fun '(i_c, o_c) =>
            v <- load 4 i_c ;;
            _ <- store 4 o_c v ;;
            ret (size_add i_c c_input_increment, size_add o_c c_output_increment))
         output_channels (i_c, o_c) ;;
  ret tt.

(** Lines 71-95: the body of [for (; bx >= 2; bx -= 2)]. *)
Definition bx_pair (io : Z * Z) : M (Z * Z) :=
  let '(i_bx, o_bx) := io in
  _ <- copy_channels (size_add i_bx (size_mul 0 bx_input_increment))
                     (size_add o_bx (size_mul 0 bx_output_increment)) ;;
  _ <- copy_channels (size_add i_bx (size_mul 1 bx_input_increment))
                     (size_add o_bx (size_mul 1 bx_output_increment)) ;;
  ret (size_add i_bx (size_mul 2 bx_input_increment),
       size_add o_bx (size_mul 2 bx_output_increment)).

(** Lines 98-109: the body of [for (; bx != 0; bx--)]. *)
Definition bx_single (io : Z * Z) : M (Z * Z) :=
  let '(i_bx, o_bx) := io in
  _ <- copy_channels i_bx o_bx ;;
  ret (size_add i_bx bx_input_increment, size_add o_bx bx_output_increment).

(** Lines 66-113: the body of the loop on [ix]. *)
Definition ix_body (io : Z * Z) : M (Z * Z) :=
  let '(i_ix, o_ix) := io in
  '(bx, io_bx) <- for_ge (Z.to_nat block_size) 2 bx_pair block_size (i_ix, o_ix) ;;
  _ <- for_nz (Z.to_nat bx) bx_single bx io_bx ;;
  ret (size_add i_ix ix_input_increment, size_add o_ix ix_output_increment).

(** Lines 62-116: the body of the loop on [by]. *)
Definition by_body (io : Z * Z) : M (Z * Z) :=
  let '(i_by, o_by) := io in
  _ <- do_while (Z.to_nat input_width) ix_body input_width (i_by, o_by) ;;
  ret (size_add i_by by_input_increment, size_add o_by by_output_increment).

(** Lines 58-119: the body of the loop on [iy]. *)
Definition iy_body (io : Z * Z) : M (Z * Z) :=
  let '(i_iy, o_iy) := io in
  _ <- do_while (Z.to_nat block_size) by_body block_size (i_iy, o_iy) ;;
  ret (size_add i_iy iy_input_increment, size_add o_iy iy_output_increment).

(** Lines 54-120. *)
Definition xnn_x32_depth_to_space_chw2hwc_ukernel__scalar_c1_ib2 : M unit :=
  _ <- do_while (Z.to_nat input_height) iy_body input_height (input, output) ;;
  ret tt.
End Kernel.

End DepthToSpace.

(** ** What a run of the depthwise kernel reads, computes and writes

    Closed forms of the values and of the access logs of the kernel's parts;
    the properties below relate them to the code. *)

Module DWConvTrace.
Import Bits Intrin Requant Mem DWConv.

Definition log_add (s : state) (l : list event) : state :=
  {| bytes := bytes s; log := log s ++ l |}.

(** The [n] bytes at [a], little endian. *)
Definition bytes_at (mem : Z -> Z) (n : nat) (a : Z) : Z :=
  pack 8 n (fun i => mem (a + i)).

Definition store_bytes (mem : Z -> Z) (n : nat) (a v : Z) : Z -> Z :=
  fun x => if (a <=? x) && (x <? a + Z.of_nat n) then lane 8 (x - a) v else mem x.

Definition tap_value (mem : Z -> Z) (w k ik vacc : Z) : Z :=
  _mm256_add_epi32 vacc
    (_mm256_mullo_epi32
       (_mm256_cvtepi8_epi32 (bytes_at mem 8 ik))
       (_mm256_cvtepi8_epi32 (bytes_at mem 8 (size_add w (8 * 4 + 8 * k * 1))))).

Fixpoint taps_value (mem : Z -> Z) (w k : Z) (i : list Z) (vacc : Z) : Z :=
  match i with
  | [] => vacc
  | ik :: i' => taps_value mem w (k + 1) i' (tap_value mem w k ik vacc)
  end.

Fixpoint taps_events (w k : Z) (i : list Z) : list event :=
  match i with
  | [] => []
  | ik :: i' =>
      Load ik 8 :: Load (size_add w (8 * 4 + 8 * k * 1)) 8 :: taps_events w (k + 1) i'
  end.

Definition acc_value (mem : Z -> Z) (w : Z) (i : list Z) : Z :=
  taps_value mem w 0 i (bytes_at mem 32 w).

Definition acc_events (w : Z) (i : list Z) : list event :=
  Load w 32 :: taps_events w 0 i.

(** The product that tap [k] adds to the accumulator of lane [j]. *)
Definition tap_term (mem : Z -> Z) (w k ik j : Z) : Z :=
  signed 8 (mem (ik + j)) * signed 8 (mem (size_add w (8 * 4 + 8 * k * 1) + j)).

Fixpoint tap_terms (mem : Z -> Z) (w k : Z) (i : list Z) (j : Z) : list Z :=
  match i with
  | [] => []
  | ik :: i' => tap_term mem w k ik j :: tap_terms mem w (k + 1) i' j
  end.

Definition sum (l : list Z) : Z := fold_right Z.add 0 l.

(** A list without its element of index [k]. *)
Definition drop_nth {A : Type} (k : nat) (l : list A) : list A :=
  firstn k l ++ skipn (S k) l.

(** Address and length of the loads, and of the stores, of a log. *)
Definition load_shapes (l : list event) : list (Z * nat) :=
  flat_map (fun e => match e with Load a n => [(a, n)] | Store _ _ _ => [] end) l.

Definition store_shapes (l : list event) : list (Z * nat) :=
  flat_map (fun e => match e with Load _ _ => [] | Store a n _ => [(a, n)] end) l.

(** Offset and width of the partial stores of a tail of [c] channels. *)
Definition tail_segments (c : Z) : list (Z * nat) :=
  let o4 := if Z.testbit c 2 then 4 else 0 in
  let o2 := if Z.testbit c 1 then 2 else 0 in
  (if Z.testbit c 2 then [(0, 4%nat)] else [])
  ++ (if Z.testbit c 1 then [(o4, 2%nat)] else [])
  ++ (if Z.testbit c 0 then [(o4 + o2, 1%nat)] else []).

(** The bytes a partial store of width [n] at offset [off] takes from [v]. *)
Definition seg_value (v off : Z) (n : nat) : Z :=
  lane (8 * Z.of_nat n) (off / Z.of_nat n) v.

Definition store_segments (v output : Z) (segs : list (Z * nat)) (s : state) : state :=
  fold_left
    (fun s '(off, n) =>
       {| bytes := store_bytes (bytes s) n (size_add output off) (seg_value v off n);
          log := log s ++ [Store (size_add output off) n (seg_value v off n)] |})
    segs s.

Definition next_tile (l : locals) : locals :=
  {| i := map (fun ik => size_add ik 8) (i l);
     w := size_add (w l) 104;
     output := size_add (output l) 8 |}.

(** The state after one full tile. *)
Definition full_tile_state (params : xnn_qs8_gemm_params) (l : locals) (s : state) : state :=
  let v := lane 64 0 (requantize params (acc_value (bytes s) (w l) (i l))) in
  {| bytes := store_bytes (bytes s) 8 (output l) v;
     log := log s ++ acc_events (w l) (i l) ++ [Store (output l) 8 v] |}.

(** The state after the tail tile. *)
Definition tail_tile_state (params : xnn_qs8_gemm_params) (c : Z) (l : locals) (s : state)
  : state :=
  store_segments (requantize params (acc_value (bytes s) (w l) (i l))) (output l)
                 (tail_segments c) (log_add s (acc_events (w l) (i l))).

(** Whether the partial store [seg], made from [output], writes address [x]. *)
Definition covers (output x : Z) (seg : Z * nat) : bool :=
  (output + fst seg <=? x) && (x <? output + fst seg + Z.of_nat (snd seg)).

(** The variables of a column when it enters tile [t]. *)
Definition tile_locals (i0 : list Z) (weights output0 : Z) (t : nat) : locals :=
  {| i := map (fun ik => size_add ik (8 * Z.of_nat t)) i0;
     w := size_add weights (104 * Z.of_nat t);
     output := size_add output0 (8 * Z.of_nat t) |}.

(** The stores of one output pixel of [channels] channels written from [base]. *)
Definition pixel_stores (channels base : Z) : list (Z * nat) :=
  map (fun t => (size_add base (8 * Z.of_nat t), 8%nat)) (seq 0 (Z.to_nat (channels / 8)))
  ++ map (fun '(off, n) => (size_add base (8 * (channels / 8) + off), n))
         (tail_segments (channels mod 8)).

(** The row pointer of tap [k], from the entry read in the indirection buffer. *)
Definition resolve (zero input_offset entry : Z) : Z :=
  if negb (entry =? zero) then size_add entry input_offset else entry.

Definition tap_pointers (mem : Z -> Z) (input zero input_offset : Z) : list Z :=
  map (fun k => resolve zero input_offset (bytes_at mem 8 (size_add input (8 * Z.of_nat k))))
      (seq 0 9).

(** The loads of tile [t] of a pixel: the biases, then for each tap its 8
    inputs and its 8 weights. *)
Definition tile_loads (weights : Z) (i : list Z) (t : nat) : list (Z * nat) :=
  load_shapes (acc_events (size_add weights (104 * Z.of_nat t))
                          (map (fun ik => size_add ik (8 * Z.of_nat t)) i)).

Definition pixel_loads (channels weights input : Z) (i : list Z) : list (Z * nat) :=
  map (fun k => (size_add input (8 * Z.of_nat k), 8%nat)) (seq 0 9)
  ++ flat_map (tile_loads weights i) (seq 0 (Z.to_nat ((channels + 7) / 8))).

End DWConvTrace.

(** ** The requantization of one channel

    What lines 142-172 compute for channel [j] of a tile, as arithmetic on
    integers: the lanes of the parameter blocks the channel reads, and the
    steps applied to its accumulator. *)

Module RequantChannel.
Import Bits Intrin Requant.

(** [_mm256_mul_epi32] multiplies the even 32-bit lanes only, so channel [j]
    reads lane 0 or lane 2 of [multiplier]; the other parameters are read in
    the lane of the channel. *)
Definition multiplier_at (params : xnn_qs8_gemm_params) (j : Z) : Z :=
  signed 32 (lane 32 ((2 * (j / 2)) mod 4) (multiplier params)).

Definition rounding_at (params : xnn_qs8_gemm_params) (j : Z) : Z :=
  lane 64 ((j / 2) mod 2) (rounding params).

Definition remainder_mask_at (params : xnn_qs8_gemm_params) (j : Z) : Z :=
  signed 32 (lane 32 (j mod 4) (remainder_mask params)).

Definition remainder_threshold_at (params : xnn_qs8_gemm_params) (j : Z) : Z :=
  signed 32 (lane 32 (j mod 4) (remainder_threshold params)).

Definition shift_at (params : xnn_qs8_gemm_params) : Z := lane 64 0 (shift params).

Definition output_zero_point_at (params : xnn_qs8_gemm_params) (j : Z) : Z :=
  signed 16 (lane 16 j (output_zero_point params)).

Definition output_min_at (params : xnn_qs8_gemm_params) (j : Z) : Z :=
  signed 16 (lane 16 j (output_min params)).

Definition output_max_at (params : xnn_qs8_gemm_params) (j : Z) : Z :=
  signed 16 (lane 16 j (output_max params)).

(** Lines 142-154 for one channel. *)
Definition q31 (multiplier rounding acc : Z) : Z :=
  signed 32 (bits 31 62 (acc * multiplier + rounding)).

(** Lines 156-163 for one channel. *)
Definition rounding_shift (remainder_mask remainder_threshold shift q : Z) : Z :=
  let rem := signed 32 (Z.land q remainder_mask - (if q <? 0 then 1 else 0)) in
  signed 32 (Z.shiftr q shift + (if rem >? remainder_threshold then 1 else 0)).

(** Lines 165-172 for one channel. *)
Definition clamp (output_zero_point output_min output_max x : Z) : Z :=
  sat 8 (Z.min (Z.max (sat 16 (sat 16 x + output_zero_point)) output_min) output_max).

Definition requantize_channel (params : xnn_qs8_gemm_params) (j acc : Z) : Z :=
  clamp (output_zero_point_at params j) (output_min_at params j) (output_max_at params j)
    (rounding_shift (remainder_mask_at params j) (remainder_threshold_at params j)
       (shift_at params)
       (q31 (multiplier_at params j) (rounding_at params j) acc)).

End RequantChannel.

(** ** The store after the tiles, the pixels and the whole call *)

Module DWConvState.
Import Bits Intrin Requant Mem DWConv DWConvTrace.

(** The state after the first [N] full tiles of a pixel. *)
Definition tiles_state (params : xnn_qs8_gemm_params) (i0 : list Z) (weights output0 : Z)
    (N : nat) (s : state) : state :=
  fold_left (fun s t => full_tile_state params (tile_locals i0 weights output0 t) s)
            (seq 0 N) s.

(** The state after one pixel: the nine entries of the indirection buffer
    are read, then the full tiles run, then the tail tile if channels remain. *)
Definition pixel_state (a : args) (input output : Z) (s : state) : state :=
  let i0 := tap_pointers (bytes s) input (zero a) (input_offset a) in
  let N := Z.to_nat (channels a / 8) in
  let c := channels a mod 8 in
  let s1 := tiles_state (params a) i0 (weights a) output N
              (log_add s (map (fun k => Load (size_add input (8 * Z.of_nat k)) 8)
                              (seq 0 9))) in
  if c =? 0 then s1
  else tail_tile_state (params a) c (tile_locals i0 (weights a) output N) s1.

(** The values of [input] and [output] when pixel [p] of a call starts. *)
Definition pixel_input (input_stride input : Z) (p : nat) : Z :=
  size_add input (Z.of_nat p * input_stride).

Definition pixel_output (channels output_increment output : Z) (p : nat) : Z :=
  size_add output (Z.of_nat p * (channels + output_increment)).

(** The state after the first [W] pixels of a call. *)
Definition pixels_state (a : args) (input output : Z) (W : nat) (s : state) : state :=
  fold_left (fun s p => pixel_state a (pixel_input (input_stride a) input p)
                          (pixel_output (channels a) (output_increment a) output p) s)
            (seq 0 W) s.

(** The accumulator of lane [j] of a tile, as a signed 32-bit value: the
    bias plus the nine products, with the wrap-around of [_mm256_add_epi32]. *)
Definition accumulator (mem : Z -> Z) (w : Z) (i : list Z) (j : Z) : Z :=
  signed 32 (lane 32 j (bytes_at mem 32 w) + sum (tap_terms mem w 0 i j)).

(** The addresses of the bytes that a list of accesses covers, in order. *)
Definition covered (l : list (Z * nat)) : list Z :=
  flat_map (fun '(a, n) => map (fun b => a + Z.of_nat b) (seq 0 n)) l.

(** An access of [n] bytes at [a] that leaves the bytes from [lo] up to [hi]
    (excluded) alone. *)
Definition outside (lo hi : Z) (access : Z * nat) : Prop :=
  fst access + Z.of_nat (snd access) <= lo \/ hi <= fst access.

(** An access that stays inside the bytes from [lo] up to [hi] (excluded). *)
Definition within (lo hi : Z) (access : Z * nat) : Prop :=
  lo <= fst access /\ fst access + Z.of_nat (snd access) <= hi.

End DWConvState.

(** ** What a run of the depth-to-space kernel copies *)

Module DepthToSpaceTrace.
Import Bits Mem DWConvTrace.

(** [*(uint32_t* ) dst = *(uint32_t* ) src]. *)
Definition copy_state (m : Z * Z) (s : state) : state :=
  let v := bytes_at (bytes s) 4 (fst m) in
  {| bytes := store_bytes (bytes s) 4 (snd m) v;
     log := log s ++ [Load (fst m) 4; Store (snd m) 4 v] |}.

(** A sequence of such copies, each given as (source, destination). *)
Definition copies (l : list (Z * Z)) (s : state) : state := fold_left (fun s m => copy_state m s) l s.

(** The indices [(iy, (by, (ix, (bx, c))))] in the order of the five loops. *)
Definition index : Type := (nat * (nat * (nat * (nat * nat))))%type.

Definition indices (output_channels input_height input_width block_size : Z) : list index :=
  list_prod (seq 0 (Z.to_nat input_height))
    (list_prod (seq 0 (Z.to_nat block_size))
       (list_prod (seq 0 (Z.to_nat input_width))
          (list_prod (seq 0 (Z.to_nat block_size)) (seq 0 (Z.to_nat output_channels))))).

(** The byte offsets of the comment at lines 32-38. *)
Definition input_offset (block_size input_channel_stride input_height_stride : Z)
    (iy by_ ix bx c : Z) : Z :=
  (c * block_size * block_size + by_ * block_size + bx) * input_channel_stride
  + iy * input_height_stride + ix * 4.

Definition output_offset (block_size output_height_stride output_width_stride : Z)
    (iy by_ ix bx c : Z) : Z :=
  (iy * block_size + by_) * output_height_stride
  + (ix * block_size + bx) * output_width_stride + c * 4.

(** The addresses of the element read and of the element written for an index. *)
Definition source (block_size input input_channel_stride input_height_stride : Z)
    (iy by_ ix bx c : Z) : Z :=
  size_add input
    (input_offset block_size input_channel_stride input_height_stride iy by_ ix bx c).

Definition destination (block_size output output_height_stride output_width_stride : Z)
    (iy by_ ix bx c : Z) : Z :=
  size_add output
    (output_offset block_size output_height_stride output_width_stride iy by_ ix bx c).

Definition move (block_size input output input_channel_stride input_height_stride
                 output_height_stride output_width_stride : Z) (t : index) : Z * Z :=
  let '(iy, (by_, (ix, (bx, c)))) := t in
  (source block_size input input_channel_stride input_height_stride
     (Z.of_nat iy) (Z.of_nat by_) (Z.of_nat ix) (Z.of_nat bx) (Z.of_nat c),
   destination block_size output output_height_stride output_width_stride
     (Z.of_nat iy) (Z.of_nat by_) (Z.of_nat ix) (Z.of_nat bx) (Z.of_nat c)).

(** The pointers of the copy for the indices below each loop, from the
    pointers that loop carries. *)
Section Pointers.
Variables block_size input_channel_stride input_height_stride : Z.
Variables output_height_stride output_width_stride : Z.

Definition move_ix (i_ix o_ix : Z) (t : nat * nat) : Z * Z :=
  (size_add (size_add i_ix (Z.of_nat (fst t)
                            * DepthToSpace.bx_input_increment input_channel_stride))
            (Z.of_nat (snd t)
             * DepthToSpace.c_input_increment block_size input_channel_stride),
   size_add (size_add o_ix (Z.of_nat (fst t)
                            * DepthToSpace.bx_output_increment output_width_stride))
            (Z.of_nat (snd t) * DepthToSpace.c_output_increment)).

Definition move_by (i_by o_by : Z) (t : nat * (nat * nat)) : Z * Z :=
  move_ix (size_add i_by (Z.of_nat (fst t) * DepthToSpace.ix_input_increment))
          (size_add o_by (Z.of_nat (fst t)
                          * DepthToSpace.ix_output_increment block_size output_width_stride))
          (snd t).

Definition move_iy (i_iy o_iy : Z) (t : nat * (nat * (nat * nat))) : Z * Z :=
  move_by (size_add i_iy (Z.of_nat (fst t)
                          * DepthToSpace.by_input_increment block_size input_channel_stride))
          (size_add o_iy (Z.of_nat (fst t)
                          * DepthToSpace.by_output_increment output_height_stride))
          (snd t).

Definition move_all (input output : Z) (t : index) : Z * Z :=
  move_iy (size_add input (Z.of_nat (fst t)
                           * DepthToSpace.iy_input_increment input_height_stride))
          (size_add output (Z.of_nat (fst t)
                            * DepthToSpace.iy_output_increment block_size output_height_stride))
          (snd t).
End Pointers.

(** Two 4-byte elements that share no byte. *)
Definition apart (a b : Z) : Prop := a + 4 <= b \/ b + 4 <= a.

End DepthToSpaceTrace.

(** ** [DepthToSpaceOperatorTester] ([test/depth-to-space-operator-tester.h]) *)

Module Tester.
Import Mem.

Local Notation "a +' b" := (size_add a b) (at level 50, left associativity).
Local Notation "a *' b" := (size_mul a b) (at level 40, left associativity).

(** Lines 177-183: the private members, all of type [size_t]. *)
Record DepthToSpaceOperatorTester : Type := {
  input_height_ : Z;
  input_width_ : Z;
  output_channels_ : Z;
  block_size_ : Z;
  batch_size_ : Z;
  iterations_ : Z
}.

(** The default member initializers of lines 178-183. *)
Definition initial : DepthToSpaceOperatorTester :=
  {| input_height_ := 1; input_width_ := 1; output_channels_ := 1;
     block_size_ := 2; batch_size_ := 1; iterations_ := 1 |}.

(** The setters; C++ overloads each name with its getter, so the setters
    carry the prefix [set_].  [None] is a failed [assert]. *)
Definition set_input_size (t : DepthToSpaceOperatorTester) (input_height input_width : Z)
  : option DepthToSpaceOperatorTester :=
  if (input_height >=? 1) && (input_width >=? 1) then
    Some {| input_height_ := input_height; input_width_ := input_width;
            output_channels_ := output_channels_ t; block_size_ := block_size_ t;
            batch_size_ := batch_size_ t; iterations_ := iterations_ t |}
  else None.

Definition set_input_height (t : DepthToSpaceOperatorTester) (input_height : Z)
  : option DepthToSpaceOperatorTester :=
  if input_height >=? 1 then
    Some {| input_height_ := input_height; input_width_ := input_width_ t;
            output_channels_ := output_channels_ t; block_size_ := block_size_ t;
            batch_size_ := batch_size_ t; iterations_ := iterations_ t |}
  else None.

Definition set_input_width (t : DepthToSpaceOperatorTester) (input_width : Z)
  : option DepthToSpaceOperatorTester :=
  if input_width >=? 1 then
    Some {| input_height_ := input_height_ t; input_width_ := input_width;
            output_channels_ := output_channels_ t; block_size_ := block_size_ t;
            batch_size_ := batch_size_ t; iterations_ := iterations_ t |}
  else None.

Definition set_block_size (t : DepthToSpaceOperatorTester) (block_size : Z)
  : option DepthToSpaceOperatorTester :=
  if block_size >=? 2 then
    Some {| input_height_ := input_height_ t; input_width_ := input_width_ t;
            output_channels_ := output_channels_ t; block_size_ := block_size;
            batch_size_ := batch_size_ t; iterations_ := iterations_ t |}
  else None.

Definition set_output_channels (t : DepthToSpaceOperatorTester) (output_channels : Z)
  : option DepthToSpaceOperatorTester :=
  if negb (output_channels =? 0) then
    Some {| input_height_ := input_height_ t; input_width_ := input_width_ t;
            output_channels_ := output_channels; block_size_ := block_size_ t;
            batch_size_ := batch_size_ t; iterations_ := iterations_ t |}
  else None.

Definition set_batch_size (t : DepthToSpaceOperatorTester) (batch_size : Z)
  : option DepthToSpaceOperatorTester :=
  if negb (batch_size =? 0) then
    Some {| input_height_ := input_height_ t; input_width_ := input_width_ t;
            output_channels_ := output_channels_ t; block_size_ := block_size_ t;
            batch_size_ := batch_size; iterations_ := iterations_ t |}
  else None.

Definition set_iterations (t : DepthToSpaceOperatorTester) (iterations : Z)
  : option DepthToSpaceOperatorTester :=
  Some {| input_height_ := input_height_ t; input_width_ := input_width_ t;
          output_channels_ := output_channels_ t; block_size_ := block_size_ t;
          batch_size_ := batch_size_ t; iterations_ := iterations |}.

(** The testers a test can build: [DepthToSpaceOperatorTester()] followed by
    setters whose [assert]s pass.  The arguments are [size_t] values. *)
Inductive built : DepthToSpaceOperatorTester -> Prop :=
| built_initial : built initial
| built_input_size t h w t' :
    built t -> 0 <= h < 2 ^ 64 -> 0 <= w < 2 ^ 64 ->
    set_input_size t h w = Some t' -> built t'
| built_input_height t h t' :
    built t -> 0 <= h < 2 ^ 64 -> set_input_height t h = Some t' -> built t'
| built_input_width t w t' :
    built t -> 0 <= w < 2 ^ 64 -> set_input_width t w = Some t' -> built t'
| built_block_size t b t' :
    built t -> 0 <= b < 2 ^ 64 -> set_block_size t b = Some t' -> built t'
| built_output_channels t c t' :
    built t -> 0 <= c < 2 ^ 64 -> set_output_channels t c = Some t' -> built t'
| built_batch_size t n t' :
    built t -> 0 <= n < 2 ^ 64 -> set_batch_size t n = Some t' -> built t'
| built_iterations t n t' :
    built t -> 0 <= n < 2 ^ 64 -> set_iterations t n = Some t' -> built t'.

(** The getters. *)
Definition input_height (t : DepthToSpaceOperatorTester) : Z := input_height_ t.
Definition input_width (t : DepthToSpaceOperatorTester) : Z := input_width_ t.
Definition block_size (t : DepthToSpaceOperatorTester) : Z := block_size_ t.
Definition output_channels (t : DepthToSpaceOperatorTester) : Z := output_channels_ t.
Definition batch_size (t : DepthToSpaceOperatorTester) : Z := batch_size_ t.
Definition iterations (t : DepthToSpaceOperatorTester) : Z := iterations_ t.

Definition output_height (t : DepthToSpaceOperatorTester) : Z :=
  input_height t *' block_size t.

Definition output_width (t : DepthToSpaceOperatorTester) : Z :=
  input_width t *' block_size t.

Definition input_channels (t : DepthToSpaceOperatorTester) : Z :=
  output_channels t *' block_size t *' block_size t.

Definition input_channel_stride (t : DepthToSpaceOperatorTester) : Z :=
  input_height t *' input_width t.

Definition input_height_stride (t : DepthToSpaceOperatorTester) : Z := input_width t.

(** Lines 116-117 of [TestNCHW2NHWCxF32]. *)
Definition output_height_stride (t : DepthToSpaceOperatorTester) : Z :=
  output_width t *' output_channels t.

Definition output_width_stride (t : DepthToSpaceOperatorTester) : Z := output_channels t.

(** Lines 119-120: the sizes of the two vectors, in elements.
    [XNN_EXTRA_BYTES] is defined outside these sources. *)
Definition input_vector_size (XNN_EXTRA_BYTES : Z) (t : DepthToSpaceOperatorTester) : Z :=
  batch_size t *' input_height t *' input_width t *' input_channels t
  +' XNN_EXTRA_BYTES / 4.

Definition output_vector_size (t : DepthToSpaceOperatorTester) : Z :=
  batch_size t *' output_height t *' output_width t *' output_channels t.

(** Lines 154-155 and 158: the offsets the verification loop compares. *)
Definition input_offset (t : DepthToSpaceOperatorTester) (i iy by_ ix bx oc : Z) : Z :=
  i *' input_height t *' input_width t *' input_channels t
  +' (oc *' block_size t *' block_size t +' by_ *' block_size t +' bx)
     *' input_channel_stride t
  +' iy *' input_height_stride t
  +' ix.

Definition output_offset (t : DepthToSpaceOperatorTester) (i iy by_ ix bx oc : Z) : Z :=
  i *' output_height t *' output_width t *' output_channels t
  +' (iy *' block_size t +' by_) *' output_height_stride t
  +' (ix *' block_size t +' bx) *' output_width_stride t
  +' oc.

(** The indices [(i, (iy, (by, (ix, (bx, oc)))))] of the six loops of lines
    148-153, in the order the loops visit them. *)
Definition loop_index : Type := (nat * (nat * (nat * (nat * (nat * nat)))))%type.

Definition loop_indices (t : DepthToSpaceOperatorTester) : list loop_index :=
  list_prod (seq 0 (Z.to_nat (batch_size t)))
    (list_prod (seq 0 (Z.to_nat (input_height t)))
       (list_prod (seq 0 (Z.to_nat (block_size t)))
          (list_prod (seq 0 (Z.to_nat (input_width t)))
             (list_prod (seq 0 (Z.to_nat (block_size t)))
                        (seq 0 (Z.to_nat (output_channels t))))))).

(** The two offsets of lines 154-158 for an index of the loops. *)
Definition offsets (t : DepthToSpaceOperatorTester) (x : loop_index) : Z * Z :=
  let '(i, (iy, (by_, (ix, (bx, oc))))) := x in
  (input_offset t (Z.of_nat i) (Z.of_nat iy) (Z.of_nat by_) (Z.of_nat ix) (Z.of_nat bx)
                (Z.of_nat oc),
   output_offset t (Z.of_nat i) (Z.of_nat iy) (Z.of_nat by_) (Z.of_nat ix) (Z.of_nat bx)
                 (Z.of_nat oc)).

(** Lines 154-161: the two [ASSERT_LT] and the [ASSERT_EQ] of one iteration;
    [input] and [output] give the element of each vector at an offset. *)
Definition check (t : DepthToSpaceOperatorTester) (input_size output_size : Z)
    (input output : Z -> Z) (x : loop_index) : bool :=
  let '(input_offset, output_offset) := offsets t x in
  (input_offset <? input_size) && (output_offset <? output_size)
  && (output output_offset =? input input_offset).

(** Lines 148-173: the verification passes when no assertion fails. *)
Definition verify (t : DepthToSpaceOperatorTester) (input_size output_size : Z)
    (input output : Z -> Z) : bool :=
  forallb (check t input_size output_size input output) (loop_indices t).

End Tester.

(** * Properties

    ** Lanes *)

Module BitsFacts.
Import Bits.

Lemma lane_eq w i v :
  0 <= w -> 0 <= i -> lane w i v = (v / 2 ^ (w * i)) mod 2 ^ w.
Proof.
  intros Hw Hi. unfold lane.
  rewrite Z.land_ones by assumption.
  rewrite Z.shiftr_div_pow2 by nia. reflexivity.
Qed.

Lemma lane_range w i v : 0 <= w -> 0 <= i -> 0 <= lane w i v < 2 ^ w.
Proof.
  intros Hw Hi. rewrite lane_eq by assumption.
  apply Z.mod_pos_bound. apply Z.pow_pos_nonneg; lia.
Qed.

Lemma lane_testbit w i v k :
  0 <= w -> 0 <= i -> 0 <= k ->
  Z.testbit (lane w i v) k = (k <? w) && Z.testbit v (w * i + k).
Proof.
  intros Hw Hi Hk. unfold lane.
  rewrite Z.land_spec, Z.shiftr_spec by assumption.
  rewrite Z.testbit_ones_nonneg by assumption.
  rewrite andb_comm, Z.add_comm. reflexivity.
Qed.

(** A lane of a lane: lane [m * j + t] of width [w] is lane [t] of the
    [j]-th lane of width [w * m]. *)
Lemma lane_lane w m j t v :
  0 <= w -> 0 <= j -> 0 <= t < m ->
  lane w t (lane (w * m) j v) = lane w (m * j + t) v.
Proof.
  intros Hw Hj Ht. apply Z.bits_inj'. intros k Hk.
  rewrite !lane_testbit by nia.
  destruct (Z.ltb_spec k w); simpl; [|reflexivity].
  replace (w * t + k <? w * m) with true by (symmetry; apply Z.ltb_lt; nia).
  simpl. f_equal. ring.
Qed.

Lemma lane_small w v : 0 <= w -> 0 <= v < 2 ^ w -> lane w 0 v = v.
Proof.
  intros Hw Hv. rewrite lane_eq by lia.
  rewrite Z.mul_0_r, Z.pow_0_r, Z.div_1_r. apply Z.mod_small; assumption.
Qed.

Lemma lane_mod w i v n :
  0 <= w -> 0 <= i -> w * (i + 1) <= n ->
  lane w i (v mod 2 ^ n) = lane w i v.
Proof.
  intros Hw Hi Hn. apply Z.bits_inj'. intros k Hk.
  rewrite !lane_testbit by lia.
  destruct (Z.ltb_spec k w); simpl; [|reflexivity].
  rewrite Z.mod_pow2_bits_low by nia. reflexivity.
Qed.

Lemma pack_range w n f : 0 <= w -> 0 <= pack w n f < 2 ^ (w * Z.of_nat n).
Proof.
  intros Hw. revert f. induction n as [|n IH]; intros f.
  - simpl. rewrite Z.mul_0_r. simpl. lia.
  - cbn [pack]. specialize (IH (fun i => f (i + 1))).
    assert (H2 : 0 < 2 ^ w) by (apply Z.pow_pos_nonneg; lia).
    pose proof (Z.mod_pos_bound (f 0) (2 ^ w) H2) as Hm.
    replace (w * Z.of_nat (S n)) with (w + w * Z.of_nat n) by lia.
    rewrite Z.pow_add_r by nia. nia.
Qed.

Lemma lane_pack w n f i :
  0 <= w -> 0 <= i < Z.of_nat n -> lane w i (pack w n f) = f i mod 2 ^ w.
Proof.
  intros Hw. revert f i. induction n as [|n IH]; intros f i Hi; [lia|].
  assert (H2 : 0 < 2 ^ w) by (apply Z.pow_pos_nonneg; lia).
  pose proof (Z.mod_pos_bound (f 0) (2 ^ w) H2) as Hm.
  cbn [pack]. destruct (Z.eq_dec i 0) as [->|Hne].
  - rewrite lane_eq by lia.
    rewrite Z.mul_0_r, Z.pow_0_r, Z.div_1_r.
    rewrite Z.mul_comm, Z.mod_add by lia. apply Z.mod_mod; lia.
  - specialize (IH (fun i => f (i + 1)) (i - 1)). cbv beta in IH.
    replace (i - 1 + 1) with i in IH by lia.
    rewrite <- IH by lia.
    rewrite !lane_eq by lia.
    replace (w * i) with (w + w * (i - 1)) by lia.
    rewrite Z.pow_add_r by nia.
    rewrite <- Z.div_div by (try apply Z.pow_pos_nonneg; nia).
    rewrite (Z.mul_comm (2 ^ w)), Z.div_add by lia.
    rewrite (Z.div_small (f 0 mod 2 ^ w)) by lia. reflexivity.
Qed.

(** A narrow lane of a register built from wide lanes. *)
Lemma lane_pack_wide w m n f j t :
  0 <= w -> 0 <= t < m -> 0 <= j < Z.of_nat n ->
  lane w (m * j + t) (pack (w * m) n f) = lane w t (f j).
Proof.
  intros Hw Ht Hj.
  rewrite <- lane_lane by lia.
  rewrite lane_pack by nia.
  apply lane_mod; nia.
Qed.

Lemma signed_range w x : 0 < w -> - 2 ^ (w - 1) <= signed w x < 2 ^ (w - 1).
Proof.
  intros Hw. unfold signed.
  assert (H2 : 2 ^ w = 2 * 2 ^ (w - 1)).
  { replace w with (1 + (w - 1)) at 1 by lia. rewrite Z.pow_add_r by lia. reflexivity. }
  assert (0 < 2 ^ (w - 1)) by (apply Z.pow_pos_nonneg; lia).
  pose proof (Z.mod_pos_bound x (2 ^ w) ltac:(lia)).
  destruct (Z.ltb_spec (x mod 2 ^ w) (2 ^ (w - 1))); lia.
Qed.

Lemma signed_mod w x : signed w (x mod 2 ^ w) = signed w x.
Proof.
  unfold signed. destruct (Z.le_gt_cases 0 w).
  - rewrite Z.mod_mod by (apply Z.pow_nonzero; lia). reflexivity.
  - rewrite (Z.pow_neg_r 2 w) by lia. rewrite !Z.mod_0_r. reflexivity.
Qed.

Lemma signed_small w x :
  0 < w -> - 2 ^ (w - 1) <= x < 2 ^ (w - 1) -> signed w x = x.
Proof.
  intros Hw Hx. unfold signed.
  assert (H2 : 2 ^ w = 2 * 2 ^ (w - 1)).
  { replace w with (1 + (w - 1)) at 1 by lia. rewrite Z.pow_add_r by lia. reflexivity. }
  destruct (Z.neg_nonneg_cases x).
  - replace (x mod 2 ^ w) with (x + 2 ^ w).
    + destruct (Z.ltb_spec (x + 2 ^ w) (2 ^ (w - 1))); lia.
    + apply Z.mod_unique with (q := -1); lia.
  - rewrite Z.mod_small by lia.
    destruct (Z.ltb_spec x (2 ^ (w - 1))); lia.
Qed.

(** The signed reading is congruent to the pattern modulo [2 ^ w]. *)
Lemma signed_cong w x : 0 < w -> signed w x mod 2 ^ w = x mod 2 ^ w.
Proof.
  intros Hw. unfold signed.
  assert (0 < 2 ^ w) by (apply Z.pow_pos_nonneg; lia).
  destruct (Z.ltb_spec (x mod 2 ^ w) (2 ^ (w - 1))).
  - apply Z.mod_mod; lia.
  - rewrite <- (Z.mod_mod x (2 ^ w)) at 2 by lia.
    replace (x mod 2 ^ w - 2 ^ w) with (x mod 2 ^ w + (-1) * 2 ^ w) by ring.
    apply Z.mod_add; lia.
Qed.

Lemma sat_range w x : 0 < w -> - 2 ^ (w - 1) <= sat w x < 2 ^ (w - 1).
Proof.
  intros Hw. unfold sat.
  assert (0 < 2 ^ (w - 1)) by (apply Z.pow_pos_nonneg; lia). lia.
Qed.

End BitsFacts.

(** ** Lanes of the intrinsics' results *)

Module IntrinFacts.
Import Bits BitsFacts Intrin.

Lemma lane_halves w j v :
  0 <= w -> 0 <= j ->
  lane (2 * w) j v = lane w (2 * j) v + 2 ^ w * lane w (2 * j + 1) v.
Proof.
  intros Hw Hj. rewrite !lane_eq by lia.
  assert (H2 : 0 < 2 ^ w) by (apply Z.pow_pos_nonneg; lia).
  replace (2 ^ (2 * w)) with (2 ^ w * 2 ^ w) by (rewrite <- Z.pow_add_r by lia; f_equal; lia).
  rewrite Z.rem_mul_r by lia.
  replace (w * (2 * j + 1)) with (2 * w * j + w) by ring.
  replace (w * (2 * j)) with (2 * w * j) by ring.
  rewrite (Z.pow_add_r 2 (2 * w * j) w) by nia.
  rewrite Z.div_div by (try apply Z.pow_pos_nonneg; nia).
  reflexivity.
Qed.

Lemma lane_land w i a b :
  0 <= w -> 0 <= i -> lane w i (Z.land a b) = Z.land (lane w i a) (lane w i b).
Proof.
  intros Hw Hi. apply Z.bits_inj'. intros k Hk.
  rewrite Z.land_spec, !lane_testbit, Z.land_spec by lia.
  destruct (k <? w); reflexivity.
Qed.

Lemma lane_0 w i : lane w i 0 = 0.
Proof. unfold lane. rewrite Z.shiftr_0_l. apply Z.land_0_l. Qed.

Lemma lane_fixed w i v : 0 <= w -> 0 <= i -> lane w i v mod 2 ^ w = lane w i v.
Proof. intros. apply Z.mod_small. apply lane_range; assumption. Qed.

Lemma signed_lane_mod w x : 0 < w -> signed w (x mod 2 ^ w) = signed w x.
Proof. intros. apply signed_mod. Qed.

Lemma lane32_broadcast j a :
  0 <= j < 8 -> lane 32 j (_mm256_broadcastsi128_si256 a) = lane 32 (j mod 4) a.
Proof.
  intros Hj. unfold _mm256_broadcastsi128_si256.
  rewrite (Z.div_mod j 4) at 1 by lia.
  change 128 with (32 * 4).
  apply (lane_pack_wide 32 4 2 (fun _ => a)); try lia.
  - apply Z.mod_pos_bound; lia.
  - split; [apply Z.div_pos; lia|].
    apply Z.div_lt_upper_bound; simpl; lia.
Qed.

Lemma lane64_broadcast j a :
  0 <= j < 4 -> lane 64 j (_mm256_broadcastsi128_si256 a) = lane 64 (j mod 2) a.
Proof.
  intros Hj. unfold _mm256_broadcastsi128_si256.
  rewrite (Z.div_mod j 2) at 1 by lia.
  change 128 with (64 * 2).
  apply (lane_pack_wide 64 2 2 (fun _ => a)); try lia.
  - apply Z.mod_pos_bound; lia.
  - split; [apply Z.div_pos; lia|].
    apply Z.div_lt_upper_bound; simpl; lia.
Qed.

Lemma lane32_add j a b :
  0 <= j < 8 ->
  lane 32 j (_mm256_add_epi32 a b) = (lane 32 j a + lane 32 j b) mod 2 ^ 32.
Proof. intros. unfold _mm256_add_epi32. rewrite lane_pack by lia; reflexivity. Qed.

Lemma lane32_sub j a b :
  0 <= j < 8 ->
  lane 32 j (_mm256_sub_epi32 a b) = (lane 32 j a - lane 32 j b) mod 2 ^ 32.
Proof. intros. unfold _mm256_sub_epi32. rewrite lane_pack by lia; reflexivity. Qed.

Lemma lane32_mullo j a b :
  0 <= j < 8 ->
  lane 32 j (_mm256_mullo_epi32 a b)
  = (signed 32 (lane 32 j a) * signed 32 (lane 32 j b)) mod 2 ^ 32.
Proof. intros. unfold _mm256_mullo_epi32. rewrite lane_pack by lia; reflexivity. Qed.

Lemma lane32_cvtepi8 j a :
  0 <= j < 8 ->
  lane 32 j (_mm256_cvtepi8_epi32 a) = signed 8 (lane 8 j a) mod 2 ^ 32.
Proof. intros. unfold _mm256_cvtepi8_epi32. rewrite lane_pack by lia; reflexivity. Qed.

Lemma lane32_cmpgt j a b :
  0 <= j < 8 ->
  lane 32 j (_mm256_cmpgt_epi32 a b)
  = if signed 32 (lane 32 j a) >? signed 32 (lane 32 j b) then 2 ^ 32 - 1 else 0.
Proof.
  intros. unfold _mm256_cmpgt_epi32. rewrite lane_pack by lia.
  destruct (_ >? _); reflexivity.
Qed.

Lemma lane64_mul i a b :
  0 <= i < 4 ->
  lane 64 i (_mm256_mul_epi32 a b)
  = (signed 32 (lane 32 (2 * i) a) * signed 32 (lane 32 (2 * i) b)) mod 2 ^ 64.
Proof. intros. unfold _mm256_mul_epi32. rewrite lane_pack by lia; reflexivity. Qed.

Lemma lane64_add i a b :
  0 <= i < 4 ->
  lane 64 i (_mm256_add_epi64 a b) = (lane 64 i a + lane 64 i b) mod 2 ^ 64.
Proof. intros. unfold _mm256_add_epi64. rewrite lane_pack by lia; reflexivity. Qed.

Lemma lane64_srli i a n :
  0 <= i < 4 -> 0 <= n <= 63 ->
  lane 64 i (_mm256_srli_epi64 a n) = Z.shiftr (lane 64 i a) n.
Proof.
  intros Hi Hn. unfold _mm256_srli_epi64. rewrite lane_pack by lia.
  replace (n >? 63) with false by (rewrite Z.gtb_ltb; symmetry; apply Z.ltb_ge; lia).
  apply Z.mod_small.
  pose proof (lane_range 64 i a ltac:(lia) ltac:(lia)) as Hr.
  rewrite Z.shiftr_div_pow2 by lia.
  split.
  - apply Z.div_pos; [lia | apply Z.pow_pos_nonneg; lia].
  - apply Z.le_lt_trans with (lane 64 i a); [|lia].
    apply Z.div_le_upper_bound; [apply Z.pow_pos_nonneg; lia|].
    assert (1 <= 2 ^ n) by (pose proof (Z.pow_pos_nonneg 2 n); lia). nia.
Qed.

(** The blend with mask [0xCC] takes the even 32-bit lanes of [a] and the odd
    ones of [b]. *)
Lemma lane32_blend_cc j a b :
  0 <= j < 8 ->
  lane 32 j (_mm256_blend_epi16 a b 204)
  = if Z.odd j then lane 32 j b else lane 32 j a.
Proof.
  intros Hj. unfold _mm256_blend_epi16.
  change 32 with (2 * 16) at 1.
  rewrite lane_halves by lia.
  rewrite !lane_pack by lia.
  change 32 with (2 * 16).
  rewrite (lane_halves 16 j a), (lane_halves 16 j b) by lia.
  assert (Hc : j = 0 \/ j = 1 \/ j = 2 \/ j = 3 \/ j = 4 \/ j = 5 \/ j = 6 \/ j = 7) by lia.
  assert (T0 : Z.testbit 204 ((2 * j) mod 8) = Z.odd j)
    by (destruct Hc as [->|[->|[->|[->|[->|[->|[->| ->]]]]]]]; reflexivity).
  assert (T1 : Z.testbit 204 ((2 * j + 1) mod 8) = Z.odd j)
    by (destruct Hc as [->|[->|[->|[->|[->|[->|[->| ->]]]]]]]; reflexivity).
  rewrite T0, T1.
  destruct (Z.odd j); rewrite !lane_fixed by lia; reflexivity.
Qed.

End IntrinFacts.

(** ** Requantization, lane by lane *)

Module RequantFacts.
Import Bits BitsFacts Intrin IntrinFacts Requant.

Lemma bits_mod lo hi n x :
  0 <= lo <= hi -> hi < n -> bits lo hi (x mod 2 ^ n) = bits lo hi x.
Proof.
  intros Hl Hn. unfold bits. apply Z.bits_inj'. intros k Hk.
  destruct (Z.lt_ge_cases k (hi - lo + 1)).
  - rewrite !Z.mod_pow2_bits_low by lia.
    rewrite !Z.div_pow2_bits by lia.
    apply Z.mod_pow2_bits_low. lia.
  - rewrite !Z.mod_pow2_bits_high by lia. reflexivity.
Qed.

Lemma lane32_srli64_31 i x :
  0 <= i < 4 -> lane 32 (2 * i) (_mm256_srli_epi64 x 31) = bits 31 62 (lane 64 i x).
Proof.
  intros Hi. unfold _mm256_srli_epi64.
  replace (2 * i) with (2 * i + 0) by lia. change 64 with (32 * 2) at 1.
  rewrite lane_pack_wide by lia. cbv beta.
  change (31 >? 63) with false. cbv iota.
  rewrite lane_eq by lia. unfold bits.
  rewrite Z.shiftr_div_pow2 by lia.
  change (2 ^ (32 * 0)) with 1. rewrite Z.div_1_r. reflexivity.
Qed.

Lemma lane32_double64 i x :
  0 <= i < 4 -> lane 32 (2 * i + 1) (_mm256_add_epi64 x x) = bits 31 62 (lane 64 i x).
Proof.
  intros Hi. unfold _mm256_add_epi64.
  change 64 with (32 * 2) at 1.
  rewrite lane_pack_wide by lia. cbv beta.
  rewrite lane_eq by lia. unfold bits.
  replace (lane 64 i x + lane 64 i x) with (2 * lane 64 i x) by ring.
  change (2 ^ (32 * 1)) with (2 * 2 ^ 31).
  rewrite Z.div_mul_cancel_l by lia. reflexivity.
Qed.

Lemma lane32_srli64_32 i a :
  0 <= i < 4 -> lane 32 (2 * i) (_mm256_srli_epi64 a 32) = lane 32 (2 * i + 1) a.
Proof.
  intros Hi. unfold _mm256_srli_epi64.
  replace (2 * i) with (2 * i + 0) at 1 by lia. change 64 with (32 * 2) at 1.
  rewrite lane_pack_wide by lia. cbv beta.
  change (32 >? 63) with false. cbv iota.
  rewrite <- (lane_lane 32 2 i 1 a) by lia.
  rewrite !lane_eq by lia.
  rewrite Z.shiftr_div_pow2 by lia.
  change (2 ^ (32 * 0)) with 1. rewrite Z.div_1_r. reflexivity.
Qed.

(** The 64-bit product of lines 147 and 149. *)
Lemma lane64_prod params a i :
  0 <= i < 4 ->
  lane 64 i (_mm256_add_epi64
               (_mm256_mul_epi32 a (_mm256_broadcastsi128_si256 (multiplier params)))
               (_mm256_broadcastsi128_si256 (rounding params)))
  = (signed 32 (lane 32 (2 * i) a)
     * signed 32 (lane 32 ((2 * i) mod 4) (multiplier params))
     + lane 64 (i mod 2) (rounding params)) mod 2 ^ 64.
Proof.
  intros Hi.
  rewrite lane64_add, lane64_mul, lane32_broadcast, lane64_broadcast by lia.
  rewrite Zplus_mod_idemp_l. reflexivity.
Qed.

(** Lines 142-154, lane [j]: bits 31 to 62 of the 64-bit sum of the product
    and the rounding term. *)
Lemma q31_multiply_lane params vacc j :
  0 <= j < 8 ->
  lane 32 j (q31_multiply params vacc)
  = bits 31 62 (signed 32 (lane 32 j vacc)
                * signed 32 (lane 32 ((2 * (j / 2)) mod 4) (multiplier params))
                + lane 64 ((j / 2) mod 2) (rounding params)).
Proof.
  intros Hj. unfold q31_multiply.
  rewrite lane32_blend_cc by lia.
  assert (Hi : 0 <= j / 2 < 4).
  { split; [apply Z.div_pos; lia | apply Z.div_lt_upper_bound; lia]. }
  pose proof (Z.div_mod j 2 ltac:(lia)) as Hdm.
  pose proof (Z.mod_pos_bound j 2 ltac:(lia)) as Hm.
  rewrite Zodd_mod. destruct (Z.eqb_spec (j mod 2) 1) as [H1|H1].
  - replace j with (2 * (j / 2) + 1) at 1 by lia.
    rewrite lane32_double64, lane64_prod by lia.
    rewrite bits_mod by lia.
    rewrite lane32_srli64_32 by lia.
    replace (2 * (j / 2) + 1) with j by lia. reflexivity.
  - replace j with (2 * (j / 2)) at 1 by lia.
    rewrite lane32_srli64_31, lane64_prod by lia.
    rewrite bits_mod by lia.
    replace (2 * (j / 2)) with j at 1 by lia. reflexivity.
Qed.


Lemma signed_eq_mod w a b : a mod 2 ^ w = b mod 2 ^ w -> signed w a = signed w b.
Proof. intros H. unfold signed. rewrite H. reflexivity. Qed.

Lemma signed_signed w x : 0 < w -> signed w (signed w x) = signed w x.
Proof. intros. apply signed_eq_mod. apply signed_cong; assumption. Qed.

Lemma lane_signed w i v :
  0 < w -> 0 <= i -> signed w (lane w i v) mod 2 ^ w = lane w i v.
Proof.
  intros. rewrite signed_cong by assumption. apply lane_fixed; lia.
Qed.

Lemma land_mod w a b :
  0 <= w -> Z.land (a mod 2 ^ w) (b mod 2 ^ w) = Z.land a b mod 2 ^ w.
Proof.
  intros Hw. rewrite <- !Z.land_ones by assumption.
  apply Z.bits_inj'. intros k Hk. rewrite !Z.land_spec.
  destruct (Z.testbit a k), (Z.testbit b k), (Z.testbit (Z.ones w) k); reflexivity.
Qed.

Lemma land_upper_bound a b : 0 <= b -> 0 <= Z.land a b <= b.
Proof.
  intros Hb. split; [apply Z.land_nonneg; right; assumption|].
  pose proof (Z.add_lor_land (Z.ldiff b a) (Z.land b a)) as H.
  rewrite Z.lor_ldiff_and in H.
  assert (H0 : Z.land (Z.ldiff b a) (Z.land b a) = 0).
  { apply Z.bits_inj'. intros k Hk.
    rewrite !Z.land_spec, Z.ldiff_spec, Z.bits_0.
    destruct (Z.testbit b k), (Z.testbit a k); reflexivity. }
  rewrite H0 in H.
  assert (0 <= Z.ldiff b a) by (apply Z.ldiff_nonneg; left; assumption).
  rewrite (Z.land_comm a b). lia.
Qed.

Lemma shiftr_sign_fill x c :
  - 2 ^ 31 <= x < 2 ^ 31 -> 31 < c ->
  Z.shiftr x c = if x <? 0 then -1 else 0.
Proof.
  intros Hx Hc. rewrite Z.shiftr_div_pow2 by lia.
  assert (Hp : 2 ^ 31 <= 2 ^ c) by (apply Z.pow_le_mono_r; lia).
  destruct (Z.ltb_spec x 0).
  - symmetry. apply Z.div_unique with (r := x + 2 ^ c); lia.
  - apply Z.div_small; lia.
Qed.

Lemma shiftr_range x c :
  - 2 ^ 31 <= x < 2 ^ 31 -> 0 <= c -> - 2 ^ 31 <= Z.shiftr x c < 2 ^ 31.
Proof.
  intros Hx Hc. rewrite Z.shiftr_div_pow2 by lia.
  assert (Hp : 0 < 2 ^ c) by (apply Z.pow_pos_nonneg; lia).
  split.
  - apply Z.div_le_lower_bound; [lia|]. nia.
  - apply Z.div_lt_upper_bound; [lia|]. nia.
Qed.

Lemma shiftr_range_pos x c :
  - 2 ^ 31 <= x < 2 ^ 31 -> 1 <= c -> - 2 ^ 30 <= Z.shiftr x c < 2 ^ 30.
Proof.
  intros Hx Hc. rewrite Z.shiftr_div_pow2 by lia.
  assert (Hp : 2 ^ 1 <= 2 ^ c) by (apply Z.pow_le_mono_r; lia).
  change (2 ^ 1) with 2 in Hp.
  split.
  - apply Z.div_le_lower_bound; [lia|]. nia.
  - apply Z.div_lt_upper_bound; [lia|]. nia.
Qed.

(** Lines 156-158, lane [j]. *)
Lemma remainder_lane params vq j :
  0 <= j < 8 ->
  signed 32 (lane 32 j (remainder params vq))
  = signed 32 (Z.land (signed 32 (lane 32 j vq))
                      (signed 32 (lane 32 (j mod 4) (remainder_mask params)))
               - (if signed 32 (lane 32 j vq) <? 0 then 1 else 0)).
Proof.
  intros Hj. apply signed_eq_mod. unfold remainder, _mm256_and_si256.
  assert (Hm : 0 <= j mod 4 < 4) by (apply Z.mod_pos_bound; lia).
  rewrite lane32_add, lane_land, lane32_broadcast, lane32_cmpgt by lia.
  unfold _mm256_setzero_si256. rewrite lane_0.
  change (signed 32 0) with 0.
  rewrite Z.mod_mod by lia.
  rewrite <- (lane_signed 32 j vq) at 1 by lia.
  rewrite <- (lane_signed 32 (j mod 4) (remainder_mask params)) at 1 by lia.
  rewrite land_mod by lia.
  rewrite Zplus_mod_idemp_l.
  rewrite Z.gtb_ltb.
  destruct (signed 32 (lane 32 j vq) <? 0).
  - match goal with |- (?l + _) mod _ = _ =>
      replace (l + (2 ^ 32 - 1)) with (l - 1 + 1 * 2 ^ 32) by ring end.
    apply Z_mod_plus_full.
  - f_equal; ring.
Qed.

Lemma lane32_sra j a count :
  0 <= j < 8 ->
  lane 32 j (_mm256_sra_epi32 a count)
  = Z.shiftr (signed 32 (lane 32 j a)) (lane 64 0 count) mod 2 ^ 32.
Proof.
  intros Hj. unfold _mm256_sra_epi32. rewrite lane_pack by lia. cbv beta zeta.
  pose proof (signed_range 32 (lane 32 j a) ltac:(lia)) as Hr.
  change (2 ^ (32 - 1)) with (2 ^ 31) in Hr.
  destruct (Z.gtb_spec (lane 64 0 count) 31).
  - rewrite shiftr_sign_fill by lia. reflexivity.
  - reflexivity.
Qed.

(** Lines 160-163, lane [j]. *)
Lemma rescale_lane params vq j :
  0 <= j < 8 ->
  signed 32 (lane 32 j (rescale params vq))
  = signed 32 (Z.shiftr (signed 32 (lane 32 j vq)) (lane 64 0 (shift params))
               + (if signed 32 (lane 32 j (remainder params vq))
                     >? signed 32 (lane 32 (j mod 4) (remainder_threshold params))
                  then 1 else 0)).
Proof.
  intros Hj. apply signed_eq_mod. unfold rescale.
  cbv zeta.
  rewrite lane32_sub, lane32_sra, lane32_cmpgt, lane32_broadcast by lia.
  rewrite Zminus_mod_idemp_l, Z.mod_mod by lia.
  destruct (_ >? _).
  - match goal with |- (?l - _) mod _ = _ =>
      replace (l - (2 ^ 32 - 1)) with (l + 1 + (-1) * 2 ^ 32) by ring end.
    apply Z_mod_plus_full.
  - f_equal; ring.
Qed.

Lemma lane_bcast w n x k :
  0 <= w -> 0 <= k < Z.of_nat n -> lane w k (pack w n (fun _ => x)) = x mod 2 ^ w.
Proof. intros. rewrite lane_pack by lia. reflexivity. Qed.


Lemma signed_wrap_small w x :
  0 < w -> - 2 ^ (w - 1) <= x < 2 ^ (w - 1) -> signed w (x mod 2 ^ w) = x.
Proof. intros. rewrite signed_mod. apply signed_small; assumption. Qed.

Lemma signed_sat w x : 0 < w -> signed w (sat w x mod 2 ^ w) = sat w x.
Proof. intros. apply signed_wrap_small; [assumption | apply sat_range; assumption]. Qed.

Lemma lane16_packs_epi32 vacc j :
  0 <= j < 8 ->
  signed 16 (lane 16 j (_mm_packs_epi32 (_mm256_castsi256_si128 vacc)
                                        (_mm256_extracti128_si256 vacc 1)))
  = sat 16 (signed 32 (lane 32 j vacc)).
Proof.
  intros Hj. unfold _mm_packs_epi32, _mm256_castsi256_si128, _mm256_extracti128_si256.
  rewrite lane_pack by lia. cbv beta.
  change 128 with (32 * 4).
  destruct (Z.ltb_spec j 4).
  - rewrite lane_lane by lia. rewrite signed_sat by lia.
    replace (4 * 0 + j) with j by lia. reflexivity.
  - rewrite lane_lane by lia. rewrite signed_sat by lia.
    replace (4 * 1 + (j - 4)) with j by lia. reflexivity.
Qed.

(** Lines 165-166, lane [j]. *)
Lemma add_zero_point_lane params vacc j :
  0 <= j < 8 ->
  signed 16 (lane 16 j (add_zero_point params vacc))
  = sat 16 (sat 16 (signed 32 (lane 32 j vacc))
            + signed 16 (lane 16 j (output_zero_point params))).
Proof.
  intros Hj. unfold add_zero_point, _mm_adds_epi16. cbv zeta.
  rewrite lane_pack by lia. cbv beta.
  rewrite signed_sat by lia.
  rewrite lane16_packs_epi32 by lia. reflexivity.
Qed.

(** Lines 168-172, lane [j]. *)
Lemma clamp_narrow_lane params v j :
  0 <= j < 8 ->
  signed 8 (lane 8 j (clamp_narrow params v))
  = sat 8 (Z.min (Z.max (signed 16 (lane 16 j v))
                        (signed 16 (lane 16 j (output_min params))))
                 (signed 16 (lane 16 j (output_max params)))).
Proof.
  intros Hj. unfold clamp_narrow, _mm_packs_epi16, _mm_min_epi16, _mm_max_epi16.
  cbv zeta.
  rewrite lane_pack by lia. cbv beta.
  replace (j <? 8) with true by (symmetry; apply Z.ltb_lt; lia).
  rewrite signed_sat by lia.
  rewrite lane_pack by lia. cbv beta.
  rewrite lane_pack by lia. cbv beta.
  pose proof (signed_range 16 (lane 16 j v) ltac:(lia)).
  pose proof (signed_range 16 (lane 16 j (output_min params)) ltac:(lia)).
  pose proof (signed_range 16 (lane 16 j (output_max params)) ltac:(lia)).
  rewrite (signed_wrap_small 16 (Z.max _ _)) by lia.
  rewrite (signed_wrap_small 16 (Z.min _ _)) by lia.
  reflexivity.
Qed.

(** Lines 142-172, lane [j]: the byte that is stored for channel [j]. *)
Lemma requantize_lane params vacc j :
  0 <= j < 8 ->
  signed 8 (lane 8 j (requantize params vacc))
  = sat 8 (Z.min (Z.max (sat 16 (sat 16 (signed 32 (lane 32 j (rescale params
                                           (q31_multiply params vacc))))
                                 + signed 16 (lane 16 j (output_zero_point params))))
                        (signed 16 (lane 16 j (output_min params))))
                 (signed 16 (lane 16 j (output_max params)))).
Proof.
  intros Hj. unfold requantize.
  rewrite clamp_narrow_lane, add_zero_point_lane by lia. reflexivity.
Qed.

End RequantFacts.

(** ** Loops *)

Module MemFacts.
Import Bits BitsFacts Mem.

Lemma size_sub_small n k : 0 <= k <= n -> n < 2 ^ 64 -> size_sub n k = n - k.
Proof. intros. unfold size_sub. apply Z.mod_small. lia. Qed.

Lemma size_add_range a b : 0 <= size_add a b < 2 ^ 64.
Proof. unfold size_add. apply Z.mod_pos_bound. lia. Qed.

Lemma size_add_small a b : 0 <= a + b < 2 ^ 64 -> size_add a b = a + b.
Proof. intros. unfold size_add. apply Z.mod_small. assumption. Qed.

Lemma size_add_add a b c : size_add (size_add a b) c = size_add a (b + c).
Proof.
  unfold size_add. rewrite Zplus_mod_idemp_l. f_equal. ring.
Qed.

Lemma size_add_mod_r a b : size_add a (b mod 2 ^ 64) = size_add a b.
Proof. unfold size_add. apply Zplus_mod_idemp_r. Qed.

Lemma size_add_mod_l a b : size_add (a mod 2 ^ 64) b = size_add a b.
Proof. unfold size_add. apply Zplus_mod_idemp_l. Qed.

Lemma bind_run {A B : Type} (m : M A) (f : A -> M B) s a s' :
  m s = Some (a, s') -> bind m f s = f a s'.
Proof. intros H. unfold bind. rewrite H. reflexivity. Qed.

Section Loops.
Context {A : Type}.
Variable Inv : nat -> A -> state -> Prop.
Variable body : A -> M A.
Variable N : nat.
Hypothesis step : forall t a s, (t < N)%nat -> Inv t a s ->
  exists a' s', body a s = Some (a', s') /\ Inv (S t) a' s'.

(** [for (; n >= k; n -= k)] runs [n / k] times and leaves [n mod k]. *)
Lemma for_ge_inv k c : 0 < k -> 0 <= c < k ->
  forall fuel t n a s,
    (t <= N)%nat -> n = k * Z.of_nat (N - t) + c -> n < 2 ^ 64 ->
    (N - t <= fuel)%nat -> Inv t a s ->
    exists a' s', for_ge fuel k body n a s = Some ((c, a'), s') /\ Inv N a' s'.
Proof.
  intros Hk Hc. induction fuel as [|fuel IH]; intros t n a s Ht Hn Hlt Hf HI.
  - assert (t = N) by lia. subst t.
    replace (N - N)%nat with 0%nat in Hn by lia.
    cbn [for_ge]. replace (n >=? k) with false
      by (symmetry; rewrite Z.geb_leb; apply Z.leb_gt; lia).
    exists a, s. split; [unfold ret; repeat f_equal; lia | assumption].
  - cbn [for_ge]. destruct (Nat.eq_dec t N) as [->|Hne].
    + replace (N - N)%nat with 0%nat in Hn by lia.
      replace (n >=? k) with false
        by (symmetry; rewrite Z.geb_leb; apply Z.leb_gt; lia).
      exists a, s. split; [unfold ret; repeat f_equal; lia | assumption].
    + replace (n >=? k) with true
        by (symmetry; rewrite Z.geb_leb; apply Z.leb_le; nia).
      destruct (step t a s ltac:(lia) HI) as (a' & s' & Hb & HI').
      rewrite (bind_run _ _ _ _ _ Hb).
      assert (Hn' : n = k * Z.of_nat (N - S t) + c + k).
      { replace (N - t)%nat with (S (N - S t)) in Hn by lia.
        rewrite Nat2Z.inj_succ in Hn. lia. }
      rewrite size_sub_small by nia.
      apply (IH (S t)); [lia | lia | lia | lia | assumption].
Qed.

(** [do ... while (--n != 0)] runs [n] times when [0 < n]. *)
Lemma do_while_inv :
  forall fuel t n a s,
    (t < N)%nat -> n = Z.of_nat (N - t) -> n < 2 ^ 64 ->
    (N - t <= fuel)%nat -> Inv t a s ->
    exists a' s', do_while fuel body n a s = Some (a', s') /\ Inv N a' s'.
Proof.
  induction fuel as [|fuel IH]; intros t n a s Ht Hn Hlt Hf HI; [lia|].
  cbn [do_while].
  destruct (step t a s Ht HI) as (a' & s' & Hb & HI').
  rewrite (bind_run _ _ _ _ _ Hb). cbv zeta.
  rewrite size_sub_small by lia.
  destruct (Nat.eq_dec (S t) N) as [He|Hne].
  - replace (n - 1 =? 0) with true by (symmetry; apply Z.eqb_eq; lia).
    cbn [negb]. exists a', s'. rewrite <- He. split; [reflexivity | assumption].
  - replace (n - 1 =? 0) with false by (symmetry; apply Z.eqb_neq; lia).
    cbn [negb]. apply (IH (S t)); try lia; assumption.
Qed.

(** [for (; n != 0; n--)] runs [n] times. *)
Lemma for_nz_inv :
  forall fuel t n a s,
    (t <= N)%nat -> n = Z.of_nat (N - t) -> n < 2 ^ 64 ->
    (N - t <= fuel)%nat -> Inv t a s ->
    exists a' s', for_nz fuel body n a s = Some (a', s') /\ Inv N a' s'.
Proof.
  induction fuel as [|fuel IH]; intros t n a s Ht Hn Hlt Hf HI.
  - assert (t = N) by lia. subst t.
    replace (N - N)%nat with 0%nat in Hn by lia. cbn in Hn. subst n.
    cbn. exists a, s. split; [reflexivity | assumption].
  - cbn [for_nz]. destruct (Nat.eq_dec t N) as [->|Hne].
    + replace (N - N)%nat with 0%nat in Hn by lia. cbn in Hn. subst n.
      cbn. exists a, s. split; [reflexivity | assumption].
    + replace (n =? 0) with false by (symmetry; apply Z.eqb_neq; lia).
      cbn [negb].
      destruct (step t a s ltac:(lia) HI) as (a' & s' & Hb & HI').
      rewrite (bind_run _ _ _ _ _ Hb).
      rewrite size_sub_small by lia.
      apply (IH (S t)); try lia; assumption.
Qed.
End Loops.

End MemFacts.

(** ** The depthwise kernel, part by part *)

Module DWConvFacts.
Import Bits BitsFacts Intrin IntrinFacts Requant RequantFacts Mem MemFacts DWConv DWConvTrace.

Lemma log_add_nil s : log_add s [] = s.
Proof. destruct s. unfold log_add. cbn. rewrite app_nil_r. reflexivity. Qed.

Lemma log_add_add s l1 l2 : log_add (log_add s l1) l2 = log_add s (l1 ++ l2).
Proof. unfold log_add. cbn. rewrite app_assoc. reflexivity. Qed.

Lemma load_run n a s : load n a s = Some (bytes_at (bytes s) n a, log_add s [Load a n]).
Proof. reflexivity. Qed.

Lemma tap_run w k ik vacc s :
  tap w k ik vacc s
  = Some (tap_value (bytes s) w k ik vacc,
          log_add s [Load ik 8; Load (size_add w (8 * 4 + 8 * k * 1)) 8]).
Proof.
  unfold tap, _mm_loadl_epi64, bind. rewrite !load_run.
  cbn [bytes log_add]. unfold ret. rewrite log_add_add. reflexivity.
Qed.

Lemma taps_run i : forall w k vacc s,
  taps w k i vacc s
  = Some (taps_value (bytes s) w k i vacc, log_add s (taps_events w k i)).
Proof.
  induction i as [|ik i IH]; intros w k vacc s.
  - cbn. rewrite log_add_nil. reflexivity.
  - cbn [taps taps_value taps_events]. unfold bind. rewrite tap_run.
    rewrite IH. cbn [bytes log_add]. rewrite log_add_add. reflexivity.
Qed.

Lemma accumulate_run w i s :
  accumulate w i s = Some (acc_value (bytes s) w i, log_add s (acc_events w i)).
Proof.
  unfold accumulate, _mm256_loadu_si256, bind. rewrite load_run, taps_run.
  cbn [bytes log_add]. rewrite log_add_add. reflexivity.
Qed.


Lemma store_run n a v s :
  store n a v s
  = Some (tt, {| bytes := store_bytes (bytes s) n a v; log := log s ++ [Store a n v] |}).
Proof. reflexivity. Qed.

Lemma full_tile_run params l s :
  full_tile params l s = Some (next_tile l, full_tile_state params l s).
Proof.
  unfold full_tile, bind. rewrite accumulate_run.
  unfold _mm_storel_epi64. rewrite store_run. unfold ret.
  unfold next_tile, full_tile_state. cbn [bytes log log_add].
  rewrite <- app_assoc. reflexivity.
Qed.

Lemma lane_shiftr w i q x :
  0 <= w -> 0 <= i -> 0 <= q -> lane w i (Z.shiftr x (w * q)) = lane w (i + q) x.
Proof.
  intros Hw Hi Hq. unfold lane. rewrite Z.shiftr_shiftr by nia.
  f_equal. f_equal. ring.
Qed.

Lemma lane16_srli64 v : lane 16 0 (_mm_srli_epi64 v 32) = lane 16 2 v.
Proof.
  unfold _mm_srli_epi64. change 64 with (16 * 4) at 1.
  rewrite (lane_pack_wide 16 4 2 _ 0 0) by lia. cbv beta.
  change (32 >? 63) with false. cbv iota.
  change 32 with (16 * 2). rewrite lane_shiftr by lia.
  change 64 with (16 * 4). rewrite lane_lane by lia. reflexivity.
Qed.

Lemma lane8_srli64 v t : 0 <= t < 4 -> lane 8 t (_mm_srli_epi64 v 32) = lane 8 (t + 4) v.
Proof.
  intros Ht. unfold _mm_srli_epi64. change 64 with (8 * 8) at 1.
  rewrite (lane_pack_wide 8 8 2 _ 0 t) by lia. cbv beta.
  change (32 >? 63) with false. cbv iota.
  change 32 with (8 * 4). rewrite lane_shiftr by lia.
  change 64 with (8 * 8). rewrite lane_lane by lia. f_equal.
Qed.

Lemma lane8_srli32 v : lane 8 0 (_mm_srli_epi32 v 16) = lane 8 2 v.
Proof.
  unfold _mm_srli_epi32. change 32 with (8 * 4) at 1.
  rewrite (lane_pack_wide 8 4 4 _ 0 0) by lia. cbv beta.
  change (16 >? 31) with false. cbv iota.
  change 16 with (8 * 2). rewrite lane_shiftr by lia.
  change 32 with (8 * 4). rewrite lane_lane by lia. reflexivity.
Qed.

Ltac eval_tail_conditions :=
  repeat match goal with
  | |- context [negb (Z.land ?c ?k =? 0)] =>
      let b := eval vm_compute in (negb (Z.land c k =? 0)) in
      change (negb (Z.land c k =? 0)) with b
  | |- context [tail_segments ?c] =>
      let l := eval vm_compute in (tail_segments c) in
      change (tail_segments c) with l
  end.

Ltac eval_seg_values :=
  unfold seg_value;
  repeat match goal with
  | |- context [lane (8 * Z.of_nat ?n) (?o / Z.of_nat ?n) ?v] =>
      let w := eval vm_compute in (8 * Z.of_nat n) in
      let i := eval vm_compute in (o / Z.of_nat n) in
      change (lane (8 * Z.of_nat n) (o / Z.of_nat n) v) with (lane w i v)
  end.

Lemma store_tail_run c vout output s :
  0 < c < 8 -> 0 <= output < 2 ^ 64 ->
  store_tail c vout output s
  = Some (size_add output c, store_segments vout output (tail_segments c) s).
Proof.
  intros Hc Ho.
  assert (H : c = 1 \/ c = 2 \/ c = 3 \/ c = 4 \/ c = 5 \/ c = 6 \/ c = 7) by lia.
  assert (H0 : size_add output 0 = output)
    by (rewrite size_add_small by lia; lia).
  unfold store_tail.
  destruct H as [->|[->|[->|[->|[->|[-> | ->]]]]]];
    eval_tail_conditions; cbv beta iota;
    cbn [store_segments fold_left]; eval_seg_values;
    unfold bind, ret; rewrite ?store_run; cbv beta iota; cbn [bytes log];
    unfold _mm_cvtsi128_si32, _mm_extract_epi16, _mm_extract_epi8;
    rewrite ?size_add_add;
    rewrite ?lane8_srli32, ?lane16_srli64, ?lane8_srli64 by lia;
    cbn [Z.add Pos.add]; rewrite H0; reflexivity.
Qed.


Lemma tail_tile_run params c l s :
  0 < c < 8 -> 0 <= output l < 2 ^ 64 ->
  tail_tile params c l s
  = Some ({| i := map (fun ik => size_add ik 8) (i l);
             w := size_add (w l) 32;
             output := size_add (output l) c |},
          tail_tile_state params c l s).
Proof.
  intros Hc Ho. unfold tail_tile, bind. rewrite accumulate_run.
  rewrite store_tail_run by assumption. reflexivity.
Qed.

(** *** Shapes of logs *)

Lemma load_shapes_app l1 l2 : load_shapes (l1 ++ l2) = load_shapes l1 ++ load_shapes l2.
Proof. unfold load_shapes. apply flat_map_app. Qed.

Lemma store_shapes_app l1 l2 : store_shapes (l1 ++ l2) = store_shapes l1 ++ store_shapes l2.
Proof. unfold store_shapes. apply flat_map_app. Qed.

Lemma store_shapes_taps i : forall w k, store_shapes (taps_events w k i) = [].
Proof. induction i as [|ik i IH]; intros w k; [reflexivity|]. cbn. apply IH. Qed.

Lemma store_shapes_acc w i : store_shapes (acc_events w i) = [].
Proof. unfold acc_events. cbn. apply store_shapes_taps. Qed.

Lemma store_segments_log v output segs : forall s,
  log (store_segments v output segs s)
  = log s ++ map (fun '(off, n) => Store (size_add output off) n (seg_value v off n)) segs.
Proof.
  induction segs as [|[off n] segs IH]; intros s.
  - cbn. rewrite app_nil_r. reflexivity.
  - cbn [store_segments fold_left map]. unfold store_segments in IH. rewrite IH.
    cbn [log]. rewrite <- app_assoc. reflexivity.
Qed.

Lemma store_shapes_segments v output segs :
  store_shapes (map (fun '(off, n) => Store (size_add output off) n (seg_value v off n)) segs)
  = map (fun '(off, n) => (size_add output off, n)) segs.
Proof.
  induction segs as [|[off n] segs IH]; [reflexivity|]. cbn. f_equal. exact IH.
Qed.

Lemma load_shapes_segments v output segs :
  load_shapes (map (fun '(off, n) => Store (size_add output off) n (seg_value v off n)) segs)
  = [].
Proof.
  induction segs as [|[off n] segs IH]; [reflexivity|]. cbn. exact IH.
Qed.

Lemma full_tile_loads params l s :
  load_shapes (log (full_tile_state params l s))
  = load_shapes (log s) ++ load_shapes (acc_events (w l) (i l)).
Proof.
  unfold full_tile_state. cbn [log]. rewrite !load_shapes_app. cbn.
  rewrite app_nil_r. reflexivity.
Qed.

Lemma full_tile_stores params l s :
  store_shapes (log (full_tile_state params l s))
  = store_shapes (log s) ++ [(output l, 8%nat)].
Proof.
  unfold full_tile_state. cbn [log]. rewrite !store_shapes_app.
  rewrite store_shapes_acc. reflexivity.
Qed.

Lemma tail_tile_loads params c l s :
  load_shapes (log (tail_tile_state params c l s))
  = load_shapes (log s) ++ load_shapes (acc_events (w l) (i l)).
Proof.
  unfold tail_tile_state. rewrite store_segments_log. cbn [log log_add].
  rewrite !load_shapes_app, load_shapes_segments, app_nil_r. reflexivity.
Qed.

Lemma tail_tile_stores params c l s :
  store_shapes (log (tail_tile_state params c l s))
  = store_shapes (log s)
    ++ map (fun '(off, n) => (size_add (output l) off, n)) (tail_segments c).
Proof.
  unfold tail_tile_state. rewrite store_segments_log. cbn [log log_add].
  rewrite !store_shapes_app, store_shapes_acc, store_shapes_segments, app_nil_r.
  reflexivity.
Qed.

(** *** The tap pointers of a pixel *)

Lemma load_tap_pointers_run input zero off n : forall k s,
  load_tap_pointers input zero off k n s
  = Some (map (fun q => resolve zero off
                          (bytes_at (bytes s) 8 (size_add input (8 * (k + Z.of_nat q)))))
              (seq 0 n),
          log_add s (map (fun q => Load (size_add input (8 * (k + Z.of_nat q))) 8)
                         (seq 0 n))).
Proof.
  induction n as [|n IH]; intros k s.
  - cbn. rewrite log_add_nil. reflexivity.
  - cbn [load_tap_pointers]. unfold bind at 1. unfold load_tap_pointer, bind at 1.
    rewrite load_run. unfold ret at 1. unfold bind at 1. rewrite IH.
    unfold ret. cbn [bytes log_add]. rewrite log_add_add.
    cbn [seq]. rewrite <- seq_shift. cbn [map app]. rewrite !map_map.
    replace (k + Z.of_nat 0) with k by lia.
    f_equal. f_equal.
    + f_equal. apply map_ext. intros q. rewrite Nat2Z.inj_succ.
      replace (k + 1 + Z.of_nat q) with (k + Z.succ (Z.of_nat q)) by lia. reflexivity.
    + f_equal. f_equal. apply map_ext. intros q. rewrite Nat2Z.inj_succ.
      replace (k + 1 + Z.of_nat q) with (k + Z.succ (Z.of_nat q)) by lia. reflexivity.
Qed.

Lemma tap_pointers_run input zero off s :
  load_tap_pointers input zero off 0 9 s
  = Some (tap_pointers (bytes s) input zero off,
          log_add s (map (fun k => Load (size_add input (8 * Z.of_nat k)) 8) (seq 0 9))).
Proof. rewrite load_tap_pointers_run. reflexivity. Qed.

Lemma bytes_at_range mem n a : 0 <= bytes_at mem n a < 2 ^ (8 * Z.of_nat n).
Proof. unfold bytes_at. apply pack_range. lia. Qed.

Lemma resolve_range zero off e : 0 <= e < 2 ^ 64 -> 0 <= resolve zero off e < 2 ^ 64.
Proof.
  intros He. unfold resolve. destruct (negb (e =? zero)); [apply size_add_range | exact He].
Qed.

Lemma tap_pointers_range mem input zero off :
  Forall (fun ik => 0 <= ik < 2 ^ 64) (tap_pointers mem input zero off).
Proof.
  unfold tap_pointers. apply Forall_map. apply Forall_forall. intros k _.
  apply resolve_range. apply (bytes_at_range mem 8).
Qed.


(** *** The tiles of a pixel *)

Lemma tile_locals_succ i0 weights output0 t :
  next_tile (tile_locals i0 weights output0 t) = tile_locals i0 weights output0 (S t).
Proof.
  unfold next_tile, tile_locals. cbn [i w output].
  rewrite map_map, !size_add_add, Nat2Z.inj_succ.
  f_equal.
  - apply map_ext. intros ik. rewrite size_add_add. f_equal. lia.
  - f_equal. lia.
  - f_equal. lia.
Qed.

Lemma size_add_0 a : 0 <= a < 2 ^ 64 -> size_add a 0 = a.
Proof. intros. rewrite size_add_small by lia. lia. Qed.

Lemma tile_locals_0 i0 weights output0 :
  Forall (fun ik => 0 <= ik < 2 ^ 64) i0 ->
  0 <= weights < 2 ^ 64 -> 0 <= output0 < 2 ^ 64 ->
  tile_locals i0 weights output0 0 = {| i := i0; w := weights; output := output0 |}.
Proof.
  intros Hi Hw Ho. unfold tile_locals. cbn [Z.of_nat Z.mul].
  rewrite !size_add_0 by assumption. f_equal.
  induction Hi as [|ik i0 Hik Hi IH]; [reflexivity|].
  cbn [map]. rewrite size_add_0 by assumption. f_equal. exact IH.
Qed.

Lemma full_tiles_run params i0 weights output0 (N : nat) c fuel s :
  0 <= c < 8 -> 8 * Z.of_nat N + c < 2 ^ 64 -> (N <= fuel)%nat ->
  Forall (fun ik => 0 <= ik < 2 ^ 64) i0 ->
  0 <= weights < 2 ^ 64 -> 0 <= output0 < 2 ^ 64 ->
  exists s',
    for_ge fuel 8 (full_tile params) (8 * Z.of_nat N + c)
           {| i := i0; w := weights; output := output0 |} s
    = Some ((c, tile_locals i0 weights output0 N), s')
    /\ load_shapes (log s')
       = load_shapes (log s) ++ flat_map (tile_loads weights i0) (seq 0 N)
    /\ store_shapes (log s')
       = store_shapes (log s)
         ++ map (fun t => (size_add output0 (8 * Z.of_nat t), 8%nat)) (seq 0 N).
Proof.
  intros Hc Hn Hf Hi Hw Ho.
  set (Inv := fun (t : nat) (l : locals) (s' : state) =>
    l = tile_locals i0 weights output0 t
    /\ load_shapes (log s')
       = load_shapes (log s) ++ flat_map (tile_loads weights i0) (seq 0 t)
    /\ store_shapes (log s')
       = store_shapes (log s)
         ++ map (fun t => (size_add output0 (8 * Z.of_nat t), 8%nat)) (seq 0 t)).
  assert (step : forall t l s1, (t < N)%nat -> Inv t l s1 ->
            exists l' s', full_tile params l s1 = Some (l', s') /\ Inv (S t) l' s').
  { intros t l s1 Ht (Hl & Hloads & Hstores). subst l.
    exists (next_tile (tile_locals i0 weights output0 t)),
           (full_tile_state params (tile_locals i0 weights output0 t) s1).
    split; [apply full_tile_run|]. split; [apply tile_locals_succ|]. split.
    - rewrite full_tile_loads, Hloads, seq_S, flat_map_app, <- app_assoc.
      cbn [flat_map]. rewrite app_nil_r. reflexivity.
    - rewrite full_tile_stores, Hstores, seq_S, map_app, <- app_assoc. reflexivity. }
  assert (init : Inv 0%nat {| i := i0; w := weights; output := output0 |} s).
  { unfold Inv. cbn [seq flat_map map]. rewrite !app_nil_r.
    split; [symmetry; apply tile_locals_0; assumption|]. split; reflexivity. }
  destruct (for_ge_inv Inv (full_tile params) N step 8 c ltac:(lia) Hc fuel 0%nat
              (8 * Z.of_nat N + c) {| i := i0; w := weights; output := output0 |} s
              ltac:(lia) ltac:(f_equal; f_equal; lia) Hn ltac:(lia) init)
    as (l' & s' & Hrun & Hl & Hloads & Hstores).
  exists s'. subst l'. repeat split; assumption.
Qed.


(** *** One output pixel *)

Lemma tile_count channels :
  0 < channels ->
  let N := Z.to_nat (channels / 8) in
  let c := channels mod 8 in
  channels = 8 * Z.of_nat N + c /\ 0 <= c < 8
  /\ Z.to_nat ((channels + 7) / 8) = (if c =? 0 then N else S N).
Proof.
  intros Hch N c.
  pose proof (Z.div_mod channels 8 ltac:(lia)) as Hd.
  pose proof (Z.mod_pos_bound channels 8 ltac:(lia)) as Hm.
  assert (H0 : 0 <= channels / 8) by (apply Z.div_pos; lia).
  unfold N. rewrite Z2Nat.id by assumption. fold c in Hd, Hm.
  split; [exact Hd|]. split; [exact Hm|].
  destruct (Z.eqb_spec c 0) as [Hc|Hc].
  - f_equal. symmetry. apply Z.div_unique with (r := 7); lia.
  - rewrite <- Z2Nat.inj_succ by assumption. f_equal.
    symmetry. apply Z.div_unique with (r := c - 1); lia.
Qed.

Lemma pixel_run a input output s :
  0 < channels a < 2 ^ 64 -> 0 <= weights a < 2 ^ 64 -> 0 <= output < 2 ^ 64 ->
  exists s',
    pixel a (input, output) s
    = Some ((size_add input (input_stride a),
             size_add output (channels a + output_increment a)), s')
    /\ load_shapes (log s')
       = load_shapes (log s)
         ++ pixel_loads (channels a) (weights a) input
              (tap_pointers (bytes s) input (zero a) (input_offset a))
    /\ store_shapes (log s') = store_shapes (log s) ++ pixel_stores (channels a) output.
Proof.
  intros Hch Hw Ho.
  destruct (tile_count (channels a) ltac:(lia)) as (Hsplit & Hc & Htiles).
  set (N := Z.to_nat (channels a / 8)) in *. set (c := channels a mod 8) in *.
  set (i0 := tap_pointers (bytes s) input (zero a) (input_offset a)).
  set (entries := map (fun k => Load (size_add input (8 * Z.of_nat k)) 8) (seq 0 9)).
  destruct (full_tiles_run (params a) i0 (weights a) output N c (Z.to_nat (channels a))
              (log_add s entries) Hc ltac:(lia) ltac:(lia)
              (tap_pointers_range _ _ _ _) Hw Ho)
    as (s1 & Hloop & Hloads & Hstores).
  assert (Hent : load_shapes entries
                 = map (fun k => (size_add input (8 * Z.of_nat k), 8%nat)) (seq 0 9))
    by reflexivity.
  assert (Hent' : store_shapes entries = []) by reflexivity.
  cbn [log log_add] in Hloads, Hstores.
  rewrite load_shapes_app in Hloads. rewrite store_shapes_app, Hent', app_nil_r in Hstores.
  unfold pixel. rewrite (bind_run _ _ _ _ _ (tap_pointers_run _ _ _ _)).
  fold i0 entries. cbv zeta. rewrite <- Hsplit in Hloop.
  rewrite (bind_run _ _ _ _ _ Hloop).
  unfold pixel_loads, pixel_stores. fold N c. rewrite Htiles.
  destruct (Z.eqb_spec c 0) as [Hc0|Hc0]; cbn [negb]; cbv iota.
  - exists s1. unfold bind, ret. cbn [DWConv.output tile_locals].
    split; [|split].
    + rewrite size_add_add.
      replace (8 * Z.of_nat N + output_increment a)
        with (channels a + output_increment a) by lia.
      reflexivity.
    + rewrite Hloads, Hent, <- app_assoc. reflexivity.
    + rewrite Hstores, Hc0. cbn [tail_segments Z.testbit app map]. rewrite app_nil_r.
      reflexivity.
  - assert (Hout : 0 <= DWConv.output (tile_locals i0 (weights a) output N) < 2 ^ 64)
      by (cbn [DWConv.output tile_locals]; apply size_add_range).
    rewrite (bind_run _ _ _ _ _ (tail_tile_run (params a) c _ s1 ltac:(lia) Hout)).
    exists (tail_tile_state (params a) c (tile_locals i0 (weights a) output N) s1).
    unfold ret. cbn [DWConv.output tile_locals].
    split; [|split].
    + rewrite !size_add_add.
      replace (8 * Z.of_nat N + (c + output_increment a))
        with (channels a + output_increment a) by lia.
      reflexivity.
    + rewrite tail_tile_loads, Hloads, Hent, (seq_S N), flat_map_app, <- !app_assoc.
      cbn [flat_map tile_locals w i]. rewrite app_nil_r. reflexivity.
    + rewrite tail_tile_stores, Hstores, <- app_assoc. cbn [DWConv.output tile_locals].
      f_equal. f_equal. apply map_ext. intros [off n]. rewrite size_add_add.
      unfold N. rewrite Z2Nat.id by (apply Z.div_pos; lia). reflexivity.
Qed.


(** *** All the pixels of a call *)

Lemma kernel_stores channels output_width input weights output input_stride
    output_increment input_offset zero params s :
  0 < channels < 2 ^ 64 -> 0 < output_width < 2 ^ 64 ->
  0 <= input < 2 ^ 64 -> 0 <= weights < 2 ^ 64 -> 0 <= output < 2 ^ 64 ->
  exists s',
    xnn_qs8_dwconv_minmax_ukernel_up8x9__avx2_mul32 channels output_width input weights
      output input_stride output_increment input_offset zero params s = Some (tt, s')
    /\ store_shapes (log s')
       = store_shapes (log s)
         ++ flat_map (fun p => pixel_stores channels
                                 (size_add output (Z.of_nat p * (channels + output_increment))))
                     (seq 0 (Z.to_nat output_width)).
Proof.
  intros Hch Hwd Hin Hw Hout.
  set (a := {| channels := channels; weights := weights; input_stride := input_stride;
               output_increment := output_increment; input_offset := input_offset;
               zero := zero; params := params |}).
  set (base := fun p : nat => size_add output (Z.of_nat p * (channels + output_increment))).
  set (Inv := fun (t : nat) (io : Z * Z) (s' : state) =>
    io = (size_add input (Z.of_nat t * input_stride), base t)
    /\ store_shapes (log s')
       = store_shapes (log s) ++ flat_map (fun p => pixel_stores channels (base p)) (seq 0 t)).
  assert (step : forall t io s1, (t < Z.to_nat output_width)%nat -> Inv t io s1 ->
            exists io' s', pixel a io s1 = Some (io', s') /\ Inv (S t) io' s').
  { intros t io s1 Ht (Hio & Hst). subst io.
    destruct (pixel_run a (size_add input (Z.of_nat t * input_stride)) (base t) s1)
      as (s2 & Hrun & _ & Hstores); try assumption.
    { unfold base. apply size_add_range. }
    eexists. exists s2. split; [exact Hrun|]. split.
    - unfold base. cbn [DWConv.input_stride DWConv.channels DWConv.output_increment a].
      rewrite !size_add_add, Nat2Z.inj_succ. f_equal; f_equal; lia.
    - rewrite Hstores, Hst, seq_S, flat_map_app, <- app_assoc. cbn [flat_map].
      rewrite app_nil_r. reflexivity. }
  assert (init : Inv 0%nat (input, output) s).
  { unfold Inv, base. cbn [seq flat_map Z.of_nat Z.mul]. rewrite app_nil_r.
    rewrite !size_add_0 by assumption. split; reflexivity. }
  destruct (do_while_inv Inv (pixel a) (Z.to_nat output_width) step
              (Z.to_nat output_width) 0%nat output_width (input, output) s
              ltac:(lia) ltac:(lia) ltac:(lia) ltac:(lia) init)
    as (io' & s' & Hrun & _ & Hst).
  exists s'. split; [|exact Hst].
  unfold xnn_qs8_dwconv_minmax_ukernel_up8x9__avx2_mul32. fold a.
  rewrite (bind_run _ _ _ _ _ Hrun). reflexivity.
Qed.


(** *** The accumulators, lane by lane *)

Lemma signed8_range x : -128 <= signed 8 x < 128.
Proof. pose proof (signed_range 8 x ltac:(lia)) as H. exact H. Qed.

Lemma lane8_bytes_at mem n a j :
  0 <= j < Z.of_nat n -> lane 8 j (bytes_at mem n a) = mem (a + j) mod 2 ^ 8.
Proof. intros. unfold bytes_at. rewrite lane_pack by lia. reflexivity. Qed.

Lemma signed32_cvtepi8 j a :
  0 <= j < 8 -> signed 32 (lane 32 j (_mm256_cvtepi8_epi32 a)) = signed 8 (lane 8 j a).
Proof.
  intros Hj. rewrite lane32_cvtepi8 by assumption.
  pose proof (signed8_range (lane 8 j a)).
  apply signed_wrap_small; [lia|]. change (2 ^ (32 - 1)) with (2 ^ 31). lia.
Qed.

Lemma tap_value_lane mem w k ik vacc j :
  0 <= j < 8 ->
  lane 32 j (tap_value mem w k ik vacc)
  = (lane 32 j vacc + tap_term mem w k ik j) mod 2 ^ 32.
Proof.
  intros Hj. unfold tap_value, tap_term.
  rewrite lane32_add, lane32_mullo, !signed32_cvtepi8 by assumption.
  rewrite !lane8_bytes_at by lia. rewrite !signed_mod.
  rewrite Zplus_mod_idemp_r. reflexivity.
Qed.

Lemma taps_value_lane mem w j i : forall k vacc,
  0 <= j < 8 ->
  lane 32 j (taps_value mem w k i vacc)
  = (lane 32 j vacc + sum (tap_terms mem w k i j)) mod 2 ^ 32.
Proof.
  induction i as [|ik i IH]; intros k vacc Hj.
  - cbn. rewrite Z.add_0_r. symmetry. apply lane_fixed; lia.
  - cbn [taps_value tap_terms sum fold_right]. rewrite IH by assumption.
    rewrite tap_value_lane by assumption.
    rewrite Zplus_mod_idemp_l. f_equal. unfold sum. ring.
Qed.

Lemma acc_value_lane mem w i j :
  0 <= j < 8 ->
  lane 32 j (acc_value mem w i)
  = (lane 32 j (bytes_at mem 32 w) + sum (tap_terms mem w 0 i j)) mod 2 ^ 32.
Proof. intros. unfold acc_value. apply taps_value_lane. assumption. Qed.

Lemma sum_app l1 l2 : sum (l1 ++ l2) = sum l1 + sum l2.
Proof.
  induction l1 as [|x l1 IH]; [reflexivity|].
  cbn [app]. unfold sum in *. cbn [fold_right]. rewrite IH. ring.
Qed.

Lemma sum_drop_nth l : forall k x,
  nth_error l k = Some x -> sum l = x + sum (drop_nth k l).
Proof.
  induction l as [|y l IH]; intros [|k] x H; try discriminate.
  - cbn in H. injection H as ->. reflexivity.
  - cbn in H. change (drop_nth (S k) (y :: l)) with (y :: drop_nth k l).
    unfold sum in *. cbn [fold_right]. rewrite (IH k x H). ring.
Qed.

Lemma nth_error_tap_terms mem w j i : forall k0 k ik,
  nth_error i k = Some ik ->
  nth_error (tap_terms mem w k0 i j) k = Some (tap_term mem w (k0 + Z.of_nat k) ik j).
Proof.
  induction i as [|ik' i IH]; intros k0 [|k] ik H; try discriminate.
  - cbn in H. injection H as ->. cbn. rewrite Z.add_0_r. reflexivity.
  - cbn in H. cbn [tap_terms nth_error]. rewrite (IH (k0 + 1) k ik H).
    rewrite Nat2Z.inj_succ.
    replace (k0 + 1 + Z.of_nat k) with (k0 + Z.succ (Z.of_nat k)) by lia. reflexivity.
Qed.

(** *** The bytes left by the partial stores *)

Lemma seg_byte v off (n : nat) t :
  (0 < n)%nat -> 0 <= off -> off mod Z.of_nat n = 0 -> 0 <= t < Z.of_nat n ->
  lane 8 t (seg_value v off n) = lane 8 (off + t) v.
Proof.
  intros Hn Hoff Hmod Ht. unfold seg_value.
  rewrite lane_lane by (try apply Z.div_pos; lia).
  f_equal. pose proof (Z.div_mod off (Z.of_nat n) ltac:(lia)). lia.
Qed.

Lemma store_segments_bytes v output x segs : forall s,
  Forall (fun seg => (0 < snd seg)%nat /\ 0 <= fst seg
                     /\ fst seg mod Z.of_nat (snd seg) = 0
                     /\ 0 <= output + fst seg < 2 ^ 64) segs ->
  bytes (store_segments v output segs s) x
  = if existsb (covers output x) segs then lane 8 (x - output) v else bytes s x.
Proof.
  induction segs as [|[off n] segs IH]; intros s Hs; [reflexivity|].
  inversion Hs as [|? ? (Hn & Hoff & Hmod & Hr) Hs']; subst.
  cbn [fst snd] in *.
  cbn [store_segments fold_left existsb]. unfold store_segments in IH.
  rewrite IH by assumption. cbn [bytes].
  destruct (existsb (covers output x) segs); [rewrite orb_true_r; reflexivity|].
  rewrite orb_false_r. unfold store_bytes, covers. cbn [fst snd].
  rewrite size_add_small by assumption.
  destruct ((output + off <=? x) && (x <? output + off + Z.of_nat n)) eqn:E;
    [|reflexivity].
  apply andb_true_iff in E. destruct E as [E1 E2].
  apply Z.leb_le in E1. apply Z.ltb_lt in E2.
  rewrite seg_byte by lia. f_equal. lia.
Qed.

Lemma tail_segments_ok c output :
  0 < c < 8 -> 0 <= output -> output + 8 <= 2 ^ 64 ->
  Forall (fun seg => (0 < snd seg)%nat /\ 0 <= fst seg
                     /\ fst seg mod Z.of_nat (snd seg) = 0
                     /\ 0 <= output + fst seg < 2 ^ 64) (tail_segments c).
Proof.
  intros Hc Ho Ho'.
  assert (H : c = 1 \/ c = 2 \/ c = 3 \/ c = 4 \/ c = 5 \/ c = 6 \/ c = 7) by lia.
  destruct H as [->|[->|[->|[->|[->|[-> | ->]]]]]]; eval_tail_conditions;
    repeat constructor; cbn [fst snd]; try lia; reflexivity.
Qed.

Lemma tail_segments_cover c output x :
  0 < c < 8 ->
  existsb (covers output x) (tail_segments c) = (output <=? x) && (x <? output + c).
Proof.
  intros Hc.
  assert (H : c = 1 \/ c = 2 \/ c = 3 \/ c = 4 \/ c = 5 \/ c = 6 \/ c = 7) by lia.
  destruct H as [->|[->|[->|[->|[->|[-> | ->]]]]]]; eval_tail_conditions;
    unfold covers; cbn [existsb fst snd Z.of_nat Pos.of_succ_nat Pos.succ];
    repeat match goal with
    | |- context [?a <=? ?b] => destruct (Z.leb_spec a b)
    | |- context [?a <? ?b] => destruct (Z.ltb_spec a b)
    end; cbn [andb orb]; try reflexivity; lia.
Qed.


(** *** The bytes left by a full tile *)

Lemma full_tile_byte params l s j :
  0 <= j < 8 ->
  bytes (full_tile_state params l s) (output l + j)
  = lane 8 j (requantize params (acc_value (bytes s) (w l) (i l))).
Proof.
  intros Hj. unfold full_tile_state. cbn [bytes]. unfold store_bytes.
  replace ((output l <=? output l + j) && (output l + j <? output l + Z.of_nat 8))
    with true
    by (symmetry; apply andb_true_iff; split; [apply Z.leb_le | apply Z.ltb_lt]; lia).
  change 64 with (8 * 8). rewrite lane_lane by lia. f_equal. lia.
Qed.


(** *** The states between the pixels of a call *)

Lemma kernel_pixels channels output_width input weights output input_stride
    output_increment input_offset zero params s :
  0 < channels < 2 ^ 64 -> 0 < output_width < 2 ^ 64 ->
  0 <= input < 2 ^ 64 -> 0 <= weights < 2 ^ 64 -> 0 <= output < 2 ^ 64 ->
  let a := {| channels := channels; weights := weights; input_stride := input_stride;
              output_increment := output_increment; input_offset := input_offset;
              zero := zero; params := params |} in
  let io (p : nat) := (size_add input (Z.of_nat p * input_stride),
                       size_add output (Z.of_nat p * (channels + output_increment))) in
  exists st : nat -> state,
    st 0%nat = s
    /\ xnn_qs8_dwconv_minmax_ukernel_up8x9__avx2_mul32 channels output_width input weights
         output input_stride output_increment input_offset zero params s
       = Some (tt, st (Z.to_nat output_width))
    /\ forall p, (p < Z.to_nat output_width)%nat ->
         pixel a (io p) (st p) = Some (io (S p), st (S p)).
Proof.
  intros Hch Hwd Hin Hw Hout a io.
  set (Inv := fun (t : nat) (x : Z * Z) (s' : state) =>
    x = io t
    /\ exists st : nat -> state,
         st 0%nat = s /\ st t = s'
         /\ forall p, (p < t)%nat -> pixel a (io p) (st p) = Some (io (S p), st (S p))).
  assert (step : forall t x s1, (t < Z.to_nat output_width)%nat -> Inv t x s1 ->
            exists x' s', pixel a x s1 = Some (x', s') /\ Inv (S t) x' s').
  { intros t x s1 Ht (Hx & st & H0 & Hst & Hp). subst x.
    destruct (pixel_run a (fst (io t)) (snd (io t)) s1)
      as (s2 & Hrun & _); try assumption.
    { unfold io. cbn [snd]. apply size_add_range. }
    assert (Hnext : (size_add (fst (io t)) (DWConv.input_stride a),
                     size_add (snd (io t)) (DWConv.channels a + DWConv.output_increment a))
                    = io (S t)).
    { unfold io. cbn [fst snd DWConv.input_stride DWConv.channels DWConv.output_increment a].
      rewrite !size_add_add, Nat2Z.inj_succ. f_equal; f_equal; lia. }
    rewrite Hnext in Hrun.
    exists (io (S t)), s2. split; [exact Hrun|]. split; [reflexivity|].
    exists (fun p => if (p <=? t)%nat then st p else s2).
    split; [exact H0|]. split.
    - replace (S t <=? t)%nat with false by (symmetry; apply Nat.leb_gt; lia).
      reflexivity.
    - intros p Hlt. replace (p <=? t)%nat with true by (symmetry; apply Nat.leb_le; lia).
      destruct (Nat.eq_dec p t) as [->|Hne].
      + replace (S t <=? t)%nat with false by (symmetry; apply Nat.leb_gt; lia).
        rewrite Hst. exact Hrun.
      + replace (S p <=? t)%nat with true by (symmetry; apply Nat.leb_le; lia).
        apply Hp. lia. }
  assert (init : Inv 0%nat (input, output) s).
  { split.
    - unfold io. cbn [Z.of_nat Z.mul]. rewrite !size_add_0 by assumption. reflexivity.
    - exists (fun _ => s). split; [reflexivity|]. split; [reflexivity|]. intros p Hp. lia. }
  destruct (do_while_inv Inv (pixel a) (Z.to_nat output_width) step
              (Z.to_nat output_width) 0%nat output_width (input, output) s
              ltac:(lia) ltac:(lia) ltac:(lia) ltac:(lia) init)
    as (x' & s' & Hrun & _ & st & H0 & Hst & Hp).
  exists st. split; [exact H0|]. split; [|exact Hp].
  unfold xnn_qs8_dwconv_minmax_ukernel_up8x9__avx2_mul32. fold a.
  rewrite (bind_run _ _ _ _ _ Hrun), Hst. reflexivity.
Qed.

End DWConvFacts.

(** ** The depth-to-space kernel, loop by loop *)

Module DepthToSpaceFacts.
Import Bits BitsFacts Mem MemFacts DWConvTrace DWConvFacts DepthToSpace DepthToSpaceTrace.

Lemma copies_app l1 l2 s : copies (l1 ++ l2) s = copies l2 (copies l1 s).
Proof. apply fold_left_app. Qed.

Lemma list_prod_snoc {A B : Type} (l : list A) (x : A) (l' : list B) :
  list_prod (l ++ [x]) l' = list_prod l l' ++ map (pair x) l'.
Proof.
  induction l as [|y l IH]; cbn.
  - rewrite app_nil_r. reflexivity.
  - rewrite IH, app_assoc. reflexivity.
Qed.

Lemma copy_run {A : Type} i_c o_c s (next : A) :
  (v <- load 4 i_c ;; _ <- store 4 o_c v ;; ret next) s
  = Some (next, copy_state (i_c, o_c) s).
Proof.
  unfold bind. rewrite load_run, store_run. unfold ret, copy_state.
  cbn [bytes log log_add fst snd]. rewrite <- app_assoc. reflexivity.
Qed.

(** A [do ... while] loop whose body runs a list of copies from the pointers
    it carries and then moves both pointers by fixed increments. *)
Lemma level_run {T : Type} (body : Z * Z -> M (Z * Z)) (ts : list T)
    (mv : Z -> Z -> T -> Z * Z) (iinc oinc : Z) :
  (forall i o s, 0 <= i < 2 ^ 64 -> 0 <= o < 2 ^ 64 ->
     body (i, o) s
     = Some ((size_add i iinc, size_add o oinc), copies (map (mv i o) ts) s)) ->
  forall X i0 o0 s, 0 < X < 2 ^ 64 -> 0 <= i0 < 2 ^ 64 -> 0 <= o0 < 2 ^ 64 ->
    do_while (Z.to_nat X) body X (i0, o0) s
    = Some ((size_add i0 (X * iinc), size_add o0 (X * oinc)),
            copies (map (fun xt => mv (size_add i0 (Z.of_nat (fst xt) * iinc))
                                      (size_add o0 (Z.of_nat (fst xt) * oinc)) (snd xt))
                        (list_prod (seq 0 (Z.to_nat X)) ts)) s).
Proof.
  intros Hbody X i0 o0 s HX Hi Ho.
  set (F := fun xt : nat * T => mv (size_add i0 (Z.of_nat (fst xt) * iinc))
                                   (size_add o0 (Z.of_nat (fst xt) * oinc)) (snd xt)).
  set (Inv := fun (t : nat) (io : Z * Z) (s' : state) =>
    io = (size_add i0 (Z.of_nat t * iinc), size_add o0 (Z.of_nat t * oinc))
    /\ s' = copies (map F (list_prod (seq 0 t) ts)) s).
  assert (step : forall t io s1, (t < Z.to_nat X)%nat -> Inv t io s1 ->
            exists io' s', body io s1 = Some (io', s') /\ Inv (S t) io' s').
  { intros t io s1 Ht (Hio & Hs). subst io s1.
    eexists. eexists. split.
    - apply Hbody; apply size_add_range.
    - split.
      + rewrite !size_add_add, Nat2Z.inj_succ. f_equal; f_equal; lia.
      + rewrite seq_S, list_prod_snoc, map_app, copies_app, map_map. reflexivity. }
  assert (init : Inv 0%nat (i0, o0) s).
  { unfold Inv. cbn [seq list_prod map Z.of_nat Z.mul].
    rewrite !size_add_0 by assumption. split; reflexivity. }
  destruct (do_while_inv Inv body (Z.to_nat X) step (Z.to_nat X) 0%nat X (i0, o0) s
              ltac:(lia) ltac:(lia) ltac:(lia) ltac:(lia) init)
    as (io' & s' & Hrun & Hio & Hs).
  rewrite Hrun, Hio, Hs. rewrite Z2Nat.id by lia. reflexivity.
Qed.


Lemma copy_channels_run C B ics i_c o_c s :
  0 < C < 2 ^ 64 -> 0 <= i_c < 2 ^ 64 -> 0 <= o_c < 2 ^ 64 ->
  copy_channels C B ics i_c o_c s
  = Some (tt, copies (map (fun c => (size_add i_c (Z.of_nat c * c_input_increment B ics),
                                     size_add o_c (Z.of_nat c * c_output_increment)))
                          (seq 0 (Z.to_nat C))) s).
Proof.
  intros HC Hi Ho. unfold copy_channels.
  erewrite bind_run.
  2:{ apply (level_run _ [tt] (fun i o _ => (i, o))
               (c_input_increment B ics) c_output_increment); try assumption.
      intros i o s1 _ _. apply copy_run. }
  unfold ret. f_equal. f_equal. f_equal.
  induction (seq 0 (Z.to_nat C)) as [|c l IH]; [reflexivity|].
  cbn [list_prod map app fst snd]. f_equal. exact IH.
Qed.

Lemma size_mul_0 x : size_mul 0 x = 0.
Proof. reflexivity. Qed.

Lemma size_add_size_mul a k x : size_add a (size_mul k x) = size_add a (k * x).
Proof. unfold size_mul. apply size_add_mod_r. Qed.

(** The element copied for block column [bx] and channel [c], from the
    pointers the [ix] loop carries. *)
Lemma ix_body_run C B ics ows i_ix o_ix s :
  0 < C < 2 ^ 64 -> 0 < B < 2 ^ 64 -> 0 <= i_ix < 2 ^ 64 -> 0 <= o_ix < 2 ^ 64 ->
  ix_body C B ics ows (i_ix, o_ix) s
  = Some ((size_add i_ix ix_input_increment, size_add o_ix (ix_output_increment B ows)),
          copies (map (move_ix B ics ows i_ix o_ix)
                      (list_prod (seq 0 (Z.to_nat B)) (seq 0 (Z.to_nat C)))) s).
Proof.
  intros HC HB Hi Ho. unfold move_ix.
  set (bxin := bx_input_increment ics). set (bxout := bx_output_increment ows).
  set (ts := seq 0 (Z.to_nat C)).
  set (F := fun xt : nat * nat =>
    (size_add (size_add i_ix (Z.of_nat (fst xt) * bxin))
              (Z.of_nat (snd xt) * c_input_increment B ics),
     size_add (size_add o_ix (Z.of_nat (fst xt) * bxout))
              (Z.of_nat (snd xt) * c_output_increment))).
  set (N := Z.to_nat (B / 2)). set (r := B mod 2).
  pose proof (Z.div_mod B 2 ltac:(lia)) as Hd.
  pose proof (Z.mod_pos_bound B 2 ltac:(lia)) as Hr. fold r in Hd, Hr.
  assert (HN : Z.of_nat N = B / 2) by (unfold N; apply Z2Nat.id; apply Z.div_pos; lia).
  set (Inv := fun (t : nat) (io : Z * Z) (s' : state) =>
    io = (size_add i_ix (Z.of_nat (2 * t) * bxin), size_add o_ix (Z.of_nat (2 * t) * bxout))
    /\ s' = copies (map F (list_prod (seq 0 (2 * t)) ts)) s).
  assert (one : forall x s1,
            copy_channels C B ics (size_add i_ix (Z.of_nat x * bxin))
                          (size_add o_ix (Z.of_nat x * bxout)) s1
            = Some (tt, copies (map F (map (pair x) ts)) s1)).
  { intros x s1. rewrite copy_channels_run by (try apply size_add_range; assumption).
    rewrite map_map. reflexivity. }
  assert (step : forall t io s1, (t < N)%nat -> Inv t io s1 ->
            exists io' s', bx_pair C B ics ows io s1 = Some (io', s') /\ Inv (S t) io' s').
  { intros t io s1 Ht (Hio & Hs). subst io.
    unfold bx_pair. fold bxin bxout.
    rewrite !size_mul_0, !size_add_size_mul, !size_add_add.
    replace (Z.of_nat (2 * t) * bxin + 0) with (Z.of_nat (2 * t) * bxin) by lia.
    replace (Z.of_nat (2 * t) * bxout + 0) with (Z.of_nat (2 * t) * bxout) by lia.
    replace (Z.of_nat (2 * t) * bxin + 1 * bxin) with (Z.of_nat (S (2 * t)) * bxin) by lia.
    replace (Z.of_nat (2 * t) * bxout + 1 * bxout) with (Z.of_nat (S (2 * t)) * bxout) by lia.
    rewrite (bind_run _ _ _ _ _ (one _ _)).
    rewrite (bind_run _ _ _ _ _ (one _ _)).
    eexists. eexists. split; [reflexivity|]. split.
    - f_equal; f_equal; lia.
    - subst s1. rewrite <- !copies_app, <- !map_app.
      replace (2 * S t)%nat with (S (S (2 * t))) by lia.
      rewrite (seq_S (S (2 * t))), (seq_S (2 * t)), !list_prod_snoc, <- app_assoc.
      reflexivity. }
  assert (init : Inv 0%nat (i_ix, o_ix) s).
  { unfold Inv. cbn [Nat.mul seq list_prod map Z.of_nat Z.mul].
    rewrite !size_add_0 by assumption. split; reflexivity. }
  destruct (for_ge_inv Inv (bx_pair C B ics ows) N step 2 r ltac:(lia) Hr
              (Z.to_nat B) 0%nat B (i_ix, o_ix) s
              ltac:(lia) ltac:(lia) ltac:(lia) ltac:(lia) init)
    as (io' & s' & Hrun & Hio & Hs).
  unfold ix_body. rewrite (bind_run _ _ _ _ _ Hrun). subst io' s'.
  assert (Hr' : r = 0 \/ r = 1) by lia.
  destruct Hr' as [Hr0|Hr1].
  - rewrite Hr0. cbn [Z.to_nat for_nz Z.eqb negb]. unfold bind, ret.
    replace (Z.to_nat B) with (2 * N)%nat by lia. reflexivity.
  - rewrite Hr1. change (Z.to_nat 1) with 1%nat. cbn [for_nz].
    change (negb (1 =? 0)) with true. cbv iota.
    change (size_sub 1 1) with 0. change (negb (0 =? 0)) with false. cbv iota.
    unfold bx_single. fold bxin bxout.
    unfold bind. rewrite one. unfold ret.
    rewrite <- copies_app, <- map_app.
    replace (Z.to_nat B) with (S (2 * N)) by lia.
    rewrite (seq_S (2 * N)), list_prod_snoc. reflexivity.
Qed.


Lemma by_body_run C W B ics ohs ows i_by o_by s :
  0 < C < 2 ^ 64 -> 0 < W < 2 ^ 64 -> 0 < B < 2 ^ 64 ->
  0 <= i_by < 2 ^ 64 -> 0 <= o_by < 2 ^ 64 ->
  by_body C W B ics ohs ows (i_by, o_by) s
  = Some ((size_add i_by (by_input_increment B ics),
           size_add o_by (by_output_increment ohs)),
          copies (map (move_by B ics ows i_by o_by)
                      (list_prod (seq 0 (Z.to_nat W))
                         (list_prod (seq 0 (Z.to_nat B)) (seq 0 (Z.to_nat C))))) s).
Proof.
  intros HC HW HB Hi Ho. unfold by_body.
  erewrite bind_run.
  2:{ apply (level_run _ (list_prod (seq 0 (Z.to_nat B)) (seq 0 (Z.to_nat C)))
               (move_ix B ics ows) ix_input_increment
               (ix_output_increment B ows)); try assumption.
      intros i o s1 Hi1 Ho1. apply ix_body_run; assumption. }
  reflexivity.
Qed.

Lemma iy_body_run C W B ics ihs ohs ows i_iy o_iy s :
  0 < C < 2 ^ 64 -> 0 < W < 2 ^ 64 -> 0 < B < 2 ^ 64 ->
  0 <= i_iy < 2 ^ 64 -> 0 <= o_iy < 2 ^ 64 ->
  iy_body C W B ics ihs ohs ows (i_iy, o_iy) s
  = Some ((size_add i_iy (iy_input_increment ihs),
           size_add o_iy (iy_output_increment B ohs)),
          copies (map (move_iy B ics ohs ows i_iy o_iy)
                      (list_prod (seq 0 (Z.to_nat B))
                         (list_prod (seq 0 (Z.to_nat W))
                            (list_prod (seq 0 (Z.to_nat B)) (seq 0 (Z.to_nat C)))))) s).
Proof.
  intros HC HW HB Hi Ho. unfold iy_body.
  erewrite bind_run.
  2:{ apply (level_run _ (list_prod (seq 0 (Z.to_nat W))
                             (list_prod (seq 0 (Z.to_nat B)) (seq 0 (Z.to_nat C))))
               (move_by B ics ows) (by_input_increment B ics)
               (by_output_increment ohs)); try assumption.
      intros i o s1 Hi1 Ho1. apply by_body_run; assumption. }
  reflexivity.
Qed.

Lemma kernel_run C H W B input output ics ihs ohs ows s :
  0 < C < 2 ^ 64 -> 0 < H < 2 ^ 64 -> 0 < W < 2 ^ 64 -> 0 < B < 2 ^ 64 ->
  0 <= input < 2 ^ 64 -> 0 <= output < 2 ^ 64 ->
  xnn_x32_depth_to_space_chw2hwc_ukernel__scalar_c1_ib2 C H W B input output
    ics ihs ohs ows s
  = Some (tt, copies (map (move_all B ics ihs ohs ows input output) (indices C H W B)) s).
Proof.
  intros HC HH HW HB Hi Ho.
  unfold xnn_x32_depth_to_space_chw2hwc_ukernel__scalar_c1_ib2.
  erewrite bind_run.
  2:{ apply (level_run _ (list_prod (seq 0 (Z.to_nat B))
                             (list_prod (seq 0 (Z.to_nat W))
                                (list_prod (seq 0 (Z.to_nat B)) (seq 0 (Z.to_nat C)))))
               (move_iy B ics ohs ows) (iy_input_increment ihs)
               (iy_output_increment B ohs)); try assumption.
      intros i o s1 Hi1 Ho1. apply iy_body_run; assumption. }
  reflexivity.
Qed.


(** *** The pointers of a copy are the offsets of the comment at lines 32-38 *)

Lemma size_add_eqm a b b' : Zdiv.eqm (2 ^ 64) b b' -> size_add a b = size_add a b'.
Proof.
  intros H. unfold size_add.
  exact (Zdiv.Zplus_eqm (2 ^ 64) a a (Zdiv.eqm_refl _ a) b b' H).
Qed.

Lemma move_all_move B input output ics ihs ohs ows t :
  move_all B ics ihs ohs ows input output t = move B input output ics ihs ohs ows t.
Proof.
  destruct t as (iy & by_ & ix & bx & c).
  unfold move_all, move_iy, move_by, move_ix, move, source, destination,
    DepthToSpaceTrace.input_offset, output_offset.
  cbn [fst snd]. rewrite !size_add_add.
  unfold iy_input_increment, by_input_increment, ix_input_increment, bx_input_increment,
    c_input_increment, iy_output_increment, by_output_increment, ix_output_increment,
    bx_output_increment, c_output_increment, element_stride, size_mul.
  pose proof (Zdiv.eqm_setoid (2 ^ 64)) as Heq.
  pose proof (Zdiv.Zplus_eqm (2 ^ 64)) as Hadd.
  pose proof (Zdiv.Zmult_eqm (2 ^ 64)) as Hmul.
  f_equal; apply size_add_eqm.
  - repeat setoid_rewrite Zdiv.Zmod_eqm.
    match goal with |- Zdiv.eqm _ ?x ?y => replace x with y by ring end. reflexivity.
  - repeat setoid_rewrite Zdiv.Zmod_eqm.
    match goal with |- Zdiv.eqm _ ?x ?y => replace x with y by ring end. reflexivity.
Qed.


(** *** The store after a sequence of copies *)

Lemma pack_ext w n : forall f g,
  (forall i, 0 <= i < Z.of_nat n -> f i = g i) -> pack w n f = pack w n g.
Proof.
  induction n as [|n IH]; intros f g H; [reflexivity|].
  cbn [pack]. rewrite (H 0) by lia. f_equal. f_equal.
  apply IH. intros i Hi. apply H. lia.
Qed.

Lemma bytes_at_ext mem mem' n a :
  (forall b, 0 <= b < Z.of_nat n -> mem (a + b) = mem' (a + b)) ->
  bytes_at mem n a = bytes_at mem' n a.
Proof. intros H. unfold bytes_at. apply pack_ext. exact H. Qed.

Lemma pack_lanes w n : forall v,
  0 <= w -> pack w n (fun i => lane w i v) = v mod 2 ^ (w * Z.of_nat n).
Proof.
  induction n as [|n IH]; intros v Hw.
  - cbn [pack]. rewrite Z.mul_0_r, Z.pow_0_r, Z.mod_1_r. reflexivity.
  - cbn [pack].
    assert (H2 : 0 < 2 ^ w) by (apply Z.pow_pos_nonneg; lia).
    assert (H3 : 0 < 2 ^ (w * Z.of_nat n)) by (apply Z.pow_pos_nonneg; nia).
    rewrite (pack_ext w n _ (fun i => lane w i (v / 2 ^ w))).
    + rewrite IH by assumption.
      rewrite lane_eq by lia. rewrite Z.mul_0_r, Z.pow_0_r, Z.div_1_r.
      rewrite Z.mod_mod by lia.
      replace (w * Z.of_nat (S n)) with (w + w * Z.of_nat n) by lia.
      rewrite Z.pow_add_r by nia. rewrite Z.rem_mul_r by lia. reflexivity.
    + intros i Hi. rewrite !lane_eq by lia.
      replace (w * (i + 1)) with (w + w * i) by ring.
      rewrite Z.pow_add_r by nia.
      rewrite Z.div_div by (try apply Z.pow_pos_nonneg; nia). reflexivity.
Qed.

Lemma bytes_at_store mem a v :
  0 <= v < 2 ^ 32 -> bytes_at (store_bytes mem 4 a v) 4 a = v.
Proof.
  intros Hv. unfold bytes_at.
  rewrite (pack_ext 8 4 _ (fun i => lane 8 i v)).
  - rewrite pack_lanes by lia. apply Z.mod_small. exact Hv.
  - intros i Hi. unfold store_bytes.
    replace ((a <=? a + i) && (a + i <? a + Z.of_nat 4)) with true
      by (symmetry; apply andb_true_iff; split; [apply Z.leb_le | apply Z.ltb_lt]; lia).
    f_equal. lia.
Qed.

Lemma store_bytes_other mem n a v x :
  ~ (a <= x < a + Z.of_nat n) -> store_bytes mem n a v x = mem x.
Proof.
  intros H. unfold store_bytes.
  destruct (Z.leb_spec a x), (Z.ltb_spec x (a + Z.of_nat n)); cbn [andb];
    try reflexivity; lia.
Qed.

Lemma copies_frame l x : forall s,
  (forall m, In m l -> ~ (snd m <= x < snd m + 4)) ->
  bytes (copies l s) x = bytes s x.
Proof.
  induction l as [|m l IH]; intros s H; [reflexivity|].
  cbn [copies fold_left]. unfold copies in IH. rewrite IH.
  - unfold copy_state. cbn [bytes]. apply store_bytes_other.
    apply (H m). left. reflexivity.
  - intros m' Hm'. apply H. right. exact Hm'.
Qed.

Lemma pair_eq_dec (a b : Z * Z) : {a = b} + {a <> b}.
Proof. decide equality; apply Z.eq_dec. Qed.

Lemma copies_moved l : forall s,
  ForallOrdPairs (fun m m' => apart (snd m) (snd m')) l ->
  (forall m m', In m l -> In m' l -> apart (snd m) (fst m')) ->
  forall m, In m l ->
    bytes_at (bytes (copies l s)) 4 (snd m) = bytes_at (bytes s) 4 (fst m).
Proof.
  induction l as [|m0 l IH]; intros s Hoo Hoi m Hm; [contradiction|].
  inversion Hoo as [|? ? Hhead Htail]; subst.
  assert (Hin : m = m0 \/ In m l) by (destruct Hm; auto).
  cbn [copies fold_left]. fold (copies l (copy_state m0 s)).
  destruct (in_dec pair_eq_dec m l) as [Hl|Hl].
  - rewrite (IH (copy_state m0 s) Htail) by (auto using in_cons).
    apply bytes_at_ext. intros b Hb. unfold copy_state. cbn [bytes].
    apply store_bytes_other.
    pose proof (Hoi m0 m (in_eq _ _) (in_cons _ _ _ Hl)) as Ha.
    unfold apart in Ha. lia.
  - destruct Hin as [->|Hin]; [|contradiction].
    rewrite (bytes_at_ext _ (bytes (copy_state m0 s))).
    + unfold copy_state. cbn [bytes]. apply bytes_at_store.
      apply (bytes_at_range (bytes s) 4).
    + intros b Hb. apply copies_frame. intros m' Hm'.
      rewrite Forall_forall in Hhead. pose proof (Hhead m' Hm') as Ha.
      unfold apart in Ha. lia.
Qed.

Lemma copies_log l : forall s,
  store_shapes (log (copies l s))
  = store_shapes (log s) ++ map (fun m => (snd m, 4%nat)) l.
Proof.
  induction l as [|m l IH]; intros s.
  - cbn. rewrite app_nil_r. reflexivity.
  - cbn [copies fold_left]. unfold copies in IH. rewrite IH.
    unfold copy_state. cbn [log]. rewrite store_shapes_app, <- app_assoc. reflexivity.
Qed.

(** *** The indices *)

Lemma in_indices C H W B iy by_ ix bx c :
  In (iy, (by_, (ix, (bx, c)))) (indices C H W B)
  <-> (iy < Z.to_nat H /\ by_ < Z.to_nat B /\ ix < Z.to_nat W
       /\ bx < Z.to_nat B /\ c < Z.to_nat C)%nat.
Proof.
  unfold indices. rewrite !in_prod_iff, !in_seq. lia.
Qed.

Lemma NoDup_map_pair {A B : Type} (x : A) (l : list B) :
  NoDup l -> NoDup (map (pair x) l).
Proof.
  intros Hl. induction Hl as [|y l Hy Hl IH]; [constructor|].
  cbn [map]. constructor; [|exact IH].
  intros H. apply in_map_iff in H. destruct H as (z & E & Hz).
  injection E as ->. contradiction.
Qed.

Lemma NoDup_prod {A B : Type} (l : list A) (l' : list B) :
  NoDup l -> NoDup l' -> NoDup (list_prod l l').
Proof.
  intros Hl Hl'. induction Hl as [|x l Hx Hl IH]; [constructor|].
  cbn [list_prod]. apply NoDup_app.
  - apply NoDup_map_pair. assumption.
  - exact IH.
  - intros [a b] H1 H2. apply in_map_iff in H1. destruct H1 as (y & E & _).
    injection E as <- _. apply in_prod_iff in H2. destruct H2 as [H2 _]. contradiction.
Qed.

Lemma NoDup_indices C H W B : NoDup (indices C H W B).
Proof. unfold indices. repeat apply NoDup_prod; apply seq_NoDup. Qed.

Lemma ForallOrdPairs_map {A B : Type} (R : B -> B -> Prop) (f : A -> B) (l : list A) :
  NoDup l ->
  (forall a b, In a l -> In b l -> a <> b -> R (f a) (f b)) ->
  ForallOrdPairs R (map f l).
Proof.
  intros Hl. induction Hl as [|x l Hx Hl IH]; intros H; [constructor|].
  cbn [map]. constructor.
  - apply Forall_map. apply Forall_forall. intros y Hy.
    apply H; [left; reflexivity | right; assumption |].
    intros ->. contradiction.
  - apply IH. intros a b Ha Hb. apply H; right; assumption.
Qed.

End DepthToSpaceFacts.

(** * The requantization pipeline *)

Module RequantSpec.
Import Bits BitsFacts Intrin IntrinFacts Requant RequantFacts.
Import Mem DWConv DWConvTrace DWConvFacts.

Lemma q31_scalar m mask thr sh zp omin omax vacc j :
  0 <= j < 8 -> - 2 ^ 31 <= m < 2 ^ 31 ->
  lane 32 j (q31_multiply (broadcast_params m (2 ^ 30) mask thr sh zp omin omax) vacc)
  = bits 31 62 (signed 32 (lane 32 j vacc) * m + 2 ^ 30).
Proof.
  intros Hj Hm. rewrite q31_multiply_lane by lia.
  cbn [broadcast_params multiplier rounding].
  assert (0 <= j / 2 < 4)
    by (split; [apply Z.div_pos; lia | apply Z.div_lt_upper_bound; lia]).
  assert (0 <= (2 * (j / 2)) mod 4 < 4) by (apply Z.mod_pos_bound; lia).
  assert (0 <= (j / 2) mod 2 < 2) by (apply Z.mod_pos_bound; lia).
  rewrite !lane_bcast by lia.
  rewrite signed_wrap_small by (change (2 ^ (32 - 1)) with (2 ^ 31); lia).
  reflexivity.
Qed.

Lemma bits_31_62_signed x :
  - 2 ^ 62 <= x < 2 ^ 62 -> signed 32 (bits 31 62 x) = x / 2 ^ 31.
Proof.
  intros Hx. unfold bits. change (62 - 31 + 1) with 32.
  apply signed_wrap_small; [lia|]. change (2 ^ (32 - 1)) with (2 ^ 31).
  split.
  - apply Z.div_le_lower_bound; lia.
  - apply Z.div_lt_upper_bound; lia.
Qed.

Lemma product_range a m :
  - 2 ^ 31 <= a < 2 ^ 31 -> - 2 ^ 31 <= m < 2 ^ 31 ->
  ~ (a = - 2 ^ 31 /\ m = - 2 ^ 31) ->
  - 2 ^ 62 + 2 ^ 31 <= a * m <= 2 ^ 62 - 2 ^ 31.
Proof.
  intros Ha Hm Hn.
  assert (Ha' : a = - 2 ^ 31 \/ - 2 ^ 31 < a) by lia.
  assert (Hm' : m = - 2 ^ 31 \/ - 2 ^ 31 < m) by lia.
  destruct Ha' as [->|Ha'], Hm' as [->|Hm']; try (exfalso; apply Hn; split; reflexivity);
    nia.
Qed.

Lemma q31_quotient m mask thr sh zp omin omax vacc j :
  0 <= j < 8 -> - 2 ^ 31 <= m < 2 ^ 31 ->
  ~ (signed 32 (lane 32 j vacc) = - 2 ^ 31 /\ m = - 2 ^ 31) ->
  signed 32 (lane 32 j (q31_multiply
                          (broadcast_params m (2 ^ 30) mask thr sh zp omin omax) vacc))
  = (signed 32 (lane 32 j vacc) * m + 2 ^ 30) / 2 ^ 31.
Proof.
  intros Hj Hm Hn. rewrite q31_scalar by assumption.
  pose proof (signed_range 32 (lane 32 j vacc) ltac:(lia)) as Ha.
  change (2 ^ (32 - 1)) with (2 ^ 31) in Ha.
  pose proof (product_range _ m Ha Hm Hn) as Hr.
  apply bits_31_62_signed. lia.
Qed.

(** C2 (amended).  For every accumulator lane and every 32-bit signed
    multiplier, the Q31 product the kernel computes is bits 31 to 62 of the
    64-bit sum [acc * multiplier + 2^30]; unless both the accumulator and the
    multiplier are [-2^31], it is the quotient [acc * multiplier / 2^31]
    rounded to a nearest integer, a tie going up. *)
Theorem q31_product_is_rounded_quotient (m mask thr sh zp omin omax vacc j : Z) :
  0 <= j < 8 -> - 2 ^ 31 <= m < 2 ^ 31 ->
  let acc := signed 32 (lane 32 j vacc) in
  let p := lane 32 j (q31_multiply
                        (broadcast_params m (2 ^ 30) mask thr sh zp omin omax) vacc) in
  p = bits 31 62 (acc * m + 2 ^ 30) /\
  (~ (acc = - 2 ^ 31 /\ m = - 2 ^ 31) ->
   signed 32 p = (acc * m + 2 ^ 30) / 2 ^ 31 /\
   2 * Z.abs (signed 32 p * 2 ^ 31 - acc * m) <= 2 ^ 31).
Proof.
  intros Hj Hm acc p.
  assert (Hp : p = bits 31 62 (acc * m + 2 ^ 30)) by (apply q31_scalar; assumption).
  split; [exact Hp|]. intros Hn.
  pose proof (signed_range 32 (lane 32 j vacc) ltac:(lia)) as Ha.
  change (2 ^ (32 - 1)) with (2 ^ 31) in Ha. fold acc in Ha.
  pose proof (product_range acc m Ha Hm Hn) as Hr.
  assert (Hs : signed 32 p = (acc * m + 2 ^ 30) / 2 ^ 31)
    by (apply q31_quotient; assumption).
  split; [exact Hs|].
  rewrite Hs.
  pose proof (Z.div_mod (acc * m + 2 ^ 30) (2 ^ 31) ltac:(lia)) as Hd.
  pose proof (Z.mod_pos_bound (acc * m + 2 ^ 30) (2 ^ 31) ltac:(lia)) as Hb.
  lia.
Qed.

Lemma q31_product_is_rounded_quotient_witness :
  let vacc := pack 32 8 (fun i => i) in
  let p := lane 32 5 (q31_multiply
                        (broadcast_params (3 * 2 ^ 29) (2 ^ 30) 0 0 0 0 (-128) 127) vacc) in
  p = bits 31 62 (5 * (3 * 2 ^ 29) + 2 ^ 30) /\ signed 32 p = 4.
Proof.
  pose proof (q31_product_is_rounded_quotient (3 * 2 ^ 29) 0 0 0 0 (-128) 127
                (pack 32 8 (fun i => i)) 5 ltac:(lia) ltac:(lia)) as [H1 H2].
  split.
  - exact H1.
  - refine (proj1 (H2 _)). vm_compute. intros [H _]. discriminate H.
Defined.

(** C2, as stated, fails when the accumulator and the multiplier are both
    [-2^31]: the product is [2^62], the quotient is exactly [2^31], and the
    kernel yields [-2^31]. *)
Lemma q31_product_counterexample :
  let m := - 2 ^ 31 in
  let vacc := pack 32 8 (fun _ => - 2 ^ 31) in
  let acc := signed 32 (lane 32 0 vacc) in
  let p := signed 32 (lane 32 0 (q31_multiply
                        (broadcast_params m (2 ^ 30) 0 0 0 0 (-128) 127) vacc)) in
  acc = - 2 ^ 31 /\ acc * m = 2 ^ 31 * 2 ^ 31 /\ p = - 2 ^ 31 /\
  ~ (2 * Z.abs (p * 2 ^ 31 - acc * m) <= 2 ^ 31).
Proof. vm_compute. repeat split; try reflexivity. intros H; apply H; reflexivity. Qed.


Lemma rescale_scalar m r mask thr sh zp omin omax vq j :
  0 <= j < 8 -> - 2 ^ 31 <= mask < 2 ^ 31 -> - 2 ^ 31 <= thr < 2 ^ 31 ->
  0 <= sh < 2 ^ 64 ->
  let P := broadcast_params m r mask thr sh zp omin omax in
  let p := signed 32 (lane 32 j vq) in
  let rem := signed 32 (lane 32 j (remainder P vq)) in
  rem = signed 32 (Z.land p mask - (if p <? 0 then 1 else 0)) /\
  signed 32 (lane 32 j (rescale P vq))
  = signed 32 (Z.shiftr p sh + (if rem >? thr then 1 else 0)).
Proof.
  intros Hj Hmask Hthr Hsh P p rem.
  assert (Hm : 0 <= j mod 4 < 4) by (apply Z.mod_pos_bound; lia).
  split.
  - unfold rem. rewrite remainder_lane by lia.
    unfold P. cbn [broadcast_params remainder_mask].
    rewrite lane_bcast by lia.
    rewrite signed_wrap_small by (change (2 ^ (32 - 1)) with (2 ^ 31); lia).
    reflexivity.
  - rewrite rescale_lane by lia. fold rem.
    unfold P at 1 2. cbn [broadcast_params remainder_threshold shift].
    rewrite !lane_bcast by lia.
    rewrite signed_wrap_small by (change (2 ^ (32 - 1)) with (2 ^ 31); lia).
    rewrite Z.mod_small by lia. reflexivity.
Qed.

(** C1 (amended).  For every 32-bit Q31 product [p], the kernel computes, in
    32-bit two's complement arithmetic,
    [remainder = (p & remainderMask) - (p < 0 ? 1 : 0)] and
    [scaled = (p >> shift) + (remainder > remainderThreshold ? 1 : 0)], where
    [>>] is the arithmetic right shift.  Neither wraps around when the mask
    is not negative and either the shift is at least 1 or the mask does not
    exceed the threshold. *)
Theorem rescale_is_shift_with_remainder_correction
    (m r mask thr sh zp omin omax vq j : Z) :
  0 <= j < 8 -> - 2 ^ 31 <= mask < 2 ^ 31 -> - 2 ^ 31 <= thr < 2 ^ 31 ->
  0 <= sh < 2 ^ 64 ->
  let P := broadcast_params m r mask thr sh zp omin omax in
  let p := signed 32 (lane 32 j vq) in
  let rem := signed 32 (lane 32 j (remainder P vq)) in
  let scaled := signed 32 (lane 32 j (rescale P vq)) in
  rem = signed 32 (Z.land p mask - (if p <? 0 then 1 else 0)) /\
  scaled = signed 32 (Z.shiftr p sh + (if rem >? thr then 1 else 0)) /\
  (0 <= mask -> rem = Z.land p mask - (if p <? 0 then 1 else 0)) /\
  (0 <= mask -> 1 <= sh \/ mask <= thr ->
   scaled = Z.shiftr p sh + (if rem >? thr then 1 else 0)).
Proof.
  intros Hj Hmask Hthr Hsh P p rem scaled.
  destruct (rescale_scalar m r mask thr sh zp omin omax vq j Hj Hmask Hthr Hsh)
    as [Hrem Hscaled].
  fold P p rem in Hrem, Hscaled. fold scaled in Hscaled.
  pose proof (signed_range 32 (lane 32 j vq) ltac:(lia)) as Hp.
  change (2 ^ (32 - 1)) with (2 ^ 31) in Hp. fold p in Hp.
  assert (Hexact : 0 <= mask -> rem = Z.land p mask - (if p <? 0 then 1 else 0)).
  { intros H0. rewrite Hrem. apply signed_small; [lia|].
    change (2 ^ (32 - 1)) with (2 ^ 31).
    pose proof (land_upper_bound p mask H0).
    destruct (p <? 0); lia. }
  repeat split; try assumption.
  intros H0 Hc. rewrite Hscaled. apply signed_small; [lia|].
  change (2 ^ (32 - 1)) with (2 ^ 31).
  destruct Hc as [Hc|Hc].
  - pose proof (shiftr_range_pos p sh Hp Hc). destruct (rem >? thr); lia.
  - pose proof (shiftr_range p sh Hp ltac:(lia)).
    pose proof (land_upper_bound p mask H0).
    specialize (Hexact H0).
    destruct (Z.gtb_spec rem thr); [|lia].
    destruct (p <? 0); lia.
Qed.

Lemma rescale_is_shift_with_remainder_correction_witness :
  let P := broadcast_params (2 ^ 30) (2 ^ 30) 3 1 2 0 (-128) 127 in
  let vq := pack 32 8 (fun i => 4 * i - 10) in
  signed 32 (lane 32 1 vq) = -6 /\
  signed 32 (lane 32 1 (remainder P vq)) = Z.land (-6) 3 - 1 /\
  signed 32 (lane 32 1 (rescale P vq)) = Z.shiftr (-6) 2 + 0.
Proof.
  pose proof (rescale_is_shift_with_remainder_correction
                (2 ^ 30) (2 ^ 30) 3 1 2 0 (-128) 127 (pack 32 8 (fun i => 4 * i - 10)) 1
                ltac:(lia) ltac:(lia) ltac:(lia) ltac:(lia)) as (_ & _ & H3 & H4).
  split; [reflexivity|]. split.
  - exact (H3 ltac:(lia)).
  - exact (H4 ltac:(lia) ltac:(left; lia)).
Defined.

(** C1, as stated, fails at [p = -1] with shift 2, mask 3 and threshold 1:
    the kernel's remainder is [(p & 3) - 1 = 2], not [(p & 3) + 1 = 4], and
    its rescaled value is [(p >> 2) + 1 = 0], not [(p >> 2) - 1 = -2]. *)
Lemma rescale_counterexample :
  let P := broadcast_params (2 ^ 30) (2 ^ 30) 3 1 2 0 (-128) 127 in
  let vq := pack 32 8 (fun _ => -1) in
  let p := signed 32 (lane 32 0 vq) in
  let rem := signed 32 (lane 32 0 (remainder P vq)) in
  let scaled := signed 32 (lane 32 0 (rescale P vq)) in
  p = -1 /\ rem = 2 /\ scaled = 0 /\
  rem <> Z.land p 3 + (if p <? 0 then 1 else 0) /\
  scaled <> Z.shiftr p 2 - (if rem >? 1 then 1 else 0) /\
  scaled <> Z.shiftr p 2
            - (if Z.land p 3 + (if p <? 0 then 1 else 0) >? 1 then 1 else 0).
Proof. vm_compute. repeat split; try reflexivity; intros H; discriminate H. Qed.


(** C6.  With [outputMin <= outputMax], both in the signed 8-bit range (the
    invariant of the quantization parameters), the byte produced for a channel
    is [outputMax] when the rescaled, zero-point-adjusted value exceeds
    [outputMax], [outputMin] when it is below [outputMin], and that value
    itself otherwise.  When the zero point is in the signed 8-bit range too,
    the byte is the exact integer [scaled + zero_point] clamped to the two
    bounds: no output is a wrapped value.  A full tile stores that byte at
    [output + j] for channel [j] of the tile. *)
Theorem output_saturates_at_bounds (m r mask thr sh zp omin omax j : Z) :
  0 <= j < 8 -> - 2 ^ 15 <= zp < 2 ^ 15 ->
  -128 <= omin -> omin <= omax -> omax <= 127 ->
  let P := broadcast_params m r mask thr sh zp omin omax in
  (forall vacc,
     let scaled := signed 32 (lane 32 j (rescale P (q31_multiply P vacc))) in
     let with_zero_point := sat 16 (sat 16 scaled + zp) in
     let out := signed 8 (lane 8 j (requantize P vacc)) in
     (omax < with_zero_point -> out = omax) /\
     (with_zero_point < omin -> out = omin) /\
     (omin <= with_zero_point <= omax -> out = with_zero_point) /\
     (-128 <= zp <= 127 -> out = Z.min (Z.max (scaled + zp) omin) omax))
  /\ (forall l s, exists l' s',
        full_tile P l s = Some (l', s')
        /\ bytes s' (DWConv.output l + j)
           = lane 8 j (requantize P (acc_value (bytes s) (w l) (i l)))).
Proof.
  intros Hj Hzp Hmin Hle Hmax P. split.
  - intros vacc scaled with_zero_point out.
    assert (Hout : out = sat 8 (Z.min (Z.max with_zero_point omin) omax)).
    { unfold out, with_zero_point, scaled. rewrite requantize_lane by lia.
      subst P. cbn [broadcast_params output_zero_point output_min output_max].
      rewrite !lane_bcast by lia.
      rewrite !signed_wrap_small by (change (2 ^ (16 - 1)) with (2 ^ 15); lia).
      reflexivity. }
    rewrite Hout. unfold with_zero_point, sat.
    change (2 ^ (8 - 1)) with 128. change (2 ^ (16 - 1)) with 32768.
    repeat split; intros; lia.
  - intros l s. exists (next_tile l), (full_tile_state P l s).
    split; [apply full_tile_run | apply full_tile_byte; assumption].
Qed.

Lemma output_saturates_at_bounds_witness :
  let P := broadcast_params (2 ^ 30) (2 ^ 30) 0 0 0 3 (-100) 100 in
  let vacc := pack 32 8 (fun i => 100 * i - 300) in
  signed 32 (lane 32 7 (rescale P (q31_multiply P vacc))) = 200 /\
  signed 8 (lane 8 7 (requantize P vacc)) = 100 /\
  signed 32 (lane 32 0 (rescale P (q31_multiply P vacc))) = -150 /\
  signed 8 (lane 8 0 (requantize P vacc)) = -100.
Proof.
  pose proof (output_saturates_at_bounds (2 ^ 30) (2 ^ 30) 0 0 0 3 (-100) 100 7
                ltac:(lia) ltac:(lia) ltac:(lia) ltac:(lia) ltac:(lia)) as (H7 & _).
  pose proof (output_saturates_at_bounds (2 ^ 30) (2 ^ 30) 0 0 0 3 (-100) 100 0
                ltac:(lia) ltac:(lia) ltac:(lia) ltac:(lia) ltac:(lia)) as (H0 & _).
  destruct (H7 (pack 32 8 (fun i => 100 * i - 300))) as (H1 & _).
  destruct (H0 (pack 32 8 (fun i => 100 * i - 300))) as (_ & H2 & _).
  split; [reflexivity|]. split; [exact (H1 ltac:(vm_compute; reflexivity))|].
  split; [reflexivity|]. exact (H2 ltac:(vm_compute; reflexivity)).
Defined.


(** The two rounding steps amount to one floor division by [2^31 * 2^shift]
    followed by a correction of 0 or 1. *)
Lemma rescaled_form m mask thr sh zp omin omax x j :
  0 <= j < 8 -> - 2 ^ 31 <= m < 2 ^ 31 ->
  - 2 ^ 31 <= mask < 2 ^ 31 -> - 2 ^ 31 <= thr < 2 ^ 31 -> 0 <= sh < 2 ^ 64 ->
  (sh = 0 -> 0 <= mask <= thr) ->
  - 2 ^ 31 < x < 2 ^ 31 ->
  let P := broadcast_params m (2 ^ 30) mask thr sh zp omin omax in
  exists b, (b = 0 \/ b = 1) /\
    signed 32 (lane 32 j (rescale P (q31_multiply P (pack 32 8 (fun _ => x)))))
    = (x * m + 2 ^ 30) / (2 ^ 31 * 2 ^ sh) + b.
Proof.
  intros Hj Hm Hmask Hthr Hsh Hz Hx P.
  set (vacc := pack 32 8 (fun _ => x)).
  assert (Hacc : signed 32 (lane 32 j vacc) = x).
  { unfold vacc. rewrite lane_bcast by lia.
    apply signed_wrap_small; [lia|]. change (2 ^ (32 - 1)) with (2 ^ 31). lia. }
  assert (Hp : signed 32 (lane 32 j (q31_multiply P vacc)) = (x * m + 2 ^ 30) / 2 ^ 31).
  { unfold P. rewrite q31_quotient by (try rewrite Hacc; lia).
    rewrite Hacc. reflexivity. }
  set (vq := q31_multiply P vacc) in *.
  destruct (rescale_scalar m (2 ^ 30) mask thr sh zp omin omax vq j Hj Hmask Hthr Hsh)
    as [Hrem Hscaled].
  fold P in Hrem, Hscaled. rewrite Hp in Hrem, Hscaled.
  set (p := (x * m + 2 ^ 30) / 2 ^ 31) in *.
  assert (Hpr : - 2 ^ 31 <= p < 2 ^ 31).
  { rewrite <- Hp. pose proof (signed_range 32 (lane 32 j vq) ltac:(lia)) as Hr.
    change (2 ^ (32 - 1)) with (2 ^ 31) in Hr. exact Hr. }
  assert (Hdiv : Z.shiftr p sh = (x * m + 2 ^ 30) / (2 ^ 31 * 2 ^ sh)).
  { rewrite Z.shiftr_div_pow2 by lia. unfold p.
    apply Z.div_div; [lia | apply Z.pow_pos_nonneg; lia]. }
  rewrite Hscaled, Hdiv in *. clear Hscaled.
  set (rem := signed 32 (lane 32 j (remainder P vq))) in *.
  destruct (Z.eq_dec sh 0) as [Hs0|Hs0].
  - exists 0. split; [left; reflexivity|].
    specialize (Hz Hs0).
    assert (Hle : rem <= thr).
    { rewrite Hrem. rewrite signed_small.
      - pose proof (land_upper_bound p mask ltac:(lia)). destruct (p <? 0); lia.
      - lia.
      - change (2 ^ (32 - 1)) with (2 ^ 31).
        pose proof (land_upper_bound p mask ltac:(lia)). destruct (p <? 0); lia. }
    replace (rem >? thr) with false
      by (rewrite Z.gtb_ltb; symmetry; apply Z.ltb_ge; lia).
    rewrite Z.add_0_r. rewrite <- Hdiv. apply signed_small; [lia|].
    change (2 ^ (32 - 1)) with (2 ^ 31). apply shiftr_range; lia.
  - exists (if rem >? thr then 1 else 0).
    split; [destruct (rem >? thr); auto|].
    rewrite <- Hdiv. apply signed_small; [lia|].
    change (2 ^ (32 - 1)) with (2 ^ 31).
    pose proof (shiftr_range_pos p sh Hpr ltac:(lia)).
    destruct (rem >? thr); lia.
Qed.

(** Rounding [P / N] and [- P / N] with the same offset [H] and arbitrary
    corrections of 0 or 1 gives errors whose magnitudes differ by at most [N]. *)
Lemma symmetric_error N H P b b' :
  0 < H -> 2 * H <= N -> (b = 0 \/ b = 1) -> (b' = 0 \/ b' = 1) ->
  Z.abs (Z.abs (((P + H) / N + b) * N - P) - Z.abs (((- P + H) / N + b') * N + P)) <= N.
Proof.
  intros HH HN Hb Hb'.
  pose proof (Z.div_mod (P + H) N ltac:(lia)) as D1.
  pose proof (Z.mod_pos_bound (P + H) N ltac:(lia)) as B1.
  pose proof (Z.div_mod (- P + H) N ltac:(lia)) as D2.
  pose proof (Z.mod_pos_bound (- P + H) N ltac:(lia)) as B2.
  set (fl := (P + H) / N) in *. set (fl' := (- P + H) / N) in *.
  set (r := (P + H) mod N) in *. set (r' := (- P + H) mod N) in *.
  assert (Hk : fl + fl' = -1 \/ fl + fl' = 0 \/ fl + fl' = 1) by nia.
  assert (Hfl' : N * fl' = N * (fl + fl') - N * fl) by ring.
  destruct Hb as [-> | ->], Hb' as [-> | ->], Hk as [Hk|[Hk|Hk]];
    rewrite Hk in Hfl'; lia.
Qed.

(** C9.  For accumulator values [v] and [-v], with the parameters fixed, the
    errors of the rescaled value against the exact [v * multiplier / 2^(31 + shift)]
    have magnitudes that differ by at most one unit of the result; the errors
    are scaled by [2^31 * 2^shift] to stay in the integers.  At shift 0 the
    parameters are taken not to ask for a correction ([0 <= mask <= threshold]). *)
Theorem rounding_error_is_symmetric (m mask thr sh zp omin omax v j : Z) :
  0 <= j < 8 -> - 2 ^ 31 <= m < 2 ^ 31 ->
  - 2 ^ 31 <= mask < 2 ^ 31 -> - 2 ^ 31 <= thr < 2 ^ 31 -> 0 <= sh < 2 ^ 64 ->
  (sh = 0 -> 0 <= mask <= thr) ->
  - 2 ^ 31 < v < 2 ^ 31 ->
  let P := broadcast_params m (2 ^ 30) mask thr sh zp omin omax in
  let scaled x :=
    signed 32 (lane 32 j (rescale P (q31_multiply P (pack 32 8 (fun _ => x))))) in
  let unit := 2 ^ 31 * 2 ^ sh in
  let err x := scaled x * unit - x * m in
  Z.abs (Z.abs (err v) - Z.abs (err (- v))) <= unit.
Proof.
  intros Hj Hm Hmask Hthr Hsh Hz Hv P scaled unit err.
  destruct (rescaled_form m mask thr sh zp omin omax v j Hj Hm Hmask Hthr Hsh Hz Hv)
    as (b & Hb & E1).
  destruct (rescaled_form m mask thr sh zp omin omax (- v) j Hj Hm Hmask Hthr Hsh Hz
              ltac:(lia)) as (b' & Hb' & E2).
  unfold err, scaled. fold P in E1, E2. rewrite E1, E2. fold unit.
  assert (Hu : 2 * 2 ^ 30 <= unit).
  { unfold unit. assert (1 <= 2 ^ sh) by (pose proof (Z.pow_pos_nonneg 2 sh); lia). lia. }
  replace (- v * m) with (- (v * m)) by ring.
  pose proof (symmetric_error unit (2 ^ 30) (v * m) b b' ltac:(lia) Hu Hb Hb') as Hs.
  replace (((- (v * m) + 2 ^ 30) / unit + b') * unit - - (v * m))
    with (((- (v * m) + 2 ^ 30) / unit + b') * unit + v * m) by ring.
  exact Hs.
Qed.

Lemma rounding_error_is_symmetric_witness :
  let P := broadcast_params (2 ^ 30) (2 ^ 30) 1 0 1 0 (-128) 127 in
  let scaled x :=
    signed 32 (lane 32 2 (rescale P (q31_multiply P (pack 32 8 (fun _ => x))))) in
  let unit := 2 ^ 31 * 2 ^ 1 in
  let err x := scaled x * unit - x * 2 ^ 30 in
  scaled 3 = 1 /\ scaled (-3) = -1 /\
  Z.abs (Z.abs (err 3) - Z.abs (err (- 3))) <= unit.
Proof.
  split; [reflexivity|]. split; [reflexivity|].
  exact (rounding_error_is_symmetric (2 ^ 30) 1 0 1 0 (-128) 127 3 2
           ltac:(lia) ltac:(lia) ltac:(lia) ltac:(lia) ltac:(lia) ltac:(lia) ltac:(lia)).
Defined.

End RequantSpec.

(** * The depthwise convolution kernel *)

Module DWConvSpec.
Import Bits BitsFacts Intrin IntrinFacts Requant RequantFacts Mem MemFacts.
Import DWConv DWConvTrace DWConvFacts.

(** C3 (amended).  The output pointer is advanced by [output_increment] after
    every pixel (column), not once per row: pixel [p] of a call stores its
    [channels] bytes from [output + p * (channels + output_increment)], so
    consecutive pixels are [channels + output_increment] bytes apart. *)
Theorem output_advances_after_every_pixel
    (channels output_width input weights output input_stride output_increment
     input_offset zero : Z) (params : xnn_qs8_gemm_params) (s : state) :
  0 < channels < 2 ^ 64 -> 0 < output_width < 2 ^ 64 ->
  0 <= input < 2 ^ 64 -> 0 <= weights < 2 ^ 64 -> 0 <= output < 2 ^ 64 ->
  exists s',
    xnn_qs8_dwconv_minmax_ukernel_up8x9__avx2_mul32 channels output_width input weights
      output input_stride output_increment input_offset zero params s = Some (tt, s')
    /\ store_shapes (log s')
       = store_shapes (log s)
         ++ flat_map (fun p => pixel_stores channels
                                 (size_add output (Z.of_nat p * (channels + output_increment))))
                     (seq 0 (Z.to_nat output_width)).
Proof. intros. apply kernel_stores; assumption. Qed.

Lemma output_advances_after_every_pixel_witness :
  let s0 := {| bytes := fun x => x mod 7; log := [] |} in
  let params := broadcast_params (2 ^ 30) (2 ^ 30) 0 0 0 0 (-128) 127 in
  exists s',
    xnn_qs8_dwconv_minmax_ukernel_up8x9__avx2_mul32 11 2 2000 1000 3000 0 5 400 7777
      params s0 = Some (tt, s')
    /\ store_shapes (log s')
       = [(3000, 8%nat); (3008, 2%nat); (3010, 1%nat);
          (3016, 8%nat); (3024, 2%nat); (3026, 1%nat)].
Proof.
  intros s0 params.
  destruct (output_advances_after_every_pixel 11 2 2000 1000 3000 0 5 400 7777 params s0
              ltac:(lia) ltac:(lia) ltac:(lia) ltac:(lia) ltac:(lia)) as (s' & Hrun & Hst).
  exists s'. split; [exact Hrun|]. rewrite Hst. reflexivity.
Defined.

(** C3, as stated, fails with 8 channels, 2 pixels and [output_increment = 5]:
    the second pixel is stored at [output + 13], not at [output + 8]. *)
Lemma output_row_increment_counterexample :
  let s0 := {| bytes := fun _ => 0; log := [] |} in
  let params := broadcast_params (2 ^ 30) (2 ^ 30) 0 0 0 0 (-128) 127 in
  match xnn_qs8_dwconv_minmax_ukernel_up8x9__avx2_mul32 8 2 2000 1000 3000 0 5 0 7777
          params s0 with
  | Some (_, s') =>
      store_shapes (log s') = [(3000, 8%nat); (3000 + 8 + 5, 8%nat)]
      /\ store_shapes (log s') <> [(3000, 8%nat); (3000 + 8, 8%nat)]
  | None => False
  end.
Proof. vm_compute. split; [reflexivity | intros H; discriminate H]. Qed.

(** C4 (amended).  The tail tile performs the loads of a full tile: the 32
    bytes of 8 biases at [w] and, for each tap [k], 8 input bytes at the row
    pointer and the 8 weight bytes at [w + 32 + 8 * k]; the last tile of the
    packed weights is laid out, and read, at the full tile width. *)
Theorem tail_tile_reads_a_full_tile
    (params : xnn_qs8_gemm_params) (c w output i0 i1 i2 i3 i4 i5 i6 i7 i8 : Z) (s : state) :
  0 < c < 8 -> 0 <= output < 2 ^ 64 ->
  let l := {| i := [i0; i1; i2; i3; i4; i5; i6; i7; i8]; w := w; output := output |} in
  exists l_t s_t l_f s_f,
    tail_tile params c l s = Some (l_t, s_t)
    /\ full_tile params l s = Some (l_f, s_f)
    /\ load_shapes (log s_t) = load_shapes (log s_f)
    /\ load_shapes (log s_t)
       = load_shapes (log s)
         ++ [(w, 32%nat);
             (i0, 8%nat); (size_add w 32, 8%nat); (i1, 8%nat); (size_add w 40, 8%nat);
             (i2, 8%nat); (size_add w 48, 8%nat); (i3, 8%nat); (size_add w 56, 8%nat);
             (i4, 8%nat); (size_add w 64, 8%nat); (i5, 8%nat); (size_add w 72, 8%nat);
             (i6, 8%nat); (size_add w 80, 8%nat); (i7, 8%nat); (size_add w 88, 8%nat);
             (i8, 8%nat); (size_add w 96, 8%nat)].
Proof.
  intros Hc Ho l.
  exists {| i := map (fun ik => size_add ik 8) (i l); w := size_add (DWConv.w l) 32;
            output := size_add (DWConv.output l) c |}, (tail_tile_state params c l s),
         (next_tile l), (full_tile_state params l s).
  split; [apply tail_tile_run; assumption|].
  split; [apply full_tile_run|].
  rewrite tail_tile_loads, full_tile_loads. split; reflexivity.
Qed.

Lemma tail_tile_reads_a_full_tile_witness :
  let s0 := {| bytes := fun x => x mod 5; log := [] |} in
  let params := broadcast_params (2 ^ 30) (2 ^ 30) 0 0 0 0 (-128) 127 in
  let l := {| i := [5000; 5100; 5200; 5300; 5400; 5500; 5600; 5700; 5800];
              w := 1000; output := 3000 |} in
  exists l' s',
    tail_tile params 3 l s0 = Some (l', s')
    /\ load_shapes (log s')
       = [(1000, 32%nat);
          (5000, 8%nat); (1032, 8%nat); (5100, 8%nat); (1040, 8%nat);
          (5200, 8%nat); (1048, 8%nat); (5300, 8%nat); (1056, 8%nat);
          (5400, 8%nat); (1064, 8%nat); (5500, 8%nat); (1072, 8%nat);
          (5600, 8%nat); (1080, 8%nat); (5700, 8%nat); (1088, 8%nat);
          (5800, 8%nat); (1096, 8%nat)].
Proof.
  intros s0 params l.
  destruct (tail_tile_reads_a_full_tile params 3 1000 3000
              5000 5100 5200 5300 5400 5500 5600 5700 5800 s0 ltac:(lia) ltac:(lia))
    as (l_t & s_t & _ & _ & Hrun & _ & _ & Hloads).
  exists l_t, s_t. split; [exact Hrun|]. rewrite Hloads. reflexivity.
Defined.

(** C4, as stated, fails with one channel left ([c = 1]): a last tile packed
    without padding holds 4 bytes of bias and 9 weights, 13 bytes from [w],
    and each input row holds 1 more byte; the tail tile loads 32 bytes at
    [w], 8 bytes at [w + 96] and 8 bytes at each row pointer. *)
Lemma tail_tile_reads_counterexample :
  let s0 := {| bytes := fun _ => 0; log := [] |} in
  let params := broadcast_params (2 ^ 30) (2 ^ 30) 0 0 0 0 (-128) 127 in
  let c := 1 in
  let w := 1000 in
  let i := [5000; 5100; 5200; 5300; 5400; 5500; 5600; 5700; 5800] in
  let within (access : Z * nat) :=
    let '(a, n) := access in
    (w <=? a) && (a + Z.of_nat n <=? w + 4 * c + 9 * c)
    || existsb (fun ik => (ik <=? a) && (a + Z.of_nat n <=? ik + c)) i in
  match tail_tile params c {| i := i; w := w; output := 3000 |} s0 with
  | Some (_, s') =>
      forallb within (load_shapes (log s')) = false
      /\ In (w, 32%nat) (load_shapes (log s'))
      /\ In (w + 96, 8%nat) (load_shapes (log s'))
      /\ In (5000, 8%nat) (load_shapes (log s'))
  | None => False
  end.
Proof.
  vm_compute. split; [reflexivity|]. repeat split; auto 30.
Qed.


Lemma tail_segments_widths c :
  0 < c < 8 ->
  map snd (tail_segments c)
  = filter (fun n => Z.testbit c (Z.log2 (Z.of_nat n))) [4; 2; 1]%nat.
Proof.
  intros Hc.
  assert (H : c = 1 \/ c = 2 \/ c = 3 \/ c = 4 \/ c = 5 \/ c = 6 \/ c = 7) by lia.
  destruct H as [->|[->|[->|[->|[->|[-> | ->]]]]]]; reflexivity.
Qed.

Lemma tail_segments_addresses c output :
  0 < c < 8 -> 0 <= output -> output + 8 <= 2 ^ 64 ->
  map (fun '(off, n) => (size_add output off, n)) (tail_segments c)
  = map (fun '(off, n) => (output + off, n)) (tail_segments c).
Proof.
  intros Hc Ho Ho'.
  assert (H : c = 1 \/ c = 2 \/ c = 3 \/ c = 4 \/ c = 5 \/ c = 6 \/ c = 7) by lia.
  destruct H as [->|[->|[->|[->|[->|[-> | ->]]]]]]; eval_tail_conditions;
    cbn [map]; rewrite ?size_add_small by lia; reflexivity.
Qed.

(** C5.  For a tail of [c] channels, [0 < c < 8], the tail tile leaves in the
    [c] bytes at [output] what a full tile run on the same weights, inputs and
    parameters leaves there, writes no other byte, and makes its partial
    stores widest first: 4 bytes, then 2, then 1, as the bits of [c] ask. *)
Theorem tail_tile_matches_full_tile (params : xnn_qs8_gemm_params) (c : Z) (l : locals)
    (s : state) :
  0 < c < 8 -> 0 <= output l -> output l + 8 <= 2 ^ 64 ->
  exists l_t s_t l_f s_f,
    tail_tile params c l s = Some (l_t, s_t)
    /\ full_tile params l s = Some (l_f, s_f)
    /\ (forall x, output l <= x < output l + c -> bytes s_t x = bytes s_f x)
    /\ (forall x, ~ (output l <= x < output l + c) -> bytes s_t x = bytes s x)
    /\ output l_t = output l + c
    /\ store_shapes (log s_t)
       = store_shapes (log s) ++ map (fun '(off, n) => (output l + off, n)) (tail_segments c)
    /\ map snd (tail_segments c)
       = filter (fun n => Z.testbit c (Z.log2 (Z.of_nat n))) [4; 2; 1]%nat.
Proof.
  intros Hc Ho Ho'.
  exists {| i := map (fun ik => size_add ik 8) (i l); w := size_add (w l) 32;
            output := size_add (output l) c |}, (tail_tile_state params c l s),
         (next_tile l), (full_tile_state params l s).
  split; [apply tail_tile_run; lia|].
  split; [apply full_tile_run|].
  set (v := requantize params (acc_value (bytes s) (w l) (i l))).
  assert (Hb : forall x, bytes (tail_tile_state params c l s) x
                         = if (output l <=? x) && (x <? output l + c)
                           then lane 8 (x - output l) v else bytes s x).
  { intros x. unfold tail_tile_state. fold v.
    rewrite store_segments_bytes by (apply tail_segments_ok; assumption).
    rewrite tail_segments_cover by assumption. reflexivity. }
  split; [|split; [|split; [|split]]].
  - intros x Hx. rewrite Hb.
    replace ((output l <=? x) && (x <? output l + c)) with true
      by (symmetry; apply andb_true_iff; split; [apply Z.leb_le | apply Z.ltb_lt]; lia).
    unfold full_tile_state. fold v. cbn [bytes]. unfold store_bytes.
    replace ((output l <=? x) && (x <? output l + Z.of_nat 8)) with true
      by (symmetry; apply andb_true_iff; split; [apply Z.leb_le | apply Z.ltb_lt]; lia).
    change 64 with (8 * 8). rewrite lane_lane by lia. f_equal.
  - intros x Hx. rewrite Hb.
    destruct (Z.leb_spec (output l) x), (Z.ltb_spec x (output l + c));
      cbn [andb]; try reflexivity; lia.
  - cbn [output]. apply size_add_small. lia.
  - rewrite tail_tile_stores. f_equal. apply tail_segments_addresses; assumption.
  - apply tail_segments_widths; assumption.
Qed.

Lemma tail_tile_matches_full_tile_witness :
  let s0 := {| bytes := fun x => (x * x) mod 11; log := [] |} in
  let params := broadcast_params (2 ^ 30) (2 ^ 30) 0 0 0 0 (-128) 127 in
  let l := {| i := [5000; 5100; 5200; 5300; 5400; 5500; 5600; 5700; 5800];
              w := 1000; output := 3000 |} in
  exists s_t s_f l_t l_f,
    tail_tile params 7 l s0 = Some (l_t, s_t)
    /\ full_tile params l s0 = Some (l_f, s_f)
    /\ bytes s_t 3006 = bytes s_f 3006
    /\ bytes s_t 3007 = bytes s0 3007
    /\ store_shapes (log s_t) = [(3000, 4%nat); (3004, 2%nat); (3006, 1%nat)].
Proof.
  intros s0 params l.
  destruct (tail_tile_matches_full_tile params 7 l s0 ltac:(lia) ltac:(cbn; lia)
              ltac:(cbn; lia))
    as (l_t & s_t & l_f & s_f & H1 & H2 & H3 & H4 & _ & H6 & _).
  exists s_t, s_f, l_t, l_f.
  split; [exact H1|]. split; [exact H2|].
  split; [apply H3; cbn; lia|]. split; [apply H4; cbn; lia|].
  rewrite H6. reflexivity.
Defined.

(** C7.  A tap whose entry in the indirection buffer is the [zero] pointer
    keeps that pointer when the kernel loads its row pointers, still points
    into the zero buffer, [8 * t] bytes further, after the [t] full tiles of a
    pixel, and contributes nothing to the accumulator of a channel whose byte
    in the zero buffer is 0: its term is 0 whatever the weight, and the
    accumulator of the tile is the bias plus the terms of the other taps,
    modulo [2^32]. *)
Theorem zero_tap_contributes_nothing
    (params : xnn_qs8_gemm_params) (s : state)
    (input zero input_offset weights output : Z) (t k : nat) (j : Z) :
  (k < 9)%nat -> 0 <= j < 8 -> 0 <= weights < 2 ^ 64 -> 0 <= output < 2 ^ 64 ->
  bytes_at (bytes s) 8 (size_add input (8 * Z.of_nat k)) = zero ->
  exists i0 s1,
    load_tap_pointers input zero input_offset 0 9 s = Some (i0, s1)
    /\ nth_error i0 k = Some zero
    /\ forall channels, 0 < channels < 2 ^ 64 -> channels / 8 = Z.of_nat t ->
         exists l s2,
           for_ge (Z.to_nat channels) 8 (full_tile params) channels
                  {| i := i0; w := weights; output := output |} s1
           = Some ((channels mod 8, l), s2)
           /\ nth_error (i l) k = Some (size_add zero (8 * Z.of_nat t))
           /\ forall s', bytes s' (size_add zero (8 * Z.of_nat t) + j) = 0 ->
                let terms := tap_terms (bytes s') (w l) 0 (i l) j in
                nth_error terms k = Some 0
                /\ exists vacc s'',
                     accumulate (w l) (i l) s' = Some (vacc, s'')
                     /\ lane 32 j vacc
                        = (lane 32 j (bytes_at (bytes s') 32 (w l))
                           + sum (drop_nth k terms)) mod 2 ^ 32.
Proof.
  intros Hk Hj Hw Ho Hentry.
  set (i0 := tap_pointers (bytes s) input zero input_offset).
  assert (H0 : nth_error i0 k = Some zero).
  { unfold i0, tap_pointers.
    rewrite nth_error_map.
    rewrite (nth_error_nth' (seq 0 9) 0%nat) by (rewrite length_seq; exact Hk).
    rewrite seq_nth by exact Hk. cbn [option_map Nat.add].
    rewrite Hentry. unfold resolve. rewrite Z.eqb_refl. reflexivity. }
  eexists i0, _. split; [apply tap_pointers_run|]. split; [exact H0|].
  intros channels Hch Ht.
  destruct (tile_count channels ltac:(lia)) as (Hsplit & Hc & _).
  rewrite Ht, Nat2Z.id in Hsplit.
  destruct (full_tiles_run params i0 weights output t (channels mod 8)
              (Z.to_nat channels)
              (log_add s (map (fun q => Load (size_add input (8 * Z.of_nat q)) 8) (seq 0 9)))
              Hc ltac:(lia) ltac:(lia) (tap_pointers_range _ _ _ _) Hw Ho)
    as (s2 & Hloop & _).
  rewrite <- Hsplit in Hloop.
  set (l := tile_locals i0 weights output t) in *.
  exists l, s2. split; [exact Hloop|].
  assert (Hi : nth_error (i l) k = Some (size_add zero (8 * Z.of_nat t))).
  { unfold l, tile_locals. cbn [i]. rewrite nth_error_map, H0. reflexivity. }
  split; [exact Hi|].
  intros s' Hzero terms.
  assert (Hterm : nth_error terms k = Some 0).
  { unfold terms. rewrite (nth_error_tap_terms _ _ _ _ _ _ _ Hi).
    unfold tap_term. rewrite Hzero. reflexivity. }
  split; [exact Hterm|].
  eexists. eexists. split; [apply accumulate_run|].
  rewrite acc_value_lane by assumption. fold terms.
  rewrite (sum_drop_nth terms k 0 Hterm). reflexivity.
Qed.

Lemma zero_tap_contributes_nothing_witness :
  let mem := fun x =>
    if (2032 <=? x) && (x <? 2040) then lane 8 (x - 2032) 7000
    else if (7000 <=? x) && (x <? 7100) then 0 else 1 + x mod 3 in
  let s0 := {| bytes := mem; log := [] |} in
  let params := broadcast_params (2 ^ 30) (2 ^ 30) 0 0 0 0 (-128) 127 in
  exists i0 s1 l s2,
    load_tap_pointers 2000 7000 500 0 9 s0 = Some (i0, s1)
    /\ nth_error i0 4 = Some 7000
    /\ for_ge 11 8 (full_tile params) 11 {| i := i0; w := 1000; output := 3000 |} s1
       = Some ((3, l), s2)
    /\ nth_error (i l) 4 = Some 7008
    /\ nth_error (tap_terms mem (w l) 0 (i l) 3) 4 = Some 0
    /\ exists vacc s'',
         accumulate (w l) (i l) s0 = Some (vacc, s'')
         /\ lane 32 3 vacc
            = (lane 32 3 (bytes_at mem 32 (w l))
               + sum (drop_nth 4 (tap_terms mem (w l) 0 (i l) 3))) mod 2 ^ 32.
Proof.
  intros mem s0 params.
  destruct (zero_tap_contributes_nothing params s0 2000 7000 500 1000 3000 1 4 3
              ltac:(lia) ltac:(lia) ltac:(lia) ltac:(lia) ltac:(vm_compute; reflexivity))
    as (i0 & s1 & Hload & Hnth & Htiles).
  destruct (Htiles 11 ltac:(lia) ltac:(reflexivity)) as (l & s2 & Hloop & Hl & Hacc).
  destruct (Hacc s0 ltac:(vm_compute; reflexivity)) as (Hterm & vacc & s'' & Hrun & Hlane).
  exists i0, s1, l, s2.
  split; [exact Hload|]. split; [exact Hnth|]. split; [exact Hloop|].
  split; [exact Hl|]. split; [exact Hterm|].
  exists vacc, s''. split; [exact Hrun|exact Hlane].
Defined.

(** C8.  For every pixel (column) [p] of a call and every tap [k], the
    kernel reads entry [k] of the pixel's indirection entries and compares it
    with [zero]: an entry that differs is moved by [input_offset], an entry
    that is equal is kept.  Tile [t] then loads the 8 inputs of tap [k] at
    that pointer plus [8 * t].  [st p] is the state in which pixel [p] starts:
    [st 0] is the state of the call, the body of the loop takes [st p] to
    [st (S p)], and the call ends in the state after the last pixel. *)
Theorem taps_read_at_offset_unless_zero
    (channels output_width input weights output input_stride output_increment
     input_offset zero : Z) (params : xnn_qs8_gemm_params) (s : state) :
  0 < channels < 2 ^ 64 -> 0 < output_width < 2 ^ 64 ->
  0 <= input < 2 ^ 64 -> 0 <= weights < 2 ^ 64 -> 0 <= output < 2 ^ 64 ->
  let a := {| channels := channels; weights := weights; input_stride := input_stride;
              output_increment := output_increment; input_offset := input_offset;
              zero := zero; params := params |} in
  let io (p : nat) := (size_add input (Z.of_nat p * input_stride),
                       size_add output (Z.of_nat p * (channels + output_increment))) in
  exists st : nat -> state,
    st 0%nat = s
    /\ xnn_qs8_dwconv_minmax_ukernel_up8x9__avx2_mul32 channels output_width input weights
         output input_stride output_increment input_offset zero params s
       = Some (tt, st (Z.to_nat output_width))
    /\ forall p, (p < Z.to_nat output_width)%nat ->
         let input_p := size_add input (Z.of_nat p * input_stride) in
         let entry k := bytes_at (bytes (st p)) 8 (size_add input_p (8 * Z.of_nat k)) in
         let pointer k :=
           if negb (entry k =? zero) then size_add (entry k) input_offset else entry k in
         pixel a (io p) (st p) = Some (io (S p), st (S p))
         /\ load_shapes (log (st (S p)))
            = load_shapes (log (st p))
              ++ map (fun k => (size_add input_p (8 * Z.of_nat k), 8%nat)) (seq 0 9)
              ++ flat_map
                   (fun t =>
                      let w := size_add weights (104 * Z.of_nat t) in
                      (w, 32%nat)
                      :: flat_map (fun k => [(size_add (pointer k) (8 * Z.of_nat t), 8%nat);
                                             (size_add w (32 + 8 * Z.of_nat k), 8%nat)])
                                  (seq 0 9))
                   (seq 0 (Z.to_nat ((channels + 7) / 8))).
Proof.
  intros Hch Hwd Hin Hw Hout a io.
  destruct (kernel_pixels channels output_width input weights output input_stride
              output_increment input_offset zero params s Hch Hwd Hin Hw Hout)
    as (st & H0 & Hrun & Hp).
  exists st. split; [exact H0|]. split; [exact Hrun|].
  intros p Hlt input_p entry pointer.
  specialize (Hp p Hlt). split; [exact Hp|].
  match type of Hp with pixel ?a (?i, ?o) _ = _ =>
    destruct (pixel_run a i o (st p)) as (s' & Hrun' & Hloads & _);
      [assumption | assumption | apply size_add_range |] end.
  rewrite Hrun' in Hp. injection Hp as _ _ <-.
  rewrite Hloads. reflexivity.
Qed.

Lemma taps_read_at_offset_unless_zero_witness :
  let mem := fun x =>
    if (2032 <=? x) && (x <? 2040) then lane 8 (x - 2032) 7000
    else if (2000 <=? x) && (x <? 2072) then lane 8 ((x - 2000) mod 8) 5000
    else if (2088 <=? x) && (x <? 2096) then lane 8 (x - 2088) 7000
    else if (2072 <=? x) && (x <? 2144) then lane 8 ((x - 2072) mod 8) 6000
    else 0 in
  let s0 := {| bytes := mem; log := [] |} in
  let params := broadcast_params (2 ^ 30) (2 ^ 30) 0 0 0 0 (-128) 127 in
  exists s',
    xnn_qs8_dwconv_minmax_ukernel_up8x9__avx2_mul32 3 2 2000 1000 3000 72 0 500 7000
      params s0 = Some (tt, s')
    /\ load_shapes (log s')
       = [(2000, 8%nat); (2008, 8%nat); (2016, 8%nat); (2024, 8%nat); (2032, 8%nat);
          (2040, 8%nat); (2048, 8%nat); (2056, 8%nat); (2064, 8%nat);
          (1000, 32%nat);
          (5500, 8%nat); (1032, 8%nat); (5500, 8%nat); (1040, 8%nat);
          (5500, 8%nat); (1048, 8%nat); (5500, 8%nat); (1056, 8%nat);
          (7000, 8%nat); (1064, 8%nat); (5500, 8%nat); (1072, 8%nat);
          (5500, 8%nat); (1080, 8%nat); (5500, 8%nat); (1088, 8%nat);
          (5500, 8%nat); (1096, 8%nat);
          (2072, 8%nat); (2080, 8%nat); (2088, 8%nat); (2096, 8%nat); (2104, 8%nat);
          (2112, 8%nat); (2120, 8%nat); (2128, 8%nat); (2136, 8%nat);
          (1000, 32%nat);
          (6500, 8%nat); (1032, 8%nat); (6500, 8%nat); (1040, 8%nat);
          (7000, 8%nat); (1048, 8%nat); (6500, 8%nat); (1056, 8%nat);
          (6500, 8%nat); (1064, 8%nat); (6500, 8%nat); (1072, 8%nat);
          (6500, 8%nat); (1080, 8%nat); (6500, 8%nat); (1088, 8%nat);
          (6500, 8%nat); (1096, 8%nat)].
Proof.
  intros mem s0 params.
  destruct (taps_read_at_offset_unless_zero 3 2 2000 1000 3000 72 0 500 7000 params s0
              ltac:(lia) ltac:(lia) ltac:(lia) ltac:(lia) ltac:(lia))
    as (st & H0 & Hrun & Hp).
  exists (st 2%nat). split; [exact Hrun|].
  destruct (Hp 0%nat ltac:(vm_compute; lia)) as (Hpix0 & Hl0).
  destruct (Hp 1%nat ltac:(vm_compute; lia)) as (_ & Hl1).
  rewrite H0 in Hpix0.
  (* the entries of the second pixel, read in the state the first pixel leaves *)
  assert (E : match pixel {| channels := 3; weights := 1000; input_stride := 72;
                             output_increment := 0; input_offset := 500; zero := 7000;
                             params := params |}
                          (size_add 2000 (Z.of_nat 0 * 72), size_add 3000 (Z.of_nat 0 * (3 + 0)))
                          s0 with
              | Some (_, s1) =>
                  map (fun k => bytes_at (bytes s1) 8
                                  (size_add (size_add 2000 (Z.of_nat 1 * 72))
                                            (8 * Z.of_nat k))) (seq 0 9)
                  = [6000; 6000; 7000; 6000; 6000; 6000; 6000; 6000; 6000]
              | None => False
              end) by (vm_compute; reflexivity).
  rewrite Hpix0 in E.
  assert (Ek : forall k v,
             nth_error [6000; 6000; 7000; 6000; 6000; 6000; 6000; 6000; 6000] k = Some v ->
             bytes_at (bytes (st 1%nat)) 8
               (size_add (size_add 2000 (Z.of_nat 1 * 72)) (8 * Z.of_nat k)) = v).
  { intros k v Hv. rewrite <- E in Hv.
    rewrite nth_error_map in Hv.
    destruct (nth_error (seq 0 9) k) as [k'|] eqn:Hk; [|discriminate].
    assert (k' = k) as ->.
    { pose proof (nth_error_nth _ _ 0%nat Hk) as Hn.
      assert (Hlt : (k < 9)%nat).
      { assert (Hs : nth_error (seq 0 9) k <> None) by (rewrite Hk; discriminate).
        apply nth_error_Some in Hs. rewrite length_seq in Hs. exact Hs. }
      rewrite seq_nth in Hn by exact Hlt. symmetry. exact Hn. }
    injection Hv as <-. reflexivity. }
  rewrite Hl1, Hl0, H0. cbv zeta.
  change (Z.to_nat ((3 + 7) / 8)) with 1%nat. cbn [seq flat_map map app].
  rewrite (Ek 0%nat 6000 eq_refl), (Ek 1%nat 6000 eq_refl), (Ek 2%nat 7000 eq_refl),
    (Ek 3%nat 6000 eq_refl), (Ek 4%nat 6000 eq_refl), (Ek 5%nat 6000 eq_refl),
    (Ek 6%nat 6000 eq_refl), (Ek 7%nat 6000 eq_refl), (Ek 8%nat 6000 eq_refl).
  vm_compute. reflexivity.
Defined.

End DWConvSpec.

(** * The depth-to-space kernel *)

Module DepthToSpaceSpec.
Import Bits BitsFacts Mem MemFacts DWConvTrace DWConvFacts.
Import DepthToSpace DepthToSpaceTrace DepthToSpaceFacts.

Lemma index_bounds C H W B iy by_ ix bx c :
  In (iy, (by_, (ix, (bx, c)))) (indices C H W B) ->
  0 <= Z.of_nat iy < H /\ 0 <= Z.of_nat by_ < B /\ 0 <= Z.of_nat ix < W
  /\ 0 <= Z.of_nat bx < B /\ 0 <= Z.of_nat c < C.
Proof. intros Hin. apply in_indices in Hin. lia. Qed.

Lemma index_of_bounds C H W B iy by_ ix bx c :
  0 <= iy < H -> 0 <= by_ < B -> 0 <= ix < W -> 0 <= bx < B -> 0 <= c < C ->
  In (Z.to_nat iy, (Z.to_nat by_, (Z.to_nat ix, (Z.to_nat bx, Z.to_nat c))))
     (indices C H W B).
Proof. intros. apply in_indices. lia. Qed.

(** C10 (amended).  For positive sizes the kernel performs, for every index
    [(iy, by, ix, bx, c)] within the bounds and in the order of its loops, one
    4-byte copy from [input + input_offset] to [output + output_offset]
    (addresses modulo [2^64]), and nothing else.  When the output elements of
    distinct indices share no byte, and no output element shares a byte with
    an input element, every output element ends up equal to its input
    element, each is written once, and every other byte is unchanged. *)
Theorem depth_to_space_moves_every_element
    (C H W B input output ics ihs ohs ows : Z) (s : state) :
  0 < C < 2 ^ 64 -> 0 < H < 2 ^ 64 -> 0 < W < 2 ^ 64 -> 0 < B < 2 ^ 64 ->
  0 <= input < 2 ^ 64 -> 0 <= output < 2 ^ 64 ->
  let src := source B input ics ihs in
  let dst := destination B output ohs ows in
  let valid iy by_ ix bx c :=
    0 <= iy < H /\ 0 <= by_ < B /\ 0 <= ix < W /\ 0 <= bx < B /\ 0 <= c < C in
  exists s',
    xnn_x32_depth_to_space_chw2hwc_ukernel__scalar_c1_ib2 C H W B input output
      ics ihs ohs ows s = Some (tt, s')
    /\ s' = copies (map (move B input output ics ihs ohs ows) (indices C H W B)) s
    /\ store_shapes (log s')
       = store_shapes (log s)
         ++ map (fun t => (snd (move B input output ics ihs ohs ows t), 4%nat))
                (indices C H W B)
    /\ ((forall iy by_ ix bx c iy' by' ix' bx' c',
           valid iy by_ ix bx c -> valid iy' by' ix' bx' c' ->
           (iy, by_, ix, bx, c) <> (iy', by', ix', bx', c') ->
           apart (dst iy by_ ix bx c) (dst iy' by' ix' bx' c')) ->
        (forall iy by_ ix bx c iy' by' ix' bx' c',
           valid iy by_ ix bx c -> valid iy' by' ix' bx' c' ->
           apart (dst iy by_ ix bx c) (src iy' by' ix' bx' c')) ->
        (forall iy by_ ix bx c, valid iy by_ ix bx c ->
           bytes_at (bytes s') 4 (dst iy by_ ix bx c)
           = bytes_at (bytes s) 4 (src iy by_ ix bx c))
        /\ (forall x,
              (forall iy by_ ix bx c, valid iy by_ ix bx c ->
                 ~ (dst iy by_ ix bx c <= x < dst iy by_ ix bx c + 4)) ->
              bytes s' x = bytes s x)
        /\ NoDup (map (fun t => snd (move B input output ics ihs ohs ows t))
                      (indices C H W B))).
Proof.
  intros HC HH HW HB Hi Ho src dst valid.
  set (mv := move B input output ics ihs ohs ows).
  exists (copies (map mv (indices C H W B)) s).
  split; [|split; [reflexivity|split]].
  { rewrite kernel_run by assumption. f_equal. f_equal. f_equal.
    apply map_ext. intros t. apply move_all_move. }
  { rewrite copies_log, map_map. reflexivity. }
  intros Hoo Hoi.
  assert (Hmv : forall iy by_ ix bx c,
            mv (iy, (by_, (ix, (bx, c))))
            = (src (Z.of_nat iy) (Z.of_nat by_) (Z.of_nat ix) (Z.of_nat bx) (Z.of_nat c),
               dst (Z.of_nat iy) (Z.of_nat by_) (Z.of_nat ix) (Z.of_nat bx) (Z.of_nat c)))
    by reflexivity.
  assert (Hval : forall iy by_ ix bx c, In (iy, (by_, (ix, (bx, c)))) (indices C H W B) ->
            valid (Z.of_nat iy) (Z.of_nat by_) (Z.of_nat ix) (Z.of_nat bx) (Z.of_nat c))
    by (intros; apply index_bounds; assumption).
  assert (Hdist : forall iy by_ ix bx c iy' by' ix' bx' c',
            In (iy, (by_, (ix, (bx, c)))) (indices C H W B) ->
            In (iy', (by', (ix', (bx', c')))) (indices C H W B) ->
            (iy, (by_, (ix, (bx, c)))) <> (iy', (by', (ix', (bx', c')))) ->
            apart (dst (Z.of_nat iy) (Z.of_nat by_) (Z.of_nat ix) (Z.of_nat bx) (Z.of_nat c))
                  (dst (Z.of_nat iy') (Z.of_nat by') (Z.of_nat ix') (Z.of_nat bx')
                       (Z.of_nat c'))).
  { intros iy by_ ix bx c iy' by' ix' bx' c' Ha Hb Hne.
    apply Hoo; [apply Hval; assumption..|].
    intros E. apply Hne. injection E as E1 E2 E3 E4 E5.
    apply Nat2Z.inj in E1, E2, E3, E4, E5. subst. reflexivity. }
  assert (Hpair : ForallOrdPairs (fun m m' => apart (snd m) (snd m'))
                    (map mv (indices C H W B))).
  { apply ForallOrdPairs_map; [apply NoDup_indices|].
    intros (iy & by_ & ix & bx & c) (iy' & by' & ix' & bx' & c') Ha Hb Hne.
    rewrite !Hmv. cbn [snd]. apply Hdist; assumption. }
  assert (Hcross : forall m m', In m (map mv (indices C H W B)) ->
                     In m' (map mv (indices C H W B)) -> apart (snd m) (fst m')).
  { intros m m' Hm Hm'. apply in_map_iff in Hm, Hm'.
    destruct Hm as ((iy & by_ & ix & bx & c) & <- & Ha).
    destruct Hm' as ((iy' & by' & ix' & bx' & c') & <- & Hb).
    rewrite !Hmv. cbn [fst snd]. apply Hoi; apply Hval; assumption. }
  split; [|split].
  - intros iy by_ ix bx c (V1 & V2 & V3 & V4 & V5).
    pose proof (index_of_bounds C H W B iy by_ ix bx c V1 V2 V3 V4 V5) as Hin.
    pose proof (copies_moved _ s Hpair Hcross _ (in_map mv _ _ Hin)) as Hm.
    rewrite Hmv in Hm. cbn [fst snd] in Hm.
    rewrite !Z2Nat.id in Hm by lia. exact Hm.
  - intros x Hx. apply copies_frame. intros m Hm. apply in_map_iff in Hm.
    destruct Hm as ((iy & by_ & ix & bx & c) & <- & Ha).
    rewrite Hmv. cbn [snd]. apply Hx. apply Hval. assumption.
  - apply NoDup_iff_ForallOrdPairs.
    apply ForallOrdPairs_map; [apply NoDup_indices|].
    intros (iy & by_ & ix & bx & c) (iy' & by' & ix' & bx' & c') Ha Hb Hne.
    fold mv. rewrite !Hmv. cbn [snd].
    pose proof (Hdist _ _ _ _ _ _ _ _ _ _ Ha Hb Hne) as Hap.
    unfold apart in Hap. lia.
Qed.

Ltac eval_apart :=
  match goal with
  | |- apart ?a ?b =>
      let a' := eval vm_compute in a in
      let b' := eval vm_compute in b in
      change (apart a' b'); unfold apart; lia
  end.

Ltac split_block_index v :=
  let H := fresh in
  assert (H : v = 0 \/ v = 1) by lia; destruct H; subst v.

Lemma depth_to_space_moves_every_element_witness :
  let s0 := {| bytes := fun x => x mod 251; log := [] |} in
  exists s',
    xnn_x32_depth_to_space_chw2hwc_ukernel__scalar_c1_ib2 1 1 1 2 1000 2000 4 4 8 4 s0
    = Some (tt, s')
    /\ bytes_at (bytes s') 4 2012 = bytes_at (bytes s0) 4 1012
    /\ bytes s' 2016 = bytes s0 2016
    /\ store_shapes (log s')
       = [(2000, 4%nat); (2004, 4%nat); (2008, 4%nat); (2012, 4%nat)].
Proof.
  intros s0.
  destruct (depth_to_space_moves_every_element 1 1 1 2 1000 2000 4 4 8 4 s0
              ltac:(lia) ltac:(lia) ltac:(lia) ltac:(lia) ltac:(lia) ltac:(lia))
    as (s' & Hrun & _ & Hlog & Hlayout).
  destruct Hlayout as (Hval & Hframe & _).
  - intros iy by_ ix bx c iy' by' ix' bx' c' (V1 & V2 & V3 & V4 & V5)
      (V1' & V2' & V3' & V4' & V5') Hne.
    assert (iy = 0) by lia. assert (ix = 0) by lia. assert (c = 0) by lia.
    assert (iy' = 0) by lia. assert (ix' = 0) by lia. assert (c' = 0) by lia. subst.
    split_block_index by_; split_block_index bx; split_block_index by';
      split_block_index bx'; try (exfalso; apply Hne; reflexivity); eval_apart.
  - intros iy by_ ix bx c iy' by' ix' bx' c' (V1 & V2 & V3 & V4 & V5)
      (V1' & V2' & V3' & V4' & V5').
    assert (iy = 0) by lia. assert (ix = 0) by lia. assert (c = 0) by lia.
    assert (iy' = 0) by lia. assert (ix' = 0) by lia. assert (c' = 0) by lia. subst.
    split_block_index by_; split_block_index bx; split_block_index by';
      split_block_index bx'; eval_apart.
  - exists s'. split; [exact Hrun|]. split; [|split].
    + apply (Hval 0 1 0 1 0). lia.
    + apply Hframe. intros iy by_ ix bx c (V1 & V2 & V3 & V4 & V5).
      assert (iy = 0) by lia. assert (ix = 0) by lia. assert (c = 0) by lia. subst.
      split_block_index by_; split_block_index bx;
        match goal with
        | |- ~ (?a <= _ < _) => let a' := eval vm_compute in a in change a with a'
        end; lia.
    + rewrite Hlog. reflexivity.
Defined.

(** C10, as stated, fails when two indices share an output element: with
    [output_width_stride = 0] and [block_size = 2] the indices [bx = 0] and
    [bx = 1] have the same output offset; the element is written twice and
    keeps the input element of [bx = 1]. *)
Lemma depth_to_space_counterexample :
  let s0 := {| bytes := fun x => x mod 251; log := [] |} in
  match xnn_x32_depth_to_space_chw2hwc_ukernel__scalar_c1_ib2 1 1 1 2 1000 2000 4 4 8 0 s0
  with
  | Some (_, s') =>
      bytes_at (bytes s') 4 (2000 + output_offset 2 8 0 0 0 0 0 0)
      <> bytes_at (bytes s0) 4 (1000 + DepthToSpaceTrace.input_offset 2 4 4 0 0 0 0 0)
      /\ store_shapes (log s')
         = [(2000, 4%nat); (2000, 4%nat); (2008, 4%nat); (2008, 4%nat)]
  | None => False
  end.
Proof. vm_compute. split; [intros H; discriminate H | reflexivity]. Qed.

End DepthToSpaceSpec.

(** * The tester of the depth-to-space operator *)

Module TesterFacts.
Import Mem MemFacts DepthToSpaceFacts Tester.

(** ** Arithmetic of mixed-radix positions *)

Lemma digit_bound q r m n : 0 <= q < m -> 0 <= r < n -> 0 <= q * n + r < m * n.
Proof. intros. nia. Qed.

Lemma digit_inj q r q' r' n :
  0 <= r < n -> 0 <= r' < n -> q * n + r = q' * n + r' -> q = q' /\ r = r'.
Proof.
  intros Hr Hr' E.
  assert (q = q') by (destruct (Z.lt_trichotomy q q') as [L|[L|L]]; [nia|assumption|nia]).
  subst q'. lia.
Qed.

Lemma map_add_seq a n : map (fun k => (a + k)%nat) (seq 0 n) = seq a n.
Proof.
  revert a. induction n as [|n IH]; intros a; [reflexivity|].
  cbn [seq map]. rewrite Nat.add_0_r. f_equal.
  rewrite <- seq_shift, map_map, <- (IH (S a)).
  apply map_ext. intros k. lia.
Qed.

(** Positions formed from a leading digit and a position among [n]: the
    pairs of a product, in its order, are numbered consecutively. *)
Lemma rank_prod {A : Type} (l : list A) (g : A -> Z) (n : nat) : forall m s,
  map g l = map Z.of_nat (seq 0 n) ->
  map (fun p => Z.of_nat (fst p) * Z.of_nat n + g (snd p)) (list_prod (seq s m) l)
  = map Z.of_nat (seq (s * n) (m * n)).
Proof.
  induction m as [|m IH]; intros s Hg; [reflexivity|].
  cbn [seq list_prod]. rewrite map_app, map_map. cbn [fst snd].
  rewrite (IH (S s) Hg).
  replace (S m * n)%nat with (n + m * n)%nat by lia.
  rewrite seq_app, map_app. f_equal.
  - rewrite <- (map_add_seq (s * n) n), map_map.
    rewrite <- (map_map g (fun k => Z.of_nat s * Z.of_nat n + k)), Hg, map_map.
    apply map_ext. intros k. lia.
  - f_equal. f_equal. lia.
Qed.

(** ** The fields of a tester that was built *)

Lemma set_bounds t :
  built t ->
  1 <= input_height t < 2 ^ 64 /\ 1 <= input_width t < 2 ^ 64
  /\ 1 <= output_channels t < 2 ^ 64 /\ 2 <= block_size t < 2 ^ 64
  /\ 1 <= batch_size t < 2 ^ 64 /\ 0 <= iterations t < 2 ^ 64.
Proof.
  unfold input_height, input_width, output_channels, block_size, batch_size, iterations.
  induction 1 as [|t h w t' _ IH Hh Hw E|t h t' _ IH Hh E|t w t' _ IH Hw E
                  |t b t' _ IH Hb E|t c t' _ IH Hc E|t n t' _ IH Hn E|t n t' _ IH Hn E].
  - cbn. lia.
  - unfold set_input_size in E.
    destruct (Z.geb_spec h 1); destruct (Z.geb_spec w 1); cbn in E; try discriminate.
    injection E as <-. cbn. lia.
  - unfold set_input_height in E.
    destruct (Z.geb_spec h 1); try discriminate. injection E as <-. cbn. lia.
  - unfold set_input_width in E.
    destruct (Z.geb_spec w 1); try discriminate. injection E as <-. cbn. lia.
  - unfold set_block_size in E.
    destruct (Z.geb_spec b 2); try discriminate. injection E as <-. cbn. lia.
  - unfold set_output_channels in E.
    destruct (Z.eqb_spec c 0); try discriminate. injection E as <-. cbn. lia.
  - unfold set_batch_size in E.
    destruct (Z.eqb_spec n 0); try discriminate. injection E as <-. cbn. lia.
  - unfold set_iterations in E. injection E as <-. cbn. lia.
Qed.

Lemma in_tester_indices t i iy by_ ix bx oc :
  In (i, (iy, (by_, (ix, (bx, oc))))) (loop_indices t)
  <-> (i < Z.to_nat (batch_size t) /\ iy < Z.to_nat (input_height t)
       /\ by_ < Z.to_nat (block_size t) /\ ix < Z.to_nat (input_width t)
       /\ bx < Z.to_nat (block_size t) /\ oc < Z.to_nat (output_channels t))%nat.
Proof.
  unfold loop_indices. rewrite !in_prod_iff, !in_seq. lia.
Qed.

Lemma NoDup_tester_indices t : NoDup (loop_indices t).
Proof. unfold loop_indices. repeat apply NoDup_prod; apply seq_NoDup. Qed.

(** ** The offsets without wrap-around *)

Ltac size_exact :=
  unfold size_add, size_mul;
  let Heq := fresh in let Hadd := fresh in let Hmul := fresh in
  pose proof (Zdiv.eqm_setoid (2 ^ 64)) as Heq;
  pose proof (Zdiv.Zplus_eqm (2 ^ 64)) as Hadd;
  pose proof (Zdiv.Zmult_eqm (2 ^ 64)) as Hmul;
  match goal with |- ?x mod _ = ?y mod _ => change (Zdiv.eqm (2 ^ 64) x y) end;
  repeat setoid_rewrite Zdiv.Zmod_eqm;
  match goal with |- Zdiv.eqm _ ?x ?y => replace x with y by ring end;
  reflexivity.

Lemma output_vector_size_exact t :
  output_vector_size t
  = (batch_size t * (input_height t * block_size t) * (input_width t * block_size t)
     * output_channels t) mod 2 ^ 64.
Proof.
  unfold output_vector_size, output_height, output_width. size_exact.
Qed.

Lemma input_vector_size_exact X t :
  input_vector_size X t
  = (batch_size t * (input_height t * block_size t) * (input_width t * block_size t)
     * output_channels t + X / 4) mod 2 ^ 64.
Proof.
  unfold input_vector_size, input_channels. size_exact.
Qed.

Lemma output_offset_exact t i iy by_ ix bx oc :
  output_offset t i iy by_ ix bx oc
  = (((((i * input_height t + iy) * block_size t + by_) * input_width t + ix)
       * block_size t + bx) * output_channels t + oc) mod 2 ^ 64.
Proof.
  unfold output_offset, output_height, output_width, output_height_stride,
    output_width_stride, output_width.
  size_exact.
Qed.

Lemma input_offset_exact t i iy by_ ix bx oc :
  input_offset t i iy by_ ix bx oc
  = (((((i * output_channels t + oc) * block_size t + by_) * block_size t + bx)
       * input_height t + iy) * input_width t + ix) mod 2 ^ 64.
Proof.
  unfold input_offset, input_channels, input_channel_stride, input_height_stride.
  size_exact.
Qed.


(** The number of elements of a tensor, without wrap-around. *)
Lemma elements_nat t :
  built t ->
  batch_size t * input_height t * block_size t * input_width t * block_size t
  * output_channels t < 2 ^ 64 ->
  Z.to_nat (output_vector_size t)
  = (Z.to_nat (batch_size t)
     * (Z.to_nat (input_height t)
        * (Z.to_nat (block_size t)
           * (Z.to_nat (input_width t)
              * (Z.to_nat (block_size t) * Z.to_nat (output_channels t))))))%nat.
Proof.
  intros Hb Hn. pose proof (set_bounds t Hb) as (HH & HW & HC & HB & HN & _).
  rewrite output_vector_size_exact, Z.mod_small by nia.
  rewrite <- !Z2Nat.inj_mul by nia. f_equal. ring.
Qed.

Lemma output_offset_small t i iy by_ ix bx oc :
  built t ->
  batch_size t * input_height t * block_size t * input_width t * block_size t
  * output_channels t < 2 ^ 64 ->
  0 <= i < batch_size t -> 0 <= iy < input_height t -> 0 <= by_ < block_size t ->
  0 <= ix < input_width t -> 0 <= bx < block_size t -> 0 <= oc < output_channels t ->
  let e := ((((i * input_height t + iy) * block_size t + by_) * input_width t + ix)
              * block_size t + bx) * output_channels t + oc in
  output_offset t i iy by_ ix bx oc = e
  /\ 0 <= e < batch_size t * input_height t * block_size t * input_width t * block_size t
              * output_channels t.
Proof.
  intros Hb Hn Hi Hiy Hby Hix Hbx Hoc e.
  pose proof (digit_bound _ _ _ _ Hi Hiy) as D1.
  pose proof (digit_bound _ _ _ _ D1 Hby) as D2.
  pose proof (digit_bound _ _ _ _ D2 Hix) as D3.
  pose proof (digit_bound _ _ _ _ D3 Hbx) as D4.
  pose proof (digit_bound _ _ _ _ D4 Hoc) as D5.
  split; [|exact D5].
  rewrite output_offset_exact. apply Z.mod_small. fold e. lia.
Qed.

Lemma input_offset_small t i iy by_ ix bx oc :
  built t ->
  batch_size t * input_height t * block_size t * input_width t * block_size t
  * output_channels t < 2 ^ 64 ->
  0 <= i < batch_size t -> 0 <= iy < input_height t -> 0 <= by_ < block_size t ->
  0 <= ix < input_width t -> 0 <= bx < block_size t -> 0 <= oc < output_channels t ->
  let e := ((((i * output_channels t + oc) * block_size t + by_) * block_size t + bx)
              * input_height t + iy) * input_width t + ix in
  input_offset t i iy by_ ix bx oc = e
  /\ 0 <= e < batch_size t * output_channels t * block_size t * block_size t
              * input_height t * input_width t.
Proof.
  intros Hb Hn Hi Hiy Hby Hix Hbx Hoc e.
  pose proof (digit_bound _ _ _ _ Hi Hoc) as D1.
  pose proof (digit_bound _ _ _ _ D1 Hby) as D2.
  pose proof (digit_bound _ _ _ _ D2 Hbx) as D3.
  pose proof (digit_bound _ _ _ _ D3 Hiy) as D4.
  pose proof (digit_bound _ _ _ _ D4 Hix) as D5.
  split; [|exact D5].
  rewrite input_offset_exact. apply Z.mod_small. fold e.
  replace (batch_size t * output_channels t * block_size t * block_size t
           * input_height t * input_width t)
    with (batch_size t * input_height t * block_size t * input_width t * block_size t
          * output_channels t) in D5 by ring.
  lia.
Qed.

End TesterFacts.

(** ** What the verification loop of [TestNCHW2NHWCxF32] covers *)

Module TesterSpec.
Import Mem MemFacts DepthToSpaceFacts Tester TesterFacts.

Lemma index_ranges t i iy by_ ix bx oc :
  built t ->
  In (i, (iy, (by_, (ix, (bx, oc))))) (loop_indices t) ->
  0 <= Z.of_nat i < batch_size t /\ 0 <= Z.of_nat iy < input_height t
  /\ 0 <= Z.of_nat by_ < block_size t /\ 0 <= Z.of_nat ix < input_width t
  /\ 0 <= Z.of_nat bx < block_size t /\ 0 <= Z.of_nat oc < output_channels t.
Proof.
  intros Hb Hin. apply in_tester_indices in Hin. lia.
Qed.

(** A tester that a test can build has positive sizes and a block size of at
    least 2, each a [size_t] value: the setters keep what their [assert]s
    check, and the default members satisfy it. *)
Theorem built_tester_has_positive_sizes (t : DepthToSpaceOperatorTester) :
  built t ->
  1 <= input_height t < 2 ^ 64 /\ 1 <= input_width t < 2 ^ 64
  /\ 1 <= output_channels t < 2 ^ 64 /\ 2 <= block_size t < 2 ^ 64
  /\ 1 <= batch_size t < 2 ^ 64.
Proof.
  intros Hb. pose proof (set_bounds t Hb) as (HH & HW & HC & HB & HN & _).
  repeat split; lia.
Qed.

Lemma built_tester_has_positive_sizes_witness :
  exists t,
    set_block_size initial 3 = Some t
    /\ 1 <= input_height t < 2 ^ 64 /\ 1 <= input_width t < 2 ^ 64
    /\ 1 <= output_channels t < 2 ^ 64 /\ 2 <= block_size t < 2 ^ 64
    /\ 1 <= batch_size t < 2 ^ 64.
Proof.
  eexists. split; [reflexivity|].
  apply built_tester_has_positive_sizes.
  apply (built_block_size initial 3); [apply built_initial|lia|reflexivity].
Defined.

(** When the element count fits a [size_t], the verification loop visits the
    output offsets 0, 1, 2, ... up to [output.size() - 1] in this order: every
    element of [output] is compared, exactly once. *)
Theorem verification_visits_output_in_order (t : DepthToSpaceOperatorTester) :
  built t ->
  batch_size t * input_height t * block_size t * input_width t * block_size t
  * output_channels t < 2 ^ 64 ->
  map (fun x => snd (offsets t x)) (loop_indices t)
  = map Z.of_nat (seq 0 (Z.to_nat (output_vector_size t))).
Proof.
  intros Hb Hn. pose proof (set_bounds t Hb) as (HH & HW & HC & HB & HN & _).
  rewrite (elements_nat t Hb Hn).
  set (nC := Z.to_nat (output_channels t)).
  set (nB := Z.to_nat (block_size t)).
  set (nW := Z.to_nat (input_width t)).
  set (nH := Z.to_nat (input_height t)).
  set (nN := Z.to_nat (batch_size t)).
  pose proof (rank_prod (seq 0 nC) Z.of_nat nC nB 0 eq_refl) as R4.
  pose proof (rank_prod _ _ _ nW 0 R4) as R3.
  pose proof (rank_prod _ _ _ nB 0 R3) as R2.
  pose proof (rank_prod _ _ _ nH 0 R2) as R1.
  pose proof (rank_prod _ _ _ nN 0 R1) as R0.
  cbn [Nat.mul] in R0. unfold loop_indices. fold nC nB nW nH nN.
  rewrite <- R0. apply map_ext_in.
  intros (i & iy & by_ & ix & bx & oc) Hin.
  apply (index_ranges t) in Hin; [|assumption].
  destruct Hin as (Hi & Hiy & Hby & Hix & Hbx & Hoc).
  cbn [offsets fst snd].
  rewrite (proj1 (output_offset_small t _ _ _ _ _ _ Hb Hn Hi Hiy Hby Hix Hbx Hoc)).
  rewrite !Nat2Z.inj_mul. unfold nC, nB, nW, nH. rewrite !Z2Nat.id by lia. ring.
Qed.

Lemma verification_visits_output_in_order_witness :
  exists t,
    set_input_size initial 2 3 = Some t
    /\ map (fun x => snd (offsets t x)) (loop_indices t)
       = map Z.of_nat (seq 0 (Z.to_nat (output_vector_size t)))
    /\ output_vector_size t = 24.
Proof.
  eexists. split; [reflexivity|]. split; [|reflexivity].
  apply verification_visits_output_in_order.
  - apply (built_input_size initial 2 3); [apply built_initial|lia|lia|reflexivity].
  - vm_compute. reflexivity.
Defined.

(** When the element count fits a [size_t], the input offsets of the
    verification loop are pairwise distinct and are exactly the offsets below
    the element count [output.size()]: every element of [input] but the
    padding is compared, exactly once.  [input.size()] is that count plus the
    padding. *)
Theorem verification_reads_every_input_once
    (XNN_EXTRA_BYTES : Z) (t : DepthToSpaceOperatorTester) :
  built t ->
  batch_size t * input_height t * block_size t * input_width t * block_size t
  * output_channels t < 2 ^ 64 ->
  NoDup (map (fun x => fst (offsets t x)) (loop_indices t))
  /\ (forall e, In e (map (fun x => fst (offsets t x)) (loop_indices t))
                <-> 0 <= e < output_vector_size t)
  /\ input_vector_size XNN_EXTRA_BYTES t
     = size_add (output_vector_size t) (XNN_EXTRA_BYTES / 4).
Proof.
  intros Hb Hn. pose proof (set_bounds t Hb) as (HH & HW & HC & HB & HN & _).
  assert (Hsize : output_vector_size t
                  = batch_size t * output_channels t * block_size t * block_size t
                    * input_height t * input_width t).
  { rewrite output_vector_size_exact, Z.mod_small by nia. ring. }
  assert (Hoff : forall i iy by_ ix bx oc,
            In (i, (iy, (by_, (ix, (bx, oc))))) (loop_indices t) ->
            let e := ((((Z.of_nat i * output_channels t + Z.of_nat oc) * block_size t
                        + Z.of_nat by_) * block_size t + Z.of_nat bx) * input_height t
                      + Z.of_nat iy) * input_width t + Z.of_nat ix in
            fst (offsets t (i, (iy, (by_, (ix, (bx, oc)))))) = e
            /\ 0 <= e < output_vector_size t).
  { intros i iy by_ ix bx oc Hin.
    apply (index_ranges t) in Hin; [|assumption].
    destruct Hin as (Hi & Hiy & Hby & Hix & Hbx & Hoc).
    cbn [offsets fst]. rewrite Hsize.
    exact (input_offset_small t _ _ _ _ _ _ Hb Hn Hi Hiy Hby Hix Hbx Hoc). }
  split; [|split].
  - apply NoDup_iff_ForallOrdPairs.
    apply ForallOrdPairs_map; [apply NoDup_tester_indices|].
    intros (i & iy & by_ & ix & bx & oc) (i' & iy' & by' & ix' & bx' & oc') Ha Hb' Hne E.
    apply Hne.
    pose proof (Hoff _ _ _ _ _ _ Ha) as (Ea & _).
    pose proof (Hoff _ _ _ _ _ _ Hb') as (Eb & _).
    rewrite Ea, Eb in E.
    apply (index_ranges t) in Ha, Hb'; try assumption.
    destruct Ha as (Hi & Hiy & Hby & Hix & Hbx & Hoc).
    destruct Hb' as (Hi' & Hiy' & Hby' & Hix' & Hbx' & Hoc').
    apply digit_inj in E; [|lia|lia]. destruct E as (E & E5).
    apply digit_inj in E; [|lia|lia]. destruct E as (E & E4).
    apply digit_inj in E; [|lia|lia]. destruct E as (E & E3).
    apply digit_inj in E; [|lia|lia]. destruct E as (E & E2).
    apply digit_inj in E; [|lia|lia]. destruct E as (E0 & E1).
    apply Nat2Z.inj in E0, E1, E2, E3, E4, E5. subst. reflexivity.
  - intros e. split.
    + intros Hin. apply in_map_iff in Hin.
      destruct Hin as ((i & iy & by_ & ix & bx & oc) & <- & Hin).
      pose proof (Hoff _ _ _ _ _ _ Hin) as (Ea & Hr). rewrite Ea. exact Hr.
    + intros He. rewrite Hsize in He.
      set (W := input_width t) in *. set (H := input_height t) in *.
      set (B := block_size t) in *. set (C := output_channels t) in *.
      set (N := batch_size t) in *.
      set (e1 := e / W). set (e2 := e1 / H). set (e3 := e2 / B). set (e4 := e3 / B).
      assert (D0 : e = e1 * W + e mod W)
        by (unfold e1; rewrite (Z.mul_comm (e / W)); apply Z.div_mod; lia).
      assert (D1 : e1 = e2 * H + e1 mod H)
        by (unfold e2; rewrite (Z.mul_comm (e1 / H)); apply Z.div_mod; lia).
      assert (D2 : e2 = e3 * B + e2 mod B)
        by (unfold e3; rewrite (Z.mul_comm (e2 / B)); apply Z.div_mod; lia).
      assert (D3 : e3 = e4 * B + e3 mod B)
        by (unfold e4; rewrite (Z.mul_comm (e3 / B)); apply Z.div_mod; lia).
      assert (D4 : e4 = e4 / C * C + e4 mod C)
        by (rewrite (Z.mul_comm (e4 / C)); apply Z.div_mod; lia).
      pose proof (Z.mod_pos_bound e W ltac:(lia)) as M0.
      pose proof (Z.mod_pos_bound e1 H ltac:(lia)) as M1.
      pose proof (Z.mod_pos_bound e2 B ltac:(lia)) as M2.
      pose proof (Z.mod_pos_bound e3 B ltac:(lia)) as M3.
      pose proof (Z.mod_pos_bound e4 C ltac:(lia)) as M4.
      assert (B1 : 0 <= e1 < N * C * B * B * H).
      { unfold e1. split; [apply Z.div_pos; lia|].
        apply Z.div_lt_upper_bound; [lia|]. rewrite Z.mul_comm. lia. }
      assert (B2 : 0 <= e2 < N * C * B * B).
      { unfold e2. split; [apply Z.div_pos; lia|].
        apply Z.div_lt_upper_bound; [lia|]. rewrite Z.mul_comm. lia. }
      assert (B3 : 0 <= e3 < N * C * B).
      { unfold e3. split; [apply Z.div_pos; lia|].
        apply Z.div_lt_upper_bound; [lia|]. rewrite Z.mul_comm. lia. }
      assert (B4 : 0 <= e4 < N * C).
      { unfold e4. split; [apply Z.div_pos; lia|].
        apply Z.div_lt_upper_bound; [lia|]. rewrite Z.mul_comm. lia. }
      assert (B5 : 0 <= e4 / C < N).
      { split; [apply Z.div_pos; lia|].
        apply Z.div_lt_upper_bound; [lia|]. rewrite Z.mul_comm. lia. }
      apply in_map_iff.
      exists (Z.to_nat (e4 / C), (Z.to_nat (e1 mod H), (Z.to_nat (e3 mod B),
               (Z.to_nat (e mod W), (Z.to_nat (e2 mod B), Z.to_nat (e4 mod C)))))).
      assert (Hin : In (Z.to_nat (e4 / C), (Z.to_nat (e1 mod H), (Z.to_nat (e3 mod B),
                         (Z.to_nat (e mod W), (Z.to_nat (e2 mod B), Z.to_nat (e4 mod C))))))
                       (loop_indices t)).
      { apply in_tester_indices. fold W H B C N. lia. }
      split; [|exact Hin].
      pose proof (Hoff _ _ _ _ _ _ Hin) as (Ea & _). rewrite Ea.
      rewrite !Z2Nat.id by lia. fold W H B C. lia.
  - rewrite input_vector_size_exact, output_vector_size_exact.
    unfold size_add. rewrite Zplus_mod_idemp_l. reflexivity.
Qed.

Lemma verification_reads_every_input_once_witness :
  exists t,
    set_input_size initial 2 3 = Some t
    /\ NoDup (map (fun x => fst (offsets t x)) (loop_indices t))
    /\ In 23 (map (fun x => fst (offsets t x)) (loop_indices t))
    /\ input_vector_size 16 t = 28.
Proof.
  eexists. split; [reflexivity|].
  match goal with |- NoDup (map _ (loop_indices ?t)) /\ _ =>
    destruct (verification_reads_every_input_once 16 t) as (Hnd & Hin & Hsz) end.
  - apply (built_input_size initial 2 3); [apply built_initial|lia|lia|reflexivity].
  - vm_compute. reflexivity.
  - split; [exact Hnd|]. split; [|reflexivity].
    apply Hin. vm_compute. split; [discriminate|reflexivity].
Defined.

(** When the element count and the padding fit a [size_t], neither
    [ASSERT_LT] of the verification loop can fail: every input offset is
    below [input.size()] and every output offset below [output.size()], so an
    iteration passes exactly when the two elements are equal. *)
Theorem offset_assertions_always_hold
    (XNN_EXTRA_BYTES : Z) (t : DepthToSpaceOperatorTester) (input output : Z -> Z)
    (x : loop_index) :
  built t -> 0 <= XNN_EXTRA_BYTES ->
  batch_size t * input_height t * block_size t * input_width t * block_size t
  * output_channels t + XNN_EXTRA_BYTES / 4 < 2 ^ 64 ->
  In x (loop_indices t) ->
  fst (offsets t x) < input_vector_size XNN_EXTRA_BYTES t
  /\ snd (offsets t x) < output_vector_size t
  /\ check t (input_vector_size XNN_EXTRA_BYTES t) (output_vector_size t) input output x
     = (output (snd (offsets t x)) =? input (fst (offsets t x))).
Proof.
  intros Hb HX Hn Hin.
  pose proof (set_bounds t Hb) as (HH & HW & HC & HB & HN & _).
  pose proof (Z.div_pos XNN_EXTRA_BYTES 4 HX ltac:(lia)) as HX4.
  destruct x as (i & iy & by_ & ix & bx & oc).
  apply (index_ranges t) in Hin; [|assumption].
  destruct Hin as (Hi & Hiy & Hby & Hix & Hbx & Hoc).
  assert (Hn' : batch_size t * input_height t * block_size t * input_width t * block_size t
                * output_channels t < 2 ^ 64) by lia.
  pose proof (input_offset_small t _ _ _ _ _ _ Hb Hn' Hi Hiy Hby Hix Hbx Hoc) as (Ei & Ri).
  pose proof (output_offset_small t _ _ _ _ _ _ Hb Hn' Hi Hiy Hby Hix Hbx Hoc) as (Eo & Ro).
  assert (Li : fst (offsets t (i, (iy, (by_, (ix, (bx, oc))))))
               < input_vector_size XNN_EXTRA_BYTES t).
  { cbn [offsets fst]. rewrite Ei, input_vector_size_exact, Z.mod_small by nia. nia. }
  assert (Lo : snd (offsets t (i, (iy, (by_, (ix, (bx, oc)))))) < output_vector_size t).
  { cbn [offsets snd]. rewrite Eo, output_vector_size_exact, Z.mod_small by nia. nia. }
  split; [exact Li|]. split; [exact Lo|].
  unfold check. destruct (offsets t (i, (iy, (by_, (ix, (bx, oc)))))) as (a, b).
  cbn [fst snd] in *.
  apply Z.ltb_lt in Li, Lo. rewrite Li, Lo. reflexivity.
Qed.

Lemma offset_assertions_always_hold_witness :
  exists t,
    set_block_size initial 3 = Some t
    /\ fst (offsets t (0, (0, (2, (0, (1, 0)))))%nat) < input_vector_size 16 t
    /\ snd (offsets t (0, (0, (2, (0, (1, 0)))))%nat) = 7.
Proof.
  eexists. split; [reflexivity|].
  match goal with |- fst (offsets ?t ?x) < _ /\ _ =>
    destruct (offset_assertions_always_hold 16 t (fun e => e) (fun e => e) x)
      as (Hi & Ho & _) end.
  - apply (built_block_size initial 3); [apply built_initial|lia|reflexivity].
  - lia.
  - vm_compute. reflexivity.
  - vm_compute. tauto.
  - split; [exact Hi|reflexivity].
Defined.

End TesterSpec.

(** * The requantization, channel by channel *)

Module RequantChannelFacts.
Import Bits BitsFacts Intrin IntrinFacts Requant RequantFacts RequantChannel RequantSpec.

Lemma requantize_channel_eq params vacc j :
  0 <= j < 8 ->
  signed 8 (lane 8 j (requantize params vacc))
  = requantize_channel params j (signed 32 (lane 32 j vacc)).
Proof.
  intros Hj.
  rewrite requantize_lane, rescale_lane, remainder_lane, q31_multiply_lane by lia.
  unfold requantize_channel, clamp, rounding_shift, q31, multiplier_at, rounding_at,
    remainder_mask_at, remainder_threshold_at, shift_at, output_zero_point_at,
    output_min_at, output_max_at.
  cbv zeta. reflexivity.
Qed.

Lemma lane_signed_inj w a b :
  0 < w -> 0 <= a < 2 ^ w -> 0 <= b < 2 ^ w -> signed w a = signed w b -> a = b.
Proof.
  intros Hw Ha Hb E.
  pose proof (signed_cong w a Hw) as Ca. pose proof (signed_cong w b Hw) as Cb.
  rewrite E in Ca. rewrite Ca in Cb.
  rewrite !Z.mod_small in Cb by lia. exact Cb.
Qed.

Lemma requantize_high_half params vacc j :
  0 <= j < 8 ->
  lane 8 (j + 8) (requantize params vacc) = lane 8 j (requantize params vacc).
Proof.
  intros Hj. unfold requantize, clamp_narrow, _mm_packs_epi16. cbv zeta.
  rewrite !lane_pack by lia. cbv beta.
  replace (j <? 8) with true by (symmetry; apply Z.ltb_lt; lia).
  replace (j + 8 <? 8) with false by (symmetry; apply Z.ltb_ge; lia).
  replace (j + 8 - 8) with j by lia. reflexivity.
Qed.


(** ** The steps on integers *)

Lemma q31_floor m acc :
  - 2 ^ 31 <= acc < 2 ^ 31 -> 0 <= m < 2 ^ 31 ->
  q31 m (2 ^ 30) acc = (acc * m + 2 ^ 30) / 2 ^ 31.
Proof.
  intros Ha Hm. unfold q31. apply bits_31_62_signed.
  pose proof (product_range acc m Ha ltac:(lia) ltac:(lia)). lia.
Qed.

Lemma q31_range m r acc : - 2 ^ 31 <= q31 m r acc < 2 ^ 31.
Proof. unfold q31. apply (signed_range 32). lia. Qed.

Lemma land_low_bits q sh : 0 <= sh -> Z.land q (2 ^ sh - 1) = q mod 2 ^ sh.
Proof.
  intros Hs. rewrite <- Z.land_ones by assumption. f_equal.
  rewrite Z.ones_equiv. lia.
Qed.

(** With the mask [2^shift - 1] and a threshold that is not negative, the
    second rounding step does not wrap around. *)
Lemma rounding_shift_exact sh thr q :
  0 <= sh <= 31 -> 0 <= thr -> - 2 ^ 31 <= q < 2 ^ 31 ->
  rounding_shift (2 ^ sh - 1) thr sh q
  = q / 2 ^ sh
    + (if q mod 2 ^ sh - (if q <? 0 then 1 else 0) >? thr then 1 else 0).
Proof.
  intros Hs Ht Hq. unfold rounding_shift. cbv zeta.
  rewrite land_low_bits by lia.
  assert (Hp : 0 < 2 ^ sh) by (apply Z.pow_pos_nonneg; lia).
  assert (Hp' : 2 ^ sh <= 2 ^ 31) by (apply Z.pow_le_mono_r; lia).
  pose proof (Z.mod_pos_bound q (2 ^ sh) Hp) as Hr.
  rewrite (signed_small 32 (q mod 2 ^ sh - _))
    by (try lia; destruct (q <? 0); change (2 ^ (32 - 1)) with (2 ^ 31); lia).
  rewrite Z.shiftr_div_pow2 by lia.
  apply signed_small; [lia|]. change (2 ^ (32 - 1)) with (2 ^ 31).
  destruct (Z.eq_dec sh 0) as [->|Hne].
  - change (2 ^ 0) with 1 in *. rewrite Z.mod_1_r, Z.div_1_r.
    destruct (q <? 0);
      match goal with |- context [?a >? thr] => destruct (Z.gtb_spec a thr) end; lia.
  - pose proof (shiftr_range_pos q sh Hq ltac:(lia)) as Hd.
    rewrite Z.shiftr_div_pow2 in Hd by lia.
    destruct (_ >? thr); lia.
Qed.

Lemma rounding_shift_monotone sh thr q q' :
  0 <= sh <= 31 -> 0 <= thr -> - 2 ^ 31 <= q -> q <= q' -> q' < 2 ^ 31 ->
  rounding_shift (2 ^ sh - 1) thr sh q <= rounding_shift (2 ^ sh - 1) thr sh q'.
Proof.
  intros Hs Ht Hq Hle Hq'.
  rewrite !rounding_shift_exact by lia.
  assert (Hp : 0 < 2 ^ sh) by (apply Z.pow_pos_nonneg; lia).
  pose proof (Z.div_mod q (2 ^ sh) ltac:(lia)) as Dq.
  pose proof (Z.div_mod q' (2 ^ sh) ltac:(lia)) as Dq'.
  pose proof (Z.mod_pos_bound q (2 ^ sh) Hp) as Rq.
  pose proof (Z.mod_pos_bound q' (2 ^ sh) Hp) as Rq'.
  pose proof (Z.div_le_mono q q' (2 ^ sh) Hp Hle) as Hd.
  destruct (Z.eq_dec (q / 2 ^ sh) (q' / 2 ^ sh)) as [E|Hne].
  - rewrite E in *.
    assert (Hr : q mod 2 ^ sh <= q' mod 2 ^ sh) by lia.
    assert (Hsign : (q <? 0) = (q' <? 0)).
    { destruct (Z.lt_ge_cases (q' / 2 ^ sh) 0);
        destruct (Z.ltb_spec q 0), (Z.ltb_spec q' 0); try reflexivity; nia. }
    rewrite Hsign.
    destruct (Z.gtb_spec (q mod 2 ^ sh - (if q' <? 0 then 1 else 0)) thr),
             (Z.gtb_spec (q' mod 2 ^ sh - (if q' <? 0 then 1 else 0)) thr); lia.
  - destruct (_ >? thr), (_ >? thr); lia.
Qed.

Lemma sat_monotone w x y : x <= y -> sat w x <= sat w y.
Proof. intros. unfold sat. lia. Qed.

Lemma clamp_monotone zp omin omax x y :
  x <= y -> clamp zp omin omax x <= clamp zp omin omax y.
Proof.
  intros Hxy. unfold clamp.
  apply sat_monotone.
  pose proof (sat_monotone 16 x y Hxy) as H1.
  pose proof (sat_monotone 16 (sat 16 x + zp) (sat 16 y + zp) ltac:(lia)) as H2.
  lia.
Qed.

End RequantChannelFacts.

Module RequantChannelSpec.
Import Bits BitsFacts Intrin IntrinFacts Requant RequantFacts RequantChannel.
Import RequantChannelFacts.

Lemma rescale_channel_eq params vq j :
  0 <= j < 8 ->
  signed 32 (lane 32 j (rescale params vq))
  = rounding_shift (remainder_mask_at params j) (remainder_threshold_at params j)
      (shift_at params) (signed 32 (lane 32 j vq)).
Proof.
  intros Hj. rewrite rescale_lane, remainder_lane by lia. reflexivity.
Qed.

Ltac concrete := vm_compute; repeat split; first [reflexivity | intro; discriminate].

Ltac split_gtb :=
  repeat match goal with
         | |- context [?a >? ?b] => destruct (Z.gtb_spec a b)
         end.

(** With the threshold [(2^shift - 1) >> 1] the second rounding step rounds
    to a nearest integer, a tie going away from zero. *)
Lemma rounding_shift_canonical sh q :
  0 <= sh <= 31 -> - 2 ^ 31 <= q < 2 ^ 31 ->
  let D := 2 ^ sh in
  let f := rounding_shift (D - 1) (Z.shiftr (D - 1) 1) sh in
  2 * Z.abs (f q * D - q) <= D
  /\ (0 <= q -> f q = (q + D / 2) / D)
  /\ (- 2 ^ 31 < q -> f (- q) = - f q).
Proof.
  intros Hs Hq D f.
  assert (HD : 0 < D) by (apply Z.pow_pos_nonneg; lia).
  assert (Hthr : 0 <= Z.shiftr (D - 1) 1).
  { rewrite Z.shiftr_div_pow2 by lia. apply Z.div_pos; lia. }
  assert (Hcases : (sh = 0 /\ D = 1) \/ (1 <= sh /\ D = 2 * (D / 2) /\ 0 < D / 2)).
  { destruct (Z.eq_dec sh 0) as [->|Hne]; [left; split; reflexivity|right].
    split; [lia|].
    assert (E : D = 2 * 2 ^ (sh - 1)).
    { unfold D. rewrite <- Z.pow_succ_r by lia. f_equal. lia. }
    assert (0 < 2 ^ (sh - 1)) by (apply Z.pow_pos_nonneg; lia).
    assert (Hh : D / 2 = 2 ^ (sh - 1))
      by (symmetry; apply Z.div_unique with (r := 0); lia).
    rewrite Hh. lia. }
  assert (Hf : forall x, - 2 ^ 31 <= x < 2 ^ 31 ->
            f x = x / D + (if x mod D - (if x <? 0 then 1 else 0) >? Z.shiftr (D - 1) 1
                           then 1 else 0)).
  { intros x Hx. unfold f, D. apply rounding_shift_exact; assumption. }
  destruct Hcases as [(-> & HD1)|(Hs1 & HD2 & Hh)].
  - assert (Hid : forall x, - 2 ^ 31 <= x < 2 ^ 31 -> f x = x).
    { intros x Hx. rewrite (Hf x Hx). rewrite HD1, Z.mod_1_r, Z.div_1_r.
      change (Z.shiftr (1 - 1) 1) with 0.
      destruct (x <? 0); cbn; lia. }
    rewrite (Hid q Hq). rewrite HD1, Z.div_1_r.
    change (1 / 2) with 0.
    split; [lia|]. split; [intros; lia|]. intros Hq'. apply Hid. lia.
  - set (h := D / 2) in *.
    assert (Ht : Z.shiftr (D - 1) 1 = h - 1).
    { rewrite Z.shiftr_div_pow2 by lia. change (2 ^ 1) with 2.
      symmetry. apply Z.div_unique with (r := 1); lia. }
    rewrite Ht in Hf.
    pose proof (Z.div_mod q D ltac:(lia)) as Dq.
    pose proof (Z.mod_pos_bound q D HD) as Rq.
    assert (Hsq : q < 0 <-> q / D < 0) by (split; intros; nia).
    split; [|split].
    + rewrite (Hf q Hq).
      destruct (Z.ltb_spec q 0); split_gtb; nia.
    + intros Hq0. rewrite (Hf q Hq).
      replace (q <? 0) with false by (symmetry; apply Z.ltb_ge; lia).
      destruct (Z.gtb_spec (q mod D - 0) (h - 1)).
      * apply Z.div_unique with (r := q mod D + h - D); lia.
      * apply Z.div_unique with (r := q mod D + h); lia.
    + intros Hq'. rewrite (Hf q Hq), (Hf (- q)) by lia.
      pose proof (Z.div_mod (- q) D ltac:(lia)) as Dn.
      pose proof (Z.mod_pos_bound (- q) D HD) as Rn.
      assert (Hsum : (q / D + - q / D = 0 /\ q mod D + - q mod D = 0)
                     \/ (q / D + - q / D = -1 /\ q mod D + - q mod D = D)).
      { assert (HS : D * (q / D + - q / D) + (q mod D + - q mod D) = 0) by lia.
        assert (HS' : q / D + - q / D = 0 \/ q / D + - q / D = -1) by nia.
        destruct HS' as [Z0|Z1]; [left|right]; (split; [assumption|]).
        - rewrite Z0 in HS. lia.
        - rewrite Z1 in HS. lia. }
      destruct (Z.ltb_spec q 0), (Z.ltb_spec (- q) 0); split_gtb; nia.
Qed.

(** Lines 142-172 work channel by channel.  Byte [j] of the result is a
    function of lane [j] of the accumulators alone: the Q31 product with lane
    0 or 2 of the multiplier, the rounding shift, the zero point and the
    clamp, each with the parameters of lane [j].  Bytes 8 to 15 of the result
    repeat bytes 0 to 7. *)
Theorem requantize_is_channelwise (params : xnn_qs8_gemm_params) (vacc j : Z) :
  0 <= j < 8 ->
  signed 8 (lane 8 j (requantize params vacc))
  = requantize_channel params j (signed 32 (lane 32 j vacc))
  /\ lane 8 (j + 8) (requantize params vacc) = lane 8 j (requantize params vacc)
  /\ forall vacc', lane 32 j vacc' = lane 32 j vacc ->
       lane 8 j (requantize params vacc') = lane 8 j (requantize params vacc).
Proof.
  intros Hj. split; [|split].
  - apply requantize_channel_eq. assumption.
  - apply requantize_high_half. assumption.
  - intros vacc' E.
    apply (lane_signed_inj 8); [lia|apply lane_range; lia|apply lane_range; lia|].
    rewrite !requantize_channel_eq by assumption. rewrite E. reflexivity.
Qed.

Lemma requantize_is_channelwise_witness :
  let params := broadcast_params (3 * 2 ^ 29) (2 ^ 30) 1 0 1 5 (-100) 100 in
  let vacc := pack 32 8 (fun i => 10 * i - 40) in
  signed 8 (lane 8 6 (requantize params vacc)) = requantize_channel params 6 20
  /\ requantize_channel params 6 20 = 13
  /\ lane 8 14 (requantize params vacc) = 13.
Proof.
  intros params vacc.
  destruct (requantize_is_channelwise params vacc 6 ltac:(lia)) as (E & Eh & _).
  split; [exact E|]. split; [vm_compute; reflexivity|].
  transitivity (lane 8 6 (requantize params vacc)); [exact Eh|vm_compute; reflexivity].
Defined.

(** With a multiplier that is not negative, the rounding constant [2^30],
    a shift of at most 31, the mask [2^shift - 1] and a threshold that is not
    negative, the output byte of a channel does not decrease when its
    accumulator increases. *)
Theorem requantize_is_monotone (params : xnn_qs8_gemm_params) (vacc vacc' j : Z) :
  0 <= j < 8 ->
  0 <= multiplier_at params j -> rounding_at params j = 2 ^ 30 ->
  0 <= shift_at params <= 31 ->
  remainder_mask_at params j = 2 ^ shift_at params - 1 ->
  0 <= remainder_threshold_at params j ->
  signed 32 (lane 32 j vacc) <= signed 32 (lane 32 j vacc') ->
  signed 8 (lane 8 j (requantize params vacc))
  <= signed 8 (lane 8 j (requantize params vacc')).
Proof.
  intros Hj Hm Hr Hs Hmask Hthr Hle.
  rewrite !requantize_channel_eq by assumption.
  unfold requantize_channel. rewrite Hr, Hmask.
  pose proof (signed_range 32 (lane 32 j vacc) ltac:(lia)) as Ra.
  pose proof (signed_range 32 (lane 32 j vacc') ltac:(lia)) as Ra'.
  pose proof (signed_range 32 (lane 32 ((2 * (j / 2)) mod 4) (multiplier params))
                ltac:(lia)) as Rm.
  change (2 ^ (32 - 1)) with (2 ^ 31) in *. fold (multiplier_at params j) in Rm.
  apply clamp_monotone.
  pose proof (q31_range (multiplier_at params j) (2 ^ 30) (signed 32 (lane 32 j vacc))).
  pose proof (q31_range (multiplier_at params j) (2 ^ 30) (signed 32 (lane 32 j vacc'))).
  apply rounding_shift_monotone; try lia.
  rewrite !q31_floor by lia.
  apply Z.div_le_mono; [lia|]. nia.
Qed.

Lemma requantize_is_monotone_witness :
  let params := broadcast_params (3 * 2 ^ 29) (2 ^ 30) 1 0 1 5 (-100) 100 in
  let vacc := pack 32 8 (fun i => 10 * i - 40) in
  let vacc' := pack 32 8 (fun i => 10 * i - 38) in
  signed 8 (lane 8 6 (requantize params vacc))
  <= signed 8 (lane 8 6 (requantize params vacc')).
Proof.
  intros params vacc vacc'.
  apply requantize_is_monotone; concrete.
Defined.

(** With a shift of at most 31, the mask [2^shift - 1] and the threshold
    [mask >> 1], the rounding shift of lines 156-163 divides by [2^shift]
    and rounds to a nearest integer, a tie going away from zero: the result
    is within half a unit of the quotient, it is [(q + 2^shift / 2) / 2^shift]
    for [q >= 0], and opposite products give opposite results. *)
Theorem rounding_shift_rounds_half_away_from_zero
    (params : xnn_qs8_gemm_params) (vq j : Z) :
  0 <= j < 8 ->
  0 <= shift_at params <= 31 ->
  remainder_mask_at params j = 2 ^ shift_at params - 1 ->
  remainder_threshold_at params j = Z.shiftr (remainder_mask_at params j) 1 ->
  let q := signed 32 (lane 32 j vq) in
  let scaled := signed 32 (lane 32 j (rescale params vq)) in
  2 * Z.abs (scaled * 2 ^ shift_at params - q) <= 2 ^ shift_at params
  /\ (0 <= q -> scaled = (q + 2 ^ shift_at params / 2) / 2 ^ shift_at params)
  /\ forall vq', signed 32 (lane 32 j vq') = - q ->
       signed 32 (lane 32 j (rescale params vq')) = - scaled.
Proof.
  intros Hj Hs Hmask Hthr q scaled.
  pose proof (signed_range 32 (lane 32 j vq) ltac:(lia)) as Rq.
  change (2 ^ (32 - 1)) with (2 ^ 31) in Rq. fold q in Rq.
  destruct (rounding_shift_canonical (shift_at params) q Hs Rq) as (Ha & Hb & Hc).
  assert (E : forall v, signed 32 (lane 32 j (rescale params v))
                        = rounding_shift (2 ^ shift_at params - 1)
                            (Z.shiftr (2 ^ shift_at params - 1) 1) (shift_at params)
                            (signed 32 (lane 32 j v))).
  { intros v. rewrite rescale_channel_eq by assumption. rewrite Hthr, Hmask. reflexivity. }
  unfold scaled. rewrite E. fold q.
  split; [exact Ha|]. split; [exact Hb|].
  intros vq' Hq'. rewrite E, Hq'. apply Hc.
  pose proof (signed_range 32 (lane 32 j vq') ltac:(lia)) as Rq'.
  change (2 ^ (32 - 1)) with (2 ^ 31) in Rq'. lia.
Qed.

Lemma rounding_shift_rounds_half_away_from_zero_witness :
  let params := broadcast_params (2 ^ 30) (2 ^ 30) 3 1 2 0 (-128) 127 in
  let vq := pack 32 8 (fun i => 4 * i + 2) in
  let vq' := pack 32 8 (fun i => - (4 * i + 2)) in
  signed 32 (lane 32 1 vq) = 6
  /\ signed 32 (lane 32 1 (rescale params vq)) = 2
  /\ signed 32 (lane 32 1 (rescale params vq')) = -2.
Proof.
  intros params vq vq'.
  destruct (rounding_shift_rounds_half_away_from_zero params vq 1
              ltac:(lia) ltac:(concrete) ltac:(concrete) ltac:(concrete))
    as (_ & Hb & Hc).
  split; [vm_compute; reflexivity|]. split; [vm_compute; reflexivity|].
  rewrite (Hc vq') by (vm_compute; reflexivity). vm_compute. reflexivity.
Defined.

End RequantChannelSpec.

(** * The store after a call of the depthwise kernel *)

Module DWConvStateFacts.
Import Bits BitsFacts Intrin IntrinFacts Requant RequantFacts Mem MemFacts.
Import DWConv DWConvTrace DWConvFacts DepthToSpaceFacts DWConvState.

(** ** The runs in closed form *)

Lemma tiles_state_succ params i0 weights output0 N s :
  tiles_state params i0 weights output0 (S N) s
  = full_tile_state params (tile_locals i0 weights output0 N)
      (tiles_state params i0 weights output0 N s).
Proof.
  unfold tiles_state. rewrite seq_S, fold_left_app. reflexivity.
Qed.

Lemma full_tiles_state_run params i0 weights output0 (N : nat) c fuel s :
  0 <= c < 8 -> 8 * Z.of_nat N + c < 2 ^ 64 -> (N <= fuel)%nat ->
  Forall (fun ik => 0 <= ik < 2 ^ 64) i0 ->
  0 <= weights < 2 ^ 64 -> 0 <= output0 < 2 ^ 64 ->
  for_ge fuel 8 (full_tile params) (8 * Z.of_nat N + c)
         {| i := i0; w := weights; output := output0 |} s
  = Some ((c, tile_locals i0 weights output0 N), tiles_state params i0 weights output0 N s).
Proof.
  intros Hc Hn Hf Hi Hw Ho.
  set (Inv := fun (t : nat) (l : locals) (s' : state) =>
    l = tile_locals i0 weights output0 t /\ s' = tiles_state params i0 weights output0 t s).
  assert (step : forall t l s1, (t < N)%nat -> Inv t l s1 ->
            exists l' s', full_tile params l s1 = Some (l', s') /\ Inv (S t) l' s').
  { intros t l s1 Ht (Hl & Hs). subst l s1.
    eexists _, _. split; [apply full_tile_run|].
    split; [apply tile_locals_succ|]. rewrite tiles_state_succ. reflexivity. }
  assert (init : Inv 0%nat {| i := i0; w := weights; output := output0 |} s).
  { split; [symmetry; apply tile_locals_0; assumption|reflexivity]. }
  destruct (for_ge_inv Inv (full_tile params) N step 8 c ltac:(lia) Hc fuel 0%nat
              (8 * Z.of_nat N + c) {| i := i0; w := weights; output := output0 |} s
              ltac:(lia) ltac:(f_equal; f_equal; lia) Hn ltac:(lia) init)
    as (l' & s' & Hrun & Hl & Hs).
  rewrite Hrun, Hl, Hs. reflexivity.
Qed.

Lemma pixel_state_run a input output s :
  0 < channels a < 2 ^ 64 -> 0 <= weights a < 2 ^ 64 -> 0 <= output < 2 ^ 64 ->
  pixel a (input, output) s
  = Some ((size_add input (input_stride a),
           size_add output (channels a + output_increment a)),
          pixel_state a input output s).
Proof.
  intros Hch Hw Ho.
  destruct (tile_count (channels a) ltac:(lia)) as (Hsplit & Hc & _).
  unfold pixel_state.
  set (N := Z.to_nat (channels a / 8)) in *. set (c := channels a mod 8) in *.
  set (i0 := tap_pointers (bytes s) input (zero a) (input_offset a)).
  set (entries := map (fun k => Load (size_add input (8 * Z.of_nat k)) 8) (seq 0 9)).
  pose proof (full_tiles_state_run (params a) i0 (weights a) output N c
                (Z.to_nat (channels a)) (log_add s entries) Hc ltac:(lia) ltac:(lia)
                (tap_pointers_range _ _ _ _) Hw Ho) as Hloop.
  unfold pixel. rewrite (bind_run _ _ _ _ _ (tap_pointers_run _ _ _ _)).
  fold i0 entries. cbv zeta. rewrite <- Hsplit in Hloop.
  rewrite (bind_run _ _ _ _ _ Hloop).
  destruct (Z.eqb_spec c 0) as [Hc0|Hc0]; cbn [negb]; cbv iota.
  - unfold bind, ret. cbn [DWConv.output tile_locals].
    rewrite size_add_add.
    replace (8 * Z.of_nat N + output_increment a)
      with (channels a + output_increment a) by lia.
    reflexivity.
  - assert (Hout : 0 <= DWConv.output (tile_locals i0 (weights a) output N) < 2 ^ 64)
      by (cbn [DWConv.output tile_locals]; apply size_add_range).
    rewrite (bind_run _ _ _ _ _ (tail_tile_run (params a) c _ _ ltac:(lia) Hout)).
    unfold ret. cbn [DWConv.output tile_locals].
    rewrite !size_add_add.
    replace (8 * Z.of_nat N + (c + output_increment a))
      with (channels a + output_increment a) by lia.
    reflexivity.
Qed.

Lemma pixels_state_succ a input output W s :
  pixels_state a input output (S W) s
  = pixel_state a (pixel_input (input_stride a) input W)
      (pixel_output (channels a) (output_increment a) output W)
      (pixels_state a input output W s).
Proof.
  unfold pixels_state. rewrite seq_S, fold_left_app. reflexivity.
Qed.

Lemma kernel_state_run channels output_width input weights output input_stride
    output_increment input_offset zero params s :
  0 < channels < 2 ^ 64 -> 0 < output_width < 2 ^ 64 ->
  0 <= input < 2 ^ 64 -> 0 <= weights < 2 ^ 64 -> 0 <= output < 2 ^ 64 ->
  let a := {| channels := channels; weights := weights; input_stride := input_stride;
              output_increment := output_increment; input_offset := input_offset;
              zero := zero; params := params |} in
  xnn_qs8_dwconv_minmax_ukernel_up8x9__avx2_mul32 channels output_width input weights
    output input_stride output_increment input_offset zero params s
  = Some (tt, pixels_state a input output (Z.to_nat output_width) s).
Proof.
  intros Hch Hwd Hin Hw Hout a.
  destruct (kernel_pixels channels output_width input weights output input_stride
              output_increment input_offset zero params s Hch Hwd Hin Hw Hout)
    as (st & H0 & Hrun & Hp).
  rewrite Hrun. f_equal. f_equal.
  assert (Hst : forall p, (p <= Z.to_nat output_width)%nat ->
            st p = pixels_state a input output p s).
  { induction p as [|p IH]; intros Hle; [exact H0|].
    specialize (Hp p ltac:(lia)). cbv zeta in Hp.
    rewrite (pixel_state_run _ _ _ (st p)) in Hp
      by (cbn [DWConv.channels DWConv.weights]; try assumption; apply size_add_range).
    injection Hp as _ _ Hs. rewrite <- Hs, pixels_state_succ, IH by lia. reflexivity. }
  apply Hst. lia.
Qed.


(** ** The bytes a tile leaves *)

Lemma full_tile_state_bytes params l s x :
  bytes (full_tile_state params l s) x
  = if (output l <=? x) && (x <? output l + 8)
    then lane 8 (x - output l) (requantize params (acc_value (bytes s) (w l) (i l)))
    else bytes s x.
Proof.
  unfold full_tile_state. cbn [bytes]. unfold store_bytes.
  change (Z.of_nat 8) with 8.
  destruct ((output l <=? x) && (x <? output l + 8)) eqn:E; [|reflexivity].
  apply andb_true_iff in E. destruct E as [E1 E2].
  apply Z.leb_le in E1. apply Z.ltb_lt in E2.
  change 64 with (8 * 8). rewrite lane_lane by lia. f_equal; lia.
Qed.

Lemma tail_segments_fit c output :
  0 < c < 8 -> 0 <= output -> output + c <= 2 ^ 64 ->
  Forall (fun seg => (0 < snd seg)%nat /\ 0 <= fst seg
                     /\ fst seg mod Z.of_nat (snd seg) = 0
                     /\ 0 <= output + fst seg < 2 ^ 64) (tail_segments c).
Proof.
  intros Hc Ho Ho'.
  assert (H : c = 1 \/ c = 2 \/ c = 3 \/ c = 4 \/ c = 5 \/ c = 6 \/ c = 7) by lia.
  destruct H as [->|[->|[->|[->|[->|[-> | ->]]]]]]; eval_tail_conditions;
    repeat constructor; cbn [fst snd]; try lia; reflexivity.
Qed.

Lemma tail_tile_state_bytes params c l s x :
  0 < c < 8 -> 0 <= output l -> output l + c <= 2 ^ 64 ->
  bytes (tail_tile_state params c l s) x
  = if (output l <=? x) && (x <? output l + c)
    then lane 8 (x - output l) (requantize params (acc_value (bytes s) (w l) (i l)))
    else bytes s x.
Proof.
  intros Hc Ho Ho'. unfold tail_tile_state.
  rewrite store_segments_bytes by (apply tail_segments_fit; assumption).
  rewrite tail_segments_cover by assumption. reflexivity.
Qed.

Lemma tiles_state_frame params i0 weights output0 x : forall N s,
  0 <= output0 -> output0 + 8 * Z.of_nat N <= 2 ^ 64 ->
  ~ (output0 <= x < output0 + 8 * Z.of_nat N) ->
  bytes (tiles_state params i0 weights output0 N s) x = bytes s x.
Proof.
  induction N as [|N IH]; intros s Ho Hfit Hx; [reflexivity|].
  rewrite tiles_state_succ, full_tile_state_bytes.
  cbn [output tile_locals]. rewrite size_add_small by lia.
  replace ((output0 + 8 * Z.of_nat N <=? x) && (x <? output0 + 8 * Z.of_nat N + 8))
    with false by (symmetry; apply andb_false_iff; rewrite Z.leb_gt, Z.ltb_ge; lia).
  apply IH; lia.
Qed.

Lemma tiles_state_bytes params i0 weights output0 (t : nat) j : forall N s,
  0 <= output0 -> output0 + 8 * Z.of_nat N <= 2 ^ 64 ->
  (t < N)%nat -> 0 <= j < 8 ->
  bytes (tiles_state params i0 weights output0 N s) (output0 + 8 * Z.of_nat t + j)
  = lane 8 j (requantize params
                (acc_value (bytes (tiles_state params i0 weights output0 t s))
                           (size_add weights (104 * Z.of_nat t))
                           (map (fun ik => size_add ik (8 * Z.of_nat t)) i0))).
Proof.
  induction N as [|N IH]; intros s Ho Hfit Ht Hj; [lia|].
  rewrite tiles_state_succ, full_tile_state_bytes.
  cbn [output tile_locals w i]. rewrite size_add_small by lia.
  destruct (Nat.eq_dec t N) as [->|Hne].
  - replace ((output0 + 8 * Z.of_nat N <=? output0 + 8 * Z.of_nat N + j)
             && (output0 + 8 * Z.of_nat N + j <? output0 + 8 * Z.of_nat N + 8))
      with true by (symmetry; apply andb_true_iff; rewrite Z.leb_le, Z.ltb_lt; lia).
    f_equal. lia.
  - replace ((output0 + 8 * Z.of_nat N <=? output0 + 8 * Z.of_nat t + j)
             && (output0 + 8 * Z.of_nat t + j <? output0 + 8 * Z.of_nat N + 8))
      with false by (symmetry; apply andb_false_iff; rewrite Z.leb_gt, Z.ltb_ge; lia).
    apply IH; lia.
Qed.

(** ** The bytes a pixel leaves *)

Lemma pixel_state_frame a input output s x :
  0 < channels a -> 0 <= output -> output + channels a <= 2 ^ 64 ->
  ~ (output <= x < output + channels a) ->
  bytes (pixel_state a input output s) x = bytes s x.
Proof.
  intros Hch Ho Hfit Hx.
  destruct (tile_count (channels a) Hch) as (Hsplit & Hc & _).
  unfold pixel_state. cbv zeta.
  set (N := Z.to_nat (channels a / 8)) in *. set (c := channels a mod 8) in *.
  destruct (Z.eqb_spec c 0) as [Hc0|Hc0].
  - rewrite tiles_state_frame by lia. reflexivity.
  - rewrite tail_tile_state_bytes
      by (cbn [DWConv.output tile_locals]; rewrite ?size_add_small by lia; lia).
    cbn [DWConv.output tile_locals]. rewrite size_add_small by lia.
    replace ((output + 8 * Z.of_nat N <=? x) && (x <? output + 8 * Z.of_nat N + c))
      with false by (symmetry; apply andb_false_iff; rewrite Z.leb_gt, Z.ltb_ge; lia).
    rewrite tiles_state_frame by lia. reflexivity.
Qed.

Lemma pixel_state_bytes a input output s (t : nat) j :
  0 < channels a -> 0 <= output -> output + channels a <= 2 ^ 64 ->
  0 <= j < 8 -> 8 * Z.of_nat t + j < channels a ->
  let i0 := tap_pointers (bytes s) input (zero a) (input_offset a) in
  let entries := map (fun k => Load (size_add input (8 * Z.of_nat k)) 8) (seq 0 9) in
  bytes (pixel_state a input output s) (output + 8 * Z.of_nat t + j)
  = lane 8 j (requantize (params a)
                (acc_value
                   (bytes (tiles_state (params a) i0 (weights a) output t
                             (log_add s entries)))
                   (size_add (weights a) (104 * Z.of_nat t))
                   (map (fun ik => size_add ik (8 * Z.of_nat t)) i0))).
Proof.
  intros Hch Ho Hfit Hj Ht i0 entries.
  destruct (tile_count (channels a) Hch) as (Hsplit & Hc & _).
  unfold pixel_state. cbv zeta. fold i0 entries.
  set (N := Z.to_nat (channels a / 8)) in *. set (c := channels a mod 8) in *.
  assert (HtN : (t < N)%nat \/ (t = N /\ j < c)) by lia.
  destruct (Z.eqb_spec c 0) as [Hc0|Hc0].
  - destruct HtN as [HtN|(_ & Hjc)]; [|lia].
    apply tiles_state_bytes; lia.
  - rewrite tail_tile_state_bytes
      by (cbn [DWConv.output tile_locals]; rewrite ?size_add_small by lia; lia).
    cbn [DWConv.output tile_locals w i]. rewrite size_add_small by lia.
    destruct HtN as [HtN|(-> & Hjc)].
    + replace ((output + 8 * Z.of_nat N <=? output + 8 * Z.of_nat t + j)
               && (output + 8 * Z.of_nat t + j <? output + 8 * Z.of_nat N + c))
        with false by (symmetry; apply andb_false_iff; rewrite Z.leb_gt, Z.ltb_ge; lia).
      apply tiles_state_bytes; lia.
    + replace ((output + 8 * Z.of_nat N <=? output + 8 * Z.of_nat N + j)
               && (output + 8 * Z.of_nat N + j <? output + 8 * Z.of_nat N + c))
        with true by (symmetry; apply andb_true_iff; rewrite Z.leb_le, Z.ltb_lt; lia).
      f_equal. lia.
Qed.

(** ** What the accumulators depend on *)

Lemma taps_value_ext mem mem' w i : forall k vacc,
  Forall (fun acc => forall b, 0 <= b < Z.of_nat (snd acc) ->
                       mem (fst acc + b) = mem' (fst acc + b))
         (load_shapes (taps_events w k i)) ->
  taps_value mem w k i vacc = taps_value mem' w k i vacc.
Proof.
  induction i as [|ik i IH]; intros k vacc Hagree; [reflexivity|].
  change (load_shapes (taps_events w k (ik :: i)))
    with ((ik, 8%nat) :: (size_add w (8 * 4 + 8 * k * 1), 8%nat)
          :: load_shapes (taps_events w (k + 1) i)) in Hagree.
  pose proof (Forall_inv Hagree) as H1.
  pose proof (Forall_inv (Forall_inv_tail Hagree)) as H2.
  pose proof (Forall_inv_tail (Forall_inv_tail Hagree)) as Hagree'.
  cbv beta in H1, H2. cbn [fst snd] in H1, H2.
  cbn [taps_value]. unfold tap_value.
  rewrite (bytes_at_ext mem mem' 8 ik H1).
  rewrite (bytes_at_ext mem mem' 8 (size_add w (8 * 4 + 8 * k * 1)) H2).
  apply IH. exact Hagree'.
Qed.

Lemma acc_value_ext mem mem' w i :
  Forall (fun acc => forall b, 0 <= b < Z.of_nat (snd acc) ->
                       mem (fst acc + b) = mem' (fst acc + b))
         (load_shapes (acc_events w i)) ->
  acc_value mem w i = acc_value mem' w i.
Proof.
  intros Hagree.
  change (load_shapes (acc_events w i))
    with ((w, 32%nat) :: load_shapes (taps_events w 0 i)) in Hagree.
  pose proof (Forall_inv Hagree) as H1. cbv beta in H1. cbn [fst snd] in H1.
  unfold acc_value. rewrite (bytes_at_ext mem mem' 32 w H1).
  apply taps_value_ext. exact (Forall_inv_tail Hagree).
Qed.


(** ** The bytes a call leaves *)

Lemma pixels_state_frame a input output x : forall W s,
  0 < channels a ->
  (forall p, (p < W)%nat ->
     pixel_output (channels a) (output_increment a) output p + channels a <= 2 ^ 64) ->
  (forall p, (p < W)%nat ->
     ~ (pixel_output (channels a) (output_increment a) output p <= x
        < pixel_output (channels a) (output_increment a) output p + channels a)) ->
  bytes (pixels_state a input output W s) x = bytes s x.
Proof.
  induction W as [|W IH]; intros s Hch Hfit Hx; [reflexivity|].
  rewrite pixels_state_succ.
  rewrite pixel_state_frame;
    [apply IH; auto| assumption | apply size_add_range | apply Hfit; lia | apply Hx; lia].
Qed.

Lemma tap_pointers_ext mem mem' input zero off :
  (forall k b, (k < 9)%nat -> 0 <= b < 8 ->
     mem (size_add input (8 * Z.of_nat k) + b) = mem' (size_add input (8 * Z.of_nat k) + b)) ->
  tap_pointers mem input zero off = tap_pointers mem' input zero off.
Proof.
  intros Hagree. unfold tap_pointers. apply map_ext_in. intros k Hk.
  apply in_seq in Hk. f_equal. apply bytes_at_ext. intros b Hb.
  apply Hagree; [lia|exact Hb].
Qed.

(** ** The bytes that the stores of a pixel cover *)

Lemma covered_app l1 l2 : covered (l1 ++ l2) = covered l1 ++ covered l2.
Proof. unfold covered. apply flat_map_app. Qed.

Lemma covered_full_tiles base : forall N,
  covered (map (fun t => (base + 8 * Z.of_nat t, 8%nat)) (seq 0 N))
  = map (fun b => base + Z.of_nat b) (seq 0 (8 * N)).
Proof.
  induction N as [|N IH]; [reflexivity|].
  rewrite seq_S, map_app, covered_app, IH.
  replace (8 * S N)%nat with (8 * N + 8)%nat by lia.
  rewrite seq_app, map_app. f_equal.
  cbn [map covered flat_map Nat.add]. rewrite app_nil_r.
  rewrite <- (TesterFacts.map_add_seq (8 * N) 8), !map_map.
  apply map_ext. intros b. lia.
Qed.

Lemma covered_tail base c :
  0 < c < 8 ->
  covered (map (fun '(off, n) => (base + off, n)) (tail_segments c))
  = map (fun b => base + Z.of_nat b) (seq 0 (Z.to_nat c)).
Proof.
  intros Hc.
  assert (H : c = 1 \/ c = 2 \/ c = 3 \/ c = 4 \/ c = 5 \/ c = 6 \/ c = 7) by lia.
  destruct H as [->|[->|[->|[->|[->|[-> | ->]]]]]]; eval_tail_conditions;
    match goal with |- context [seq 0 ?n] =>
      let v := eval vm_compute in n in change n with v end;
    cbn [map covered flat_map seq app];
    repeat (f_equal; try lia).
Qed.

Lemma covered_pixel_stores channels base :
  0 < channels -> 0 <= base -> base + channels <= 2 ^ 64 ->
  covered (pixel_stores channels base)
  = map (fun b => base + Z.of_nat b) (seq 0 (Z.to_nat channels)).
Proof.
  intros Hch Hb Hfit.
  destruct (tile_count channels Hch) as (Hsplit & Hc & _).
  unfold pixel_stores.
  set (N := Z.to_nat (channels / 8)) in *. set (c := channels mod 8) in *.
  assert (HN : channels / 8 = Z.of_nat N)
    by (unfold N; rewrite Z2Nat.id; [reflexivity|apply Z.div_pos; lia]).
  rewrite HN, covered_app.
  rewrite (map_ext_in _ (fun t => (base + 8 * Z.of_nat t, 8%nat)))
    by (intros t Ht; apply in_seq in Ht; rewrite size_add_small by lia; reflexivity).
  rewrite covered_full_tiles.
  replace (Z.to_nat channels) with (8 * N + Z.to_nat c)%nat by lia.
  rewrite seq_app, map_app. change (0 + 8 * N)%nat with (8 * N)%nat. f_equal.
  destruct (Z.eq_dec c 0) as [Hc0|Hc0].
  - rewrite Hc0. reflexivity.
  - rewrite (map_ext_in _ (fun '(off, n) => (base + 8 * Z.of_nat N + off, n))).
    + rewrite covered_tail by lia.
      rewrite <- (TesterFacts.map_add_seq (8 * N) (Z.to_nat c)), !map_map.
      apply map_ext. intros b. lia.
    + intros [off n] Hin.
      assert (Hoff : 0 <= off < c).
      { clear - Hin Hc Hc0.
        assert (H : c = 1 \/ c = 2 \/ c = 3 \/ c = 4 \/ c = 5 \/ c = 6 \/ c = 7) by lia.
        destruct H as [->|[->|[->|[->|[->|[-> | ->]]]]]]; revert Hin;
          eval_tail_conditions; cbn [In]; intros Hin;
          repeat (destruct Hin as [Hin|Hin]; [injection Hin as <- <-; lia|]);
          destruct Hin. }
      rewrite size_add_small by lia. f_equal. lia.
Qed.


(** ** The accumulators as integers *)

Lemma pack_mod w n : forall f, pack w n (fun i => f i mod 2 ^ w) = pack w n f.
Proof.
  induction n as [|n IH]; intros f; [reflexivity|].
  cbn [pack]. rewrite Zmod_mod.
  rewrite (IH (fun i => f (i + 1))). reflexivity.
Qed.

(** Lane [j] of the 32 bytes at [w] is the 32-bit value at [w + 4 * j]. *)
Lemma lane32_bytes_at mem w j :
  0 <= j < 8 -> lane 32 j (bytes_at mem 32 w) = bytes_at mem 4 (w + 4 * j).
Proof.
  intros Hj.
  rewrite <- (lane_fixed 32 j (bytes_at mem 32 w)) by lia.
  change (2 ^ 32) with (2 ^ (8 * Z.of_nat 4)).
  rewrite <- pack_lanes by lia.
  unfold bytes_at at 2.
  rewrite <- (pack_mod 8 4 (fun i => mem (w + 4 * j + i))).
  apply pack_ext. intros t Ht.
  change 32 with (8 * 4) at 1. rewrite lane_lane by lia.
  rewrite lane8_bytes_at by lia. f_equal. f_equal. lia.
Qed.

Lemma tap_term_bound mem w k ik j : - 2 ^ 14 <= tap_term mem w k ik j <= 2 ^ 14.
Proof.
  unfold tap_term.
  pose proof (signed8_range (mem (ik + j))).
  pose proof (signed8_range (mem (size_add w (8 * 4 + 8 * k * 1) + j))).
  nia.
Qed.

Lemma tap_terms_bound mem w j i : forall k,
  - 2 ^ 14 * Z.of_nat (length i) <= sum (tap_terms mem w k i j)
  <= 2 ^ 14 * Z.of_nat (length i).
Proof.
  induction i as [|ik i IH]; intros k; [cbn; lia|].
  cbn [tap_terms sum fold_right length]. fold (sum (tap_terms mem w (k + 1) i j)).
  pose proof (tap_term_bound mem w k ik j). specialize (IH (k + 1)).
  rewrite Nat2Z.inj_succ. lia.
Qed.

Lemma accumulator_eq mem w i j :
  0 <= j < 8 -> signed 32 (lane 32 j (acc_value mem w i)) = accumulator mem w i j.
Proof.
  intros Hj. rewrite acc_value_lane by assumption. unfold accumulator.
  apply signed_mod.
Qed.


(** ** Where the loads of a tile fall *)

Lemma taps_events_within weights T (t : nat) w i0 : forall i k,
  0 <= weights -> weights + 104 * T <= 2 ^ 64 -> Z.of_nat t < T ->
  w = weights + 104 * Z.of_nat t ->
  0 <= k -> k + Z.of_nat (length i) <= 9 ->
  Forall (fun ik => exists ik0, In ik0 i0 /\ 0 <= ik0 /\ ik0 + 8 * T <= 2 ^ 64
                               /\ ik = ik0 + 8 * Z.of_nat t) i ->
  Forall (fun acc => within weights (weights + 104 * T) acc
                     \/ Exists (fun ik0 => within ik0 (ik0 + 8 * T) acc) i0)
         (load_shapes (taps_events w k i)).
Proof.
  intros i. induction i as [|ik i IH]; intros k Hw Hfit Ht Hwt Hk Hlen Hi; [constructor|].
  change (load_shapes (taps_events w k (ik :: i)))
    with ((ik, 8%nat) :: (size_add w (8 * 4 + 8 * k * 1), 8%nat)
          :: load_shapes (taps_events w (k + 1) i)).
  cbn [length] in Hlen. rewrite Nat2Z.inj_succ in Hlen.
  pose proof (Forall_inv Hi) as (ik0 & Hin0 & H0 & Hfit0 & Eik). cbv beta in Eik.
  constructor; [|constructor].
  - right. apply Exists_exists. exists ik0. split; [exact Hin0|].
    unfold within. cbn [fst snd]. change (Z.of_nat 8) with 8. lia.
  - left. unfold within. cbn [fst snd]. change (Z.of_nat 8) with 8.
    rewrite size_add_small by lia. lia.
  - apply IH; try assumption; try lia. exact (Forall_inv_tail Hi).
Qed.

Lemma tile_loads_within weights T (t : nat) i0 :
  0 <= weights -> weights + 104 * T <= 2 ^ 64 -> Z.of_nat t < T ->
  length i0 = 9%nat ->
  Forall (fun ik0 => 0 <= ik0 /\ ik0 + 8 * T <= 2 ^ 64) i0 ->
  Forall (fun acc => within weights (weights + 104 * T) acc
                     \/ Exists (fun ik0 => within ik0 (ik0 + 8 * T) acc) i0)
         (tile_loads weights i0 t).
Proof.
  intros Hw Hfit Ht Hlen Hi. unfold tile_loads.
  change (load_shapes (acc_events ?w ?i)) with ((w, 32%nat) :: load_shapes (taps_events w 0 i)).
  rewrite size_add_small by lia.
  constructor.
  - left. unfold within. cbn [fst snd]. change (Z.of_nat 32) with 32. lia.
  - apply (taps_events_within weights T t); try assumption; try lia.
    + rewrite length_map, Hlen. lia.
    + apply Forall_forall. intros ik Hin. apply in_map_iff in Hin.
      destruct Hin as (ik0 & <- & Hin0).
      pose proof (proj1 (Forall_forall _ _) Hi ik0 Hin0) as (H0 & Hfit0).
      exists ik0. split; [exact Hin0|]. split; [exact H0|]. split; [exact Hfit0|].
      apply size_add_small. lia.
Qed.

End DWConvStateFacts.

Module DWConvStateSpec.
Import Bits BitsFacts Intrin IntrinFacts Requant RequantFacts Mem MemFacts.
Import DWConv DWConvTrace DWConvFacts DepthToSpaceFacts DWConvState DWConvStateFacts.
Import RequantChannel RequantChannelFacts.

(** The kernel writes inside its output rows only: when every row
    [output + p * (channels + output_increment)] of [channels] bytes lies in
    the address space, every byte outside the rows is left as it was; the
    inputs, the weights and the indirection buffer are never written. *)
Theorem kernel_writes_only_its_output_rows
    (channels output_width input weights output input_stride output_increment
     input_offset zero : Z) (params : xnn_qs8_gemm_params) (s : state) :
  0 < channels < 2 ^ 64 -> 0 < output_width < 2 ^ 64 ->
  0 <= input < 2 ^ 64 -> 0 <= weights < 2 ^ 64 -> 0 <= output < 2 ^ 64 ->
  let row := pixel_output channels output_increment output in
  (forall p, (p < Z.to_nat output_width)%nat -> row p + channels <= 2 ^ 64) ->
  exists s',
    xnn_qs8_dwconv_minmax_ukernel_up8x9__avx2_mul32 channels output_width input weights
      output input_stride output_increment input_offset zero params s = Some (tt, s')
    /\ forall x,
         (forall p, (p < Z.to_nat output_width)%nat -> ~ (row p <= x < row p + channels)) ->
         bytes s' x = bytes s x.
Proof.
  intros Hch Hwd Hin Hw Hout row Hfit.
  eexists. split; [apply kernel_state_run; assumption|].
  intros x Hx. apply pixels_state_frame; cbn [DWConv.channels DWConv.output_increment];
    [lia|exact Hfit|exact Hx].
Qed.

Lemma kernel_writes_only_its_output_rows_witness :
  let s0 := {| bytes := fun x => x mod 7; log := [] |} in
  let params := broadcast_params (2 ^ 30) (2 ^ 30) 0 0 0 0 (-128) 127 in
  exists s',
    xnn_qs8_dwconv_minmax_ukernel_up8x9__avx2_mul32 11 2 2000 1000 3000 0 5 400 7777
      params s0 = Some (tt, s')
    /\ bytes s' 3011 = bytes s0 3011 /\ bytes s' 2999 = bytes s0 2999
    /\ bytes s' 3027 = bytes s0 3027 /\ bytes s' 1000 = bytes s0 1000.
Proof.
  intros s0 params.
  destruct (kernel_writes_only_its_output_rows 11 2 2000 1000 3000 0 5 400 7777 params s0
              ltac:(lia) ltac:(lia) ltac:(lia) ltac:(lia) ltac:(lia))
    as (s' & Hrun & Hframe).
  { intros [|[|p]] Hp; [vm_compute; discriminate|vm_compute; discriminate|].
    exfalso. revert Hp. vm_compute. lia. }
  exists s'. split; [exact Hrun|].
  assert (Hrows : forall x, (x < 3000 \/ 3011 <= x < 3016 \/ 3027 <= x) ->
            forall p, (p < Z.to_nat 2)%nat ->
              ~ (pixel_output 11 5 3000 p <= x < pixel_output 11 5 3000 p + 11)).
  { intros x Hx [|[|p]] Hp.
    - change (pixel_output 11 5 3000 0) with 3000. lia.
    - change (pixel_output 11 5 3000 1) with 3016. lia.
    - exfalso. revert Hp. vm_compute. lia. }
  repeat split; apply Hframe, Hrows; lia.
Defined.

(** The stores of a call cover, pixel after pixel, the [channels] bytes of
    each output row in ascending order: every byte of a row is written, once,
    and no other byte is written. *)
Theorem kernel_writes_every_output_byte_once
    (channels output_width input weights output input_stride output_increment
     input_offset zero : Z) (params : xnn_qs8_gemm_params) (s : state) :
  0 < channels < 2 ^ 64 -> 0 < output_width < 2 ^ 64 ->
  0 <= input < 2 ^ 64 -> 0 <= weights < 2 ^ 64 -> 0 <= output < 2 ^ 64 ->
  let row := pixel_output channels output_increment output in
  (forall p, (p < Z.to_nat output_width)%nat -> row p + channels <= 2 ^ 64) ->
  exists s',
    xnn_qs8_dwconv_minmax_ukernel_up8x9__avx2_mul32 channels output_width input weights
      output input_stride output_increment input_offset zero params s = Some (tt, s')
    /\ covered (store_shapes (log s'))
       = covered (store_shapes (log s))
         ++ flat_map (fun p => map (fun b => row p + Z.of_nat b)
                                   (seq 0 (Z.to_nat channels)))
                     (seq 0 (Z.to_nat output_width)).
Proof.
  intros Hch Hwd Hin Hw Hout row Hfit.
  destruct (kernel_stores channels output_width input weights output input_stride
              output_increment input_offset zero params s Hch Hwd Hin Hw Hout)
    as (s' & Hrun & Hstores).
  exists s'. split; [exact Hrun|].
  rewrite Hstores, covered_app. f_equal.
  fold (pixel_output channels output_increment output).  fold row.
  revert Hfit. generalize (Z.to_nat output_width) as W.
  induction W as [|W IH]; intros Hfit; [reflexivity|].
  rewrite seq_S, !flat_map_app, covered_app, IH by (intros; apply Hfit; lia).
  f_equal. cbn [flat_map Nat.add]. rewrite !app_nil_r.
  apply covered_pixel_stores; [lia|apply size_add_range|apply Hfit; lia].
Qed.

Lemma kernel_writes_every_output_byte_once_witness :
  let s0 := {| bytes := fun x => x mod 7; log := [] |} in
  let params := broadcast_params (2 ^ 30) (2 ^ 30) 0 0 0 0 (-128) 127 in
  exists s',
    xnn_qs8_dwconv_minmax_ukernel_up8x9__avx2_mul32 11 2 2000 1000 3000 0 5 400 7777
      params s0 = Some (tt, s')
    /\ covered (store_shapes (log s'))
       = [3000; 3001; 3002; 3003; 3004; 3005; 3006; 3007; 3008; 3009; 3010;
          3016; 3017; 3018; 3019; 3020; 3021; 3022; 3023; 3024; 3025; 3026].
Proof.
  intros s0 params.
  destruct (kernel_writes_every_output_byte_once 11 2 2000 1000 3000 0 5 400 7777
              params s0 ltac:(lia) ltac:(lia) ltac:(lia) ltac:(lia) ltac:(lia))
    as (s' & Hrun & Hcov).
  { intros [|[|p]] Hp; [vm_compute; discriminate|vm_compute; discriminate|].
    exfalso. revert Hp. vm_compute. lia. }
  exists s'. split; [exact Hrun|]. rewrite Hcov. vm_compute. reflexivity.
Defined.

(** The 32-bit accumulation of a tile does not wrap around when the bias
    leaves room for the products: with a bias [b] of lane [j], read as the
    signed value of the four bytes at [w + 4 * j], such that
    [|b| + 2^14 * taps] stays in the signed 32-bit range, the accumulator of
    the lane is exactly [b] plus the sum over the taps of
    input byte times weight byte. *)
Theorem accumulation_is_exact (w : Z) (i : list Z) (s : state) (j : Z) :
  0 <= j < 8 ->
  let bias := signed 32 (bytes_at (bytes s) 4 (w + 4 * j)) in
  - 2 ^ 31 + 2 ^ 14 * Z.of_nat (length i) <= bias < 2 ^ 31 - 2 ^ 14 * Z.of_nat (length i) ->
  exists vacc s',
    accumulate w i s = Some (vacc, s')
    /\ signed 32 (lane 32 j vacc) = bias + sum (tap_terms (bytes s) w 0 i j)
    /\ bytes s' = bytes s.
Proof.
  intros Hj bias Hb.
  eexists _, _. split; [apply accumulate_run|]. split; [|reflexivity].
  rewrite accumulator_eq by assumption. unfold accumulator.
  rewrite lane32_bytes_at by assumption.
  pose proof (tap_terms_bound (bytes s) w j i 0) as Hs.
  transitivity (signed 32 (bias + sum (tap_terms (bytes s) w 0 i j))).
  - apply signed_eq_mod.
    rewrite <- (Zplus_mod_idemp_l bias). unfold bias.
    rewrite signed_cong by lia. rewrite Zplus_mod_idemp_l. reflexivity.
  - apply signed_small; [lia|]. change (2 ^ (32 - 1)) with (2 ^ 31). lia.
Qed.

Lemma accumulation_is_exact_witness :
  let mem := fun x => if (1000 <=? x) && (x <? 1032) then 255 else x mod 256 in
  let s0 := {| bytes := mem; log := [] |} in
  let i := [5000; 5100; 5200; 5300; 5400; 5500; 5600; 5700; 5800] in
  exists vacc s',
    accumulate 1000 i s0 = Some (vacc, s')
    /\ signed 32 (lane 32 3 vacc) = -1 + sum (tap_terms mem 1000 0 i 3).
Proof.
  intros mem s0 i.
  destruct (accumulation_is_exact 1000 i s0 3 ltac:(lia)) as (vacc & s' & Hrun & Hv & _).
  { vm_compute. split; [intro; discriminate|reflexivity]. }
  exists vacc, s'. split; [exact Hrun|]. rewrite Hv. f_equal.
Defined.


(** The kernel computes the depthwise convolution.  When the output rows
    lie in the address space and are pairwise disjoint, and no load of the
    call (the indirection entries, the biases and weights, the input rows at
    the pointers found in the indirection buffer) touches an output row, then
    after the call the byte of channel [8 * t + j] of pixel [p] is the
    requantization, with the parameters of lane [j], of the accumulator
    [bias + sum over the 9 taps of input byte * weight byte] read from the
    memory before the call. *)
Theorem kernel_computes_depthwise_convolution
    (channels output_width input weights output input_stride output_increment
     input_offset zero : Z) (params : xnn_qs8_gemm_params) (s : state) :
  0 < channels < 2 ^ 64 -> 0 < output_width < 2 ^ 64 ->
  0 <= input < 2 ^ 64 -> 0 <= weights < 2 ^ 64 -> 0 <= output < 2 ^ 64 ->
  let W := Z.to_nat output_width in
  let row := pixel_output channels output_increment output in
  let pointers p :=
    tap_pointers (bytes s) (pixel_input input_stride input p) zero input_offset in
  (forall p, (p < W)%nat -> row p + channels <= 2 ^ 64) ->
  (forall p q, (p < W)%nat -> (q < W)%nat -> p <> q ->
     row p + channels <= row q \/ row q + channels <= row p) ->
  (forall p q, (p < W)%nat -> (q < W)%nat ->
     Forall (outside (row q) (row q + channels))
            (pixel_loads channels weights (pixel_input input_stride input p) (pointers p))) ->
  exists s',
    xnn_qs8_dwconv_minmax_ukernel_up8x9__avx2_mul32 channels output_width input weights
      output input_stride output_increment input_offset zero params s = Some (tt, s')
    /\ forall (p t : nat) (j : Z),
         (p < W)%nat -> 0 <= j < 8 -> 8 * Z.of_nat t + j < channels ->
         signed 8 (bytes s' (row p + 8 * Z.of_nat t + j))
         = requantize_channel params j
             (accumulator (bytes s) (size_add weights (104 * Z.of_nat t))
                (map (fun ik => size_add ik (8 * Z.of_nat t)) (pointers p)) j).
Proof.
  intros Hch Hwd Hin Hw Hout W row pointers Hfit Hdisj Hna.
  set (a := {| channels := channels; weights := weights; input_stride := input_stride;
               output_increment := output_increment; input_offset := input_offset;
               zero := zero; params := params |}).
  exists (pixels_state a input output W s).
  split; [apply kernel_state_run; assumption|].
  intros p t j Hp Hj Ht.
  set (st := fun n => pixels_state a input output n s).
  (* the bytes outside the rows written so far are those of the start *)
  assert (HA : forall n x, (n <= W)%nat ->
            (forall q, (q < n)%nat -> ~ (row q <= x < row q + channels)) ->
            bytes (st n) x = bytes s x).
  { intros n x Hn Hx. unfold st.
    apply pixels_state_frame; cbn [DWConv.channels DWConv.output_increment a];
      [lia|intros; apply Hfit; lia|exact Hx]. }
  (* a byte that a load of the call reads is in no row *)
  assert (Hload : forall q r acc b, (q < W)%nat -> (r < W)%nat ->
            In acc (pixel_loads channels weights (pixel_input input_stride input q)
                                (pointers q)) ->
            0 <= b < Z.of_nat (snd acc) ->
            ~ (row r <= fst acc + b < row r + channels)).
  { intros q r acc b Hq Hr Hacc Hb.
    pose proof (proj1 (Forall_forall _ _) (Hna q r Hq Hr) acc Hacc) as Ho.
    unfold outside in Ho. lia. }
  (* the pointers of pixel [p] are read from unchanged entries *)
  assert (HB : tap_pointers (bytes (st p)) (pixel_input input_stride input p) zero
                            input_offset = pointers p).
  { apply tap_pointers_ext. intros k b Hk Hb.
    apply HA; [lia|]. intros q Hq.
    apply (Hload p q (size_add (pixel_input input_stride input p) (8 * Z.of_nat k), 8%nat));
      [lia|lia| |cbn [snd]; lia].
    unfold pixel_loads. apply in_or_app. left.
    apply in_map_iff. exists k. split; [reflexivity|apply in_seq; lia]. }
  (* the later pixels leave row [p] alone *)
  assert (HE : forall n x, (S p <= n)%nat -> (n <= W)%nat ->
            row p <= x < row p + channels ->
            bytes (st n) x = bytes (st (S p)) x).
  { induction n as [|n IH]; intros x Hn Hn' Hx; [lia|].
    destruct (Nat.eq_dec n p) as [->|Hne]; [reflexivity|].
    unfold st at 1. rewrite pixels_state_succ. fold (st n).
    rewrite pixel_state_frame; cbn [DWConv.channels DWConv.output_increment a].
    - apply IH; [lia|lia|exact Hx].
    - lia.
    - apply size_add_range.
    - apply Hfit. lia.
    - fold row. destruct (Hdisj p n ltac:(lia) ltac:(lia) ltac:(lia)); lia. }
  unfold st in HE. rewrite (HE W) by (try lia; pose proof (Hfit p Hp); lia).
  fold (st (S p)). unfold st at 1. rewrite pixels_state_succ. fold (st p).
  cbn [DWConv.channels DWConv.output_increment DWConv.input_stride a].
  fold row.
  pose proof (pixel_state_bytes a (pixel_input input_stride input p) (row p) (st p) t j)
    as Hbytes.
  cbn [DWConv.channels DWConv.zero DWConv.input_offset DWConv.params DWConv.weights a]
    in Hbytes.
  specialize (Hbytes ltac:(lia) ltac:(apply size_add_range) (Hfit p Hp) Hj Ht).
  cbv zeta in Hbytes. rewrite HB in Hbytes. rewrite Hbytes.
  rewrite requantize_channel_eq by assumption. f_equal.
  rewrite <- accumulator_eq by assumption. f_equal. f_equal.
  apply acc_value_ext. apply Forall_forall. intros acc Hacc b Hb.
  assert (Hacc' : In acc (pixel_loads channels weights (pixel_input input_stride input p)
                                     (pointers p))).
  { unfold pixel_loads. apply in_or_app. right.
    apply in_flat_map. exists t. split; [|exact Hacc].
    apply in_seq. split; [lia|]. cbn [Nat.add].
    assert (Z.of_nat t + 1 <= (channels + 7) / 8)
      by (apply Z.div_le_lower_bound; lia).
    lia. }
  rewrite tiles_state_frame.
  - cbn [bytes log_add]. apply HA; [lia|].
    intros q Hq. apply (Hload p q acc b); [lia|lia|exact Hacc'|exact Hb].
  - apply size_add_range.
  - pose proof (Hfit p Hp). fold row. lia.
  - pose proof (Hload p p acc b Hp Hp Hacc' Hb). fold row. lia.
Qed.


Lemma kernel_computes_depthwise_convolution_witness :
  let mem := fun x =>
    if (2000 <=? x) && (x <? 2072) then lane 8 ((x - 2000) mod 8) 5000
    else if (1000 <=? x) && (x <? 1032) then 0
    else x mod 5 in
  let s0 := {| bytes := mem; log := [] |} in
  let params := broadcast_params (2 ^ 30) (2 ^ 30) 0 0 0 1 (-128) 127 in
  exists s',
    xnn_qs8_dwconv_minmax_ukernel_up8x9__avx2_mul32 3 2 2000 1000 3000 0 5 500 7000
      params s0 = Some (tt, s')
    /\ signed 8 (bytes s' 3009)
       = requantize_channel params 1
           (accumulator mem 1000 [5500; 5500; 5500; 5500; 5500; 5500; 5500; 5500; 5500] 1)
    /\ signed 8 (bytes s' 3009) = 11.
Proof.
  intros mem s0 params.
  destruct (kernel_computes_depthwise_convolution 3 2 2000 1000 3000 0 5 500 7000
              params s0 ltac:(lia) ltac:(lia) ltac:(lia) ltac:(lia) ltac:(lia))
    as (s' & Hrun & Hv).
  - intros [|[|p]] Hp; [vm_compute; discriminate|vm_compute; discriminate|].
    exfalso. revert Hp. vm_compute. lia.
  - intros [|[|p]] [|[|q]] Hp Hq Hne; try (exfalso; revert Hp Hq; vm_compute; lia);
      try (exfalso; apply Hne; reflexivity).
    + change (pixel_output 3 5 3000 0) with 3000.
      change (pixel_output 3 5 3000 1) with 3008. lia.
    + change (pixel_output 3 5 3000 0) with 3000.
      change (pixel_output 3 5 3000 1) with 3008. lia.
  - intros [|[|p]] [|[|q]] Hp Hq; try (exfalso; revert Hp Hq; vm_compute; lia);
      apply Forall_forall; intros acc Hacc; vm_compute in Hacc;
      repeat (destruct Hacc as [<-|Hacc]; [vm_compute; intuition discriminate|]);
      destruct Hacc.
  - exists s'. split; [exact Hrun|].
    pose proof (Hv 1%nat 0%nat 1 ltac:(vm_compute; lia) ltac:(lia) ltac:(lia)) as E.
    split; [exact E|].
    etransitivity; [exact E|]. vm_compute. reflexivity.
Defined.


(** The [assert] on [channels] guards no store: with [channels = 0] (and the
    assertion compiled out) every pixel still reads its nine indirection
    entries, runs no tile, and the call writes nothing. *)
Theorem kernel_without_channels_stores_nothing
    (output_width input weights output input_stride output_increment
     input_offset zero : Z) (params : xnn_qs8_gemm_params) (s : state) :
  0 < output_width < 2 ^ 64 -> 0 <= input < 2 ^ 64 ->
  exists s',
    xnn_qs8_dwconv_minmax_ukernel_up8x9__avx2_mul32 0 output_width input weights
      output input_stride output_increment input_offset zero params s = Some (tt, s')
    /\ bytes s' = bytes s
    /\ store_shapes (log s') = store_shapes (log s)
    /\ load_shapes (log s')
       = load_shapes (log s)
         ++ flat_map (fun p => map (fun k => (size_add (pixel_input input_stride input p)
                                                       (8 * Z.of_nat k), 8%nat))
                                   (seq 0 9))
                     (seq 0 (Z.to_nat output_width)).
Proof.
  intros Hwd Hin.
  set (a := {| channels := 0; weights := weights; input_stride := input_stride;
               output_increment := output_increment; input_offset := input_offset;
               zero := zero; params := params |}).
  set (entries := fun p => map (fun k => (size_add (pixel_input input_stride input p)
                                                   (8 * Z.of_nat k), 8%nat)) (seq 0 9)).
  set (Inv := fun (n : nat) (io : Z * Z) (s' : state) =>
    fst io = pixel_input input_stride input n
    /\ bytes s' = bytes s
    /\ store_shapes (log s') = store_shapes (log s)
    /\ load_shapes (log s') = load_shapes (log s) ++ flat_map entries (seq 0 n)).
  assert (step : forall n io s1, (n < Z.to_nat output_width)%nat -> Inv n io s1 ->
            exists io' s', pixel a io s1 = Some (io', s') /\ Inv (S n) io' s').
  { intros n [i o] s1 Hn (Hio & Hbytes & Hst & Hld). cbn [fst] in Hio. subst i.
    exists (size_add (pixel_input input_stride input n) input_stride,
            size_add o output_increment),
           (log_add s1 (map (fun k => Load (size_add (pixel_input input_stride input n)
                                                     (8 * Z.of_nat k)) 8) (seq 0 9))).
    split.
    - unfold pixel. rewrite (bind_run _ _ _ _ _ (tap_pointers_run _ _ _ _)).
      reflexivity.
    - split; [|split; [|split]].
      + cbn [fst]. unfold pixel_input. rewrite size_add_add. f_equal. lia.
      + exact Hbytes.
      + cbn [log log_add]. rewrite store_shapes_app, Hst. apply app_nil_r.
      + cbn [log log_add]. rewrite load_shapes_app, Hld, (seq_S n), flat_map_app.
        rewrite <- app_assoc. cbn [flat_map Nat.add].
        rewrite app_nil_r. reflexivity. }
  assert (init : Inv 0%nat (input, output) s).
  { split; [|split; [|split]]; try reflexivity.
    - cbn [fst]. unfold pixel_input. cbn [Z.of_nat Z.mul].
      symmetry. apply size_add_0. assumption.
    - cbn [seq flat_map]. rewrite app_nil_r. reflexivity. }
  destruct (do_while_inv Inv (pixel a) (Z.to_nat output_width) step
              (Z.to_nat output_width) 0%nat output_width (input, output) s
              ltac:(lia) ltac:(lia) ltac:(lia) ltac:(lia) init)
    as (io' & s' & Hrun & _ & Hbytes & Hst & Hld).
  exists s'. split; [|repeat split; assumption].
  unfold xnn_qs8_dwconv_minmax_ukernel_up8x9__avx2_mul32. fold a.
  rewrite (bind_run _ _ _ _ _ Hrun). reflexivity.
Qed.

Lemma kernel_without_channels_stores_nothing_witness :
  let s0 := {| bytes := fun x => x mod 7; log := [] |} in
  let params := broadcast_params (2 ^ 30) (2 ^ 30) 0 0 0 0 (-128) 127 in
  exists s',
    xnn_qs8_dwconv_minmax_ukernel_up8x9__avx2_mul32 0 1 2000 1000 3000 72 0 400 7777
      params s0 = Some (tt, s')
    /\ store_shapes (log s') = []
    /\ length (load_shapes (log s')) = 9%nat.
Proof.
  intros s0 params.
  destruct (kernel_without_channels_stores_nothing 1 2000 1000 3000 72 0 400 7777 params s0
              ltac:(lia) ltac:(lia)) as (s' & Hrun & _ & Hst & Hld).
  exists s'. split; [exact Hrun|]. split; [exact Hst|]. rewrite Hld. reflexivity.
Defined.


(** The loads of a pixel stay within the nine indirection entries, the first
    [104 * T] bytes of the weights and the first [8 * T] bytes at each row
    pointer, where [T = ceil(channels / 8)] is the number of tiles: the last
    tile is read at full width, so a load of a row ends at most 7 bytes past
    the [channels] bytes of the row.  The row pointers are the entries the
    pixel finds in the indirection buffer, moved by [input_offset] unless
    equal to [zero].  [st p] is the state in which pixel [p] starts: [st 0]
    is the state of the call and the body of the loop takes [st p] to
    [st (S p)]. *)
Theorem kernel_reads_are_bounded
    (channels output_width input weights output input_stride output_increment
     input_offset zero : Z) (params : xnn_qs8_gemm_params) (s : state) :
  0 < channels < 2 ^ 64 -> 0 < output_width < 2 ^ 64 ->
  0 <= input < 2 ^ 64 -> 0 <= weights < 2 ^ 64 -> 0 <= output < 2 ^ 64 ->
  let T := (channels + 7) / 8 in
  weights + 104 * T <= 2 ^ 64 ->
  let a := {| channels := channels; weights := weights; input_stride := input_stride;
              output_increment := output_increment; input_offset := input_offset;
              zero := zero; params := params |} in
  let io (p : nat) := (pixel_input input_stride input p,
                       pixel_output channels output_increment output p) in
  exists st : nat -> state,
    st 0%nat = s
    /\ xnn_qs8_dwconv_minmax_ukernel_up8x9__avx2_mul32 channels output_width input weights
         output input_stride output_increment input_offset zero params s
       = Some (tt, st (Z.to_nat output_width))
    /\ forall p, (p < Z.to_nat output_width)%nat ->
         let input_p := pixel_input input_stride input p in
         let i := tap_pointers (bytes (st p)) input_p zero input_offset in
         pixel a (io p) (st p) = Some (io (S p), st (S p))
         /\ (Forall (fun ik => ik + 8 * T <= 2 ^ 64) i ->
             exists loads,
               load_shapes (log (st (S p))) = load_shapes (log (st p)) ++ loads
               /\ Forall (fun acc =>
                            In acc (map (fun k => (size_add input_p (8 * Z.of_nat k), 8%nat))
                                        (seq 0 9))
                            \/ within weights (weights + 104 * T) acc
                            \/ Exists (fun ik =>
                                         within ik (ik + 8 * T) acc
                                         /\ fst acc + Z.of_nat (snd acc) <= ik + channels + 7)
                                      i)
                         loads).
Proof.
  intros Hch Hwd Hin Hw Hout T Hfit a io.
  destruct (kernel_pixels channels output_width input weights output input_stride
              output_increment input_offset zero params s Hch Hwd Hin Hw Hout)
    as (st & H0 & Hrun & Hp).
  exists st. split; [exact H0|]. split; [exact Hrun|].
  intros p Hlt input_p i.
  specialize (Hp p Hlt). split; [exact Hp|]. intros Hi.
  match type of Hp with pixel ?a (?x, ?o) _ = _ =>
    destruct (pixel_run a x o (st p)) as (s' & Hrun' & Hloads & _);
      [assumption | assumption | apply size_add_range |] end.
  rewrite Hrun' in Hp. injection Hp as _ _ <-.
  cbn [DWConv.channels DWConv.weights DWConv.zero DWConv.input_offset] in Hloads.
  fold (pixel_input input_stride input p) in Hloads. fold input_p i in Hloads.
  assert (HT : 8 * T - channels <= 7 /\ 0 <= T).
  { unfold T. pose proof (Z.div_mod (channels + 7) 8 ltac:(lia)).
    pose proof (Z.mod_pos_bound (channels + 7) 8 ltac:(lia)).
    split; [lia|]. apply Z.div_pos; lia. }
  eexists. split; [exact Hloads|].
  unfold pixel_loads. apply Forall_app. split.
  - apply Forall_forall. intros acc Hacc. left. exact Hacc.
  - apply Forall_forall. intros acc Hacc. right.
    apply in_flat_map in Hacc. destruct Hacc as (t & Ht & Hacc).
    apply in_seq in Ht. fold T in Ht.
    assert (Hi' : Forall (fun ik0 => 0 <= ik0 /\ ik0 + 8 * T <= 2 ^ 64) i).
    { apply Forall_forall. intros ik Hik.
      pose proof (proj1 (Forall_forall _ _) Hi ik Hik).
      pose proof (proj1 (Forall_forall _ _)
                    (tap_pointers_range (bytes (st p)) input_p zero input_offset) ik Hik).
      cbv beta in *. lia. }
    assert (Hlen : length i = 9%nat)
      by (unfold i, tap_pointers; rewrite length_map, length_seq; reflexivity).
    assert (Ht' : Z.of_nat t < T) by lia.
    pose proof (tile_loads_within weights T t i ltac:(lia) Hfit Ht' Hlen Hi') as Hall.
    destruct (proj1 (Forall_forall _ _) Hall acc Hacc) as [Hwt|Hrow]; [left; exact Hwt|].
    right. apply Exists_exists in Hrow. destruct Hrow as (ik & Hik & Hrow).
    apply Exists_exists. exists ik. split; [exact Hik|]. split; [exact Hrow|].
    unfold within in Hrow. lia.
Qed.

Lemma kernel_reads_are_bounded_witness :
  let mem := fun x =>
    if (2032 <=? x) && (x <? 2040) then lane 8 (x - 2032) 7000
    else if (2000 <=? x) && (x <? 2072) then lane 8 ((x - 2000) mod 8) 5000
    else if (2088 <=? x) && (x <? 2096) then lane 8 (x - 2088) 7000
    else if (2072 <=? x) && (x <? 2144) then lane 8 ((x - 2072) mod 8) 6000
    else 0 in
  let s0 := {| bytes := mem; log := [] |} in
  let params := broadcast_params (2 ^ 30) (2 ^ 30) 0 0 0 0 (-128) 127 in
  exists s',
    xnn_qs8_dwconv_minmax_ukernel_up8x9__avx2_mul32 3 2 2000 1000 3000 72 0 500 7000
      params s0 = Some (tt, s')
    /\ Forall (fun acc => 2000 <= fst acc < 2144
                          \/ within 1000 1104 acc
                          \/ within 5500 5508 acc \/ within 6500 6508 acc
                          \/ within 7000 7008 acc)
              (load_shapes (log s')).
Proof.
  intros mem s0 params.
  destruct (kernel_reads_are_bounded 3 2 2000 1000 3000 72 0 500 7000 params s0
              ltac:(lia) ltac:(lia) ltac:(lia) ltac:(lia) ltac:(lia)
              ltac:(vm_compute; discriminate))
    as (st & H0 & Hrun & Hp).
  exists (st 2%nat). split; [exact Hrun|].
  destruct (Hp 0%nat ltac:(vm_compute; lia)) as (Hpix0 & Hb0).
  destruct (Hp 1%nat ltac:(vm_compute; lia)) as (_ & Hb1).
  rewrite H0 in Hpix0, Hb0.
  (* the row pointers of the second pixel, read in the state the first leaves *)
  assert (E : match pixel {| channels := 3; weights := 1000; input_stride := 72;
                             output_increment := 0; input_offset := 500; zero := 7000;
                             params := params |}
                          (pixel_input 72 2000 0, pixel_output 3 0 3000 0) s0 with
              | Some (_, s1) =>
                  tap_pointers (bytes s1) (pixel_input 72 2000 1) 7000 500
                  = [6500; 6500; 7000; 6500; 6500; 6500; 6500; 6500; 6500]
              | None => False
              end) by (vm_compute; reflexivity).
  rewrite Hpix0 in E. rewrite E in Hb1.
  assert (E0 : tap_pointers (bytes s0) (pixel_input 72 2000 0) 7000 500
               = [5500; 5500; 5500; 5500; 7000; 5500; 5500; 5500; 5500])
    by (vm_compute; reflexivity).
  rewrite E0 in Hb0.
  destruct Hb0 as (loads0 & Hl0 & Hall0).
  { repeat constructor; vm_compute; discriminate. }
  destruct Hb1 as (loads1 & Hl1 & Hall1).
  { repeat constructor; vm_compute; discriminate. }
  rewrite Hl1, Hl0. cbn [log s0 load_shapes flat_map app].
  apply Forall_app. split.
  - eapply Forall_impl; [|exact Hall0].
    intros acc [Hacc|[Hacc|Hacc]].
    + left. vm_compute in Hacc.
      repeat (destruct Hacc as [<-|Hacc]; [cbn [fst]; lia|]). destruct Hacc.
    + right. left. exact Hacc.
    + right. right. apply Exists_exists in Hacc. destruct Hacc as (ik & Hik & Hacc & _).
      cbn [In] in Hik.
      repeat (destruct Hik as [<-|Hik];
              [first [left; exact Hacc | right; right; exact Hacc]|]).
      destruct Hik.
  - eapply Forall_impl; [|exact Hall1].
    intros acc [Hacc|[Hacc|Hacc]].
    + left. vm_compute in Hacc.
      repeat (destruct Hacc as [<-|Hacc]; [cbn [fst]; lia|]). destruct Hacc.
    + right. left. exact Hacc.
    + right. right. apply Exists_exists in Hacc. destruct Hacc as (ik & Hik & Hacc & _).
      cbn [In] in Hik.
      repeat (destruct Hik as [<-|Hik];
              [first [right; left; exact Hacc | right; right; exact Hacc]|]).
      destruct Hik.
Defined.

End DWConvStateSpec.

(** * The depth-to-space kernel on the tensors of the tester *)

Module DenseLayout.
Import Bits BitsFacts Mem MemFacts DWConvTrace DWConvFacts.
Import DepthToSpace DepthToSpaceTrace DepthToSpaceFacts.
Import Tester TesterFacts.

(** The element offsets of the tester for an index of the kernel, in the
    only image of a batch of one. *)
Lemma dense_move t input output iy by_ ix bx c :
  built t ->
  batch_size t = 1 ->
  let n := input_height t * block_size t * input_width t * block_size t
           * output_channels t in
  n < 2 ^ 64 ->
  0 <= input -> input + 4 * n <= 2 ^ 64 -> 0 <= output -> output + 4 * n <= 2 ^ 64 ->
  In (iy, (by_, (ix, (bx, c))))
     (DepthToSpaceTrace.indices (output_channels t) (input_height t) (input_width t)
                                (block_size t)) ->
  let e_in := ((((0 * output_channels t + Z.of_nat c) * block_size t + Z.of_nat by_)
                  * block_size t + Z.of_nat bx) * input_height t + Z.of_nat iy)
              * input_width t + Z.of_nat ix in
  let e_out := ((((0 * input_height t + Z.of_nat iy) * block_size t + Z.of_nat by_)
                   * input_width t + Z.of_nat ix) * block_size t + Z.of_nat bx)
               * output_channels t + Z.of_nat c in
  move (block_size t) input output
       (4 * input_channel_stride t) (4 * input_height_stride t)
       (4 * output_height_stride t) (4 * output_width_stride t)
       (iy, (by_, (ix, (bx, c))))
  = (input + 4 * e_in, output + 4 * e_out)
  /\ Tester.input_offset t 0 (Z.of_nat iy) (Z.of_nat by_) (Z.of_nat ix) (Z.of_nat bx)
                         (Z.of_nat c) = e_in
  /\ Tester.output_offset t 0 (Z.of_nat iy) (Z.of_nat by_) (Z.of_nat ix) (Z.of_nat bx)
                          (Z.of_nat c) = e_out
  /\ 0 <= e_in < n /\ 0 <= e_out < n.
Proof.
  intros Hb Hbatch n Hn Hi Hi' Ho Ho' Hin e_in e_out.
  pose proof (set_bounds t Hb) as (HH & HW & HC & HB & HN & _).
  apply in_indices in Hin.
  assert (Hn' : batch_size t * input_height t * block_size t * input_width t
                * block_size t * output_channels t < 2 ^ 64)
    by (rewrite Hbatch; unfold n in Hn; lia).
  assert (R0 : 0 <= 0 < batch_size t) by lia.
  assert (Riy : 0 <= Z.of_nat iy < input_height t) by lia.
  assert (Rby : 0 <= Z.of_nat by_ < block_size t) by lia.
  assert (Rix : 0 <= Z.of_nat ix < input_width t) by lia.
  assert (Rbx : 0 <= Z.of_nat bx < block_size t) by lia.
  assert (Rc : 0 <= Z.of_nat c < output_channels t) by lia.
  pose proof (input_offset_small t _ _ _ _ _ _ Hb Hn' R0 Riy Rby Rix Rbx Rc) as (Ei & Bi).
  pose proof (output_offset_small t _ _ _ _ _ _ Hb Hn' R0 Riy Rby Rix Rbx Rc) as (Eo & Bo).
  fold e_in in Ei, Bi. fold e_out in Eo, Bo.
  assert (Bi' : 0 <= e_in < n) by (unfold n; rewrite Hbatch in Bi; lia).
  assert (Bo' : 0 <= e_out < n) by (unfold n; rewrite Hbatch in Bo; lia).
  split; [|repeat split; try assumption; lia].
  assert (Hics : input_channel_stride t = input_height t * input_width t).
  { unfold input_channel_stride, size_mul. apply Z.mod_small. nia. }
  assert (Hohs : output_height_stride t
                 = input_width t * block_size t * output_channels t).
  { unfold output_height_stride, output_width, size_mul.
    rewrite (Z.mod_small (input_width t * block_size t)) by nia.
    apply Z.mod_small. nia. }
  unfold move, source, destination, DepthToSpaceTrace.input_offset,
    DepthToSpaceTrace.output_offset.
  rewrite Hics, Hohs. unfold input_height_stride, output_width_stride.
  f_equal.
  - replace (_ + _ + Z.of_nat ix * 4) with (4 * e_in) by (unfold e_in; ring).
    apply size_add_small. lia.
  - replace (_ + _ + Z.of_nat c * 4) with (4 * e_out) by (unfold e_out; ring).
    apply size_add_small. lia.
Qed.


Lemma copies_loads l : forall s,
  load_shapes (log (copies l s))
  = load_shapes (log s) ++ map (fun m => (fst m, 4%nat)) l.
Proof.
  induction l as [|m l IH]; intros s.
  - cbn. rewrite app_nil_r. reflexivity.
  - cbn [copies fold_left]. unfold copies in IH. rewrite IH.
    unfold copy_state. cbn [log]. rewrite load_shapes_app, <- app_assoc. reflexivity.
Qed.

(** On the tensors of the tester the kernel passes the verification loop.
    For a tester with a batch of one, the kernel called with the sizes of the
    tester and with its strides counted in bytes, on an input and an output
    buffer of [n] elements each that lie in the address space and share no
    byte, leaves a store on which no assertion of the verification loop
    fails; it writes no byte outside the output buffer, so the input is
    unchanged. *)
Theorem dense_tensors_pass_verification
    (XNN_EXTRA_BYTES : Z) (t : DepthToSpaceOperatorTester) (input output : Z) (s : state) :
  built t -> batch_size t = 1 -> 0 <= XNN_EXTRA_BYTES ->
  let n := input_height t * block_size t * input_width t * block_size t
           * output_channels t in
  n + XNN_EXTRA_BYTES / 4 < 2 ^ 64 ->
  0 <= input -> input + 4 * n <= 2 ^ 64 -> 0 <= output -> output + 4 * n <= 2 ^ 64 ->
  input + 4 * n <= output \/ output + 4 * n <= input ->
  exists s',
    xnn_x32_depth_to_space_chw2hwc_ukernel__scalar_c1_ib2
      (output_channels t) (input_height t) (input_width t) (block_size t) input output
      (4 * input_channel_stride t) (4 * input_height_stride t)
      (4 * output_height_stride t) (4 * output_width_stride t) s = Some (tt, s')
    /\ verify t (input_vector_size XNN_EXTRA_BYTES t) (output_vector_size t)
         (fun e => bytes_at (bytes s') 4 (input + 4 * e))
         (fun e => bytes_at (bytes s') 4 (output + 4 * e)) = true
    /\ (forall x, ~ (output <= x < output + 4 * n) -> bytes s' x = bytes s x).
Proof.
  intros Hb Hbatch HX n Hn Hi Hi' Ho Ho' Hdisj.
  pose proof (set_bounds t Hb) as (HH & HW & HC & HB & HN & _).
  pose proof (Z.div_pos XNN_EXTRA_BYTES 4 HX ltac:(lia)) as HX4.
  assert (Hn0 : n < 2 ^ 64) by lia.
  set (C := output_channels t) in *. set (H := input_height t) in *.
  set (W := input_width t) in *. set (B := block_size t) in *.
  set (mv := move B input output (4 * input_channel_stride t) (4 * input_height_stride t)
                  (4 * output_height_stride t) (4 * output_width_stride t)).
  set (l := map mv (DepthToSpaceTrace.indices C H W B)).
  assert (Hmv : forall iy by_ ix bx c,
            In (iy, (by_, (ix, (bx, c)))) (DepthToSpaceTrace.indices C H W B) ->
            let e_in := ((((0 * C + Z.of_nat c) * B + Z.of_nat by_) * B + Z.of_nat bx) * H
                         + Z.of_nat iy) * W + Z.of_nat ix in
            let e_out := ((((0 * H + Z.of_nat iy) * B + Z.of_nat by_) * W + Z.of_nat ix) * B
                          + Z.of_nat bx) * C + Z.of_nat c in
            mv (iy, (by_, (ix, (bx, c)))) = (input + 4 * e_in, output + 4 * e_out)
            /\ Tester.input_offset t 0 (Z.of_nat iy) (Z.of_nat by_) (Z.of_nat ix)
                                   (Z.of_nat bx) (Z.of_nat c) = e_in
            /\ Tester.output_offset t 0 (Z.of_nat iy) (Z.of_nat by_) (Z.of_nat ix)
                                    (Z.of_nat bx) (Z.of_nat c) = e_out
            /\ 0 <= e_in < n /\ 0 <= e_out < n).
  { intros iy by_ ix bx c Hin.
    exact (dense_move t input output iy by_ ix bx c Hb Hbatch Hn0 Hi Hi' Ho Ho' Hin). }
  exists (copies l s). split; [|split].
  - rewrite kernel_run by (unfold C, H, W, B; lia). f_equal. f_equal. unfold l.
    f_equal. apply map_ext. intros x. apply move_all_move.
  - (* no assertion fails *)
    assert (Hpair : ForallOrdPairs (fun m m' => apart (snd m) (snd m')) l).
    { apply ForallOrdPairs_map; [apply NoDup_indices|].
      intros (iy & by_ & ix & bx & c) (iy' & by' & ix' & bx' & c') Ha Hb' Hne.
      destruct (Hmv _ _ _ _ _ Ha) as (Ea & _ & _ & _ & Ra).
      destruct (Hmv _ _ _ _ _ Hb') as (Eb & _ & _ & _ & Rb).
      rewrite Ea, Eb. cbn [snd].
      apply in_indices in Ha, Hb'.
      match goal with |- apart (output + 4 * ?x) (output + 4 * ?y) =>
        assert (Hxy : x <> y) end.
      { intros E. apply Hne.
        apply digit_inj in E; [|lia|lia]. destruct E as (E & E5).
        apply digit_inj in E; [|lia|lia]. destruct E as (E & E4).
        apply digit_inj in E; [|lia|lia]. destruct E as (E & E3).
        apply digit_inj in E; [|lia|lia]. destruct E as (E & E2).
        apply digit_inj in E; [|lia|lia]. destruct E as (_ & E1).
        apply Nat2Z.inj in E1, E2, E3, E4, E5. subst. reflexivity. }
      unfold apart. lia. }
    assert (Hcross : forall m m', In m l -> In m' l -> apart (snd m) (fst m')).
    { intros m m' Hm Hm'. unfold l in Hm, Hm'. apply in_map_iff in Hm, Hm'.
      destruct Hm as ((iy & by_ & ix & bx & c) & <- & Ha).
      destruct Hm' as ((iy' & by' & ix' & bx' & c') & <- & Hb').
      destruct (Hmv _ _ _ _ _ Ha) as (Ea & _ & _ & _ & Ra).
      destruct (Hmv _ _ _ _ _ Hb') as (Eb & _ & _ & Rb & _).
      rewrite Ea, Eb. cbn [fst snd]. unfold apart. lia. }
    unfold verify. apply forallb_forall.
    intros (i & iy & by_ & ix & bx & oc) Hx.
    apply in_tester_indices in Hx. rewrite Hbatch in Hx.
    assert (i = 0%nat) by lia. subst i.
    assert (Hin : In (iy, (by_, (ix, (bx, oc)))) (DepthToSpaceTrace.indices C H W B))
      by (apply in_indices; unfold C, H, W, B; lia).
    destruct (Hmv _ _ _ _ _ Hin) as (Em & Ei & Eo & Ri & Ro).
    unfold check. cbn [offsets]. change (Z.of_nat 0) with 0. rewrite Ei, Eo.
    assert (Hsz_o : output_vector_size t = n).
    { rewrite output_vector_size_exact, Hbatch. clear - Hn0 HH HW HC HB.
      subst n C H W B. rewrite Z.mod_small; [ring|]. split; [nia|lia]. }
    assert (Hsz_i : input_vector_size XNN_EXTRA_BYTES t = n + XNN_EXTRA_BYTES / 4).
    { rewrite input_vector_size_exact, Hbatch. clear - Hn HX4 HH HW HC HB.
      subst n C H W B. rewrite Z.mod_small; [ring|]. split; [nia|lia]. }
    rewrite Hsz_o, Hsz_i.
    replace (_ <? n + XNN_EXTRA_BYTES / 4) with true by (symmetry; apply Z.ltb_lt; lia).
    replace (_ <? n) with true by (symmetry; apply Z.ltb_lt; lia).
    cbn [andb]. apply Z.eqb_eq.
    pose proof (copies_moved l s Hpair Hcross _ (in_map mv _ _ Hin)) as Hmoved.
    rewrite Em in Hmoved. cbn [fst snd] in Hmoved. rewrite Hmoved.
    symmetry. apply bytes_at_ext. intros b Hbyte.
    apply copies_frame. intros m Hm. unfold l in Hm. apply in_map_iff in Hm.
    destruct Hm as ((iy' & by' & ix' & bx' & c') & <- & Hb').
    destruct (Hmv _ _ _ _ _ Hb') as (Eb & _ & _ & _ & Rb).
    rewrite Eb. cbn [snd]. change (Z.of_nat 4) with 4 in Hbyte. lia.
  - intros x Hx. apply copies_frame. intros m Hm. unfold l in Hm. apply in_map_iff in Hm.
    destruct Hm as ((iy' & by' & ix' & bx' & c') & <- & Hb').
    destruct (Hmv _ _ _ _ _ Hb') as (Eb & _ & _ & _ & Rb).
    rewrite Eb. cbn [snd]. lia.
Qed.

Lemma dense_tensors_pass_verification_witness :
  let s0 := {| bytes := fun x => x mod 251; log := [] |} in
  exists t s',
    set_output_channels initial 3 = Some t
    /\ xnn_x32_depth_to_space_chw2hwc_ukernel__scalar_c1_ib2 3 1 1 2 1000 2000
         4 4 24 12 s0 = Some (tt, s')
    /\ verify t (input_vector_size 16 t) (output_vector_size t)
         (fun e => bytes_at (bytes s') 4 (1000 + 4 * e))
         (fun e => bytes_at (bytes s') 4 (2000 + 4 * e)) = true
    /\ bytes s' 1000 = bytes s0 1000.
Proof.
  intros s0. eexists.
  match goal with |- exists s', ?E = Some ?t /\ _ =>
    destruct (dense_tensors_pass_verification 16 t 1000 2000 s0)
      as (s' & Hrun & Hver & Hframe) end.
  - apply (built_output_channels initial 3); [apply built_initial|lia|reflexivity].
  - reflexivity.
  - lia.
  - vm_compute. reflexivity.
  - lia.
  - vm_compute. discriminate.
  - lia.
  - vm_compute. discriminate.
  - left. vm_compute. discriminate.
  - exists s'. split; [reflexivity|]. split; [exact Hrun|]. split; [exact Hver|].
    apply Hframe. vm_compute. intros (A & _). apply A. reflexivity.
Defined.


(** With the output strides of a dense tensor in HWC order,
    [output_width_stride = 4 * C] and [output_height_stride = 4 * W * B * C],
    the kernel writes the [H * B * W * B * C] elements of the output one after
    the other in ascending address order, whatever the input strides are. *)
Theorem dense_output_is_written_in_order (C H W B input output ics ihs : Z) (s : state) :
  0 < C < 2 ^ 64 -> 0 < H < 2 ^ 64 -> 0 < W < 2 ^ 64 -> 0 < B < 2 ^ 64 ->
  0 <= input < 2 ^ 64 -> 0 <= output ->
  output + 4 * (H * B * W * B * C) <= 2 ^ 64 ->
  exists s',
    xnn_x32_depth_to_space_chw2hwc_ukernel__scalar_c1_ib2 C H W B input output
      ics ihs (4 * (W * B * C)) (4 * C) s = Some (tt, s')
    /\ store_shapes (log s')
       = store_shapes (log s)
         ++ map (fun e => (output + 4 * Z.of_nat e, 4%nat))
                (seq 0 (Z.to_nat (H * B * W * B * C))).
Proof.
  intros HC HH HW HB Hi Ho Hfit.
  assert (Hn : 0 < H * B * W * B * C) by nia.
  set (mv := move B input output ics ihs (4 * (W * B * C)) (4 * C)).
  exists (copies (map mv (DepthToSpaceTrace.indices C H W B)) s).
  split.
  { rewrite kernel_run by lia. f_equal. f_equal. f_equal.
    apply map_ext. intros x. apply move_all_move. }
  rewrite copies_log. f_equal.
  set (nC := Z.to_nat C). set (nB := Z.to_nat B).
  set (nW := Z.to_nat W). set (nH := Z.to_nat H).
  pose proof (rank_prod (seq 0 nC) Z.of_nat nC nB 0 eq_refl) as R3.
  pose proof (rank_prod _ _ _ nW 0 R3) as R2.
  pose proof (rank_prod _ _ _ nB 0 R2) as R1.
  pose proof (rank_prod _ _ _ nH 0 R1) as R0.
  cbn [Nat.mul] in R0.
  replace (Z.to_nat (H * B * W * B * C)) with (nH * (nB * (nW * (nB * nC))))%nat
    by (unfold nH, nB, nW, nC; rewrite <- !Z2Nat.inj_mul by nia; f_equal; ring).
  rewrite <- (map_map Z.of_nat (fun z => (output + 4 * z, 4%nat))), <- R0.
  unfold DepthToSpaceTrace.indices. fold nC nB nW nH.
  rewrite !map_map. apply map_ext_in.
  intros (iy & by_ & ix & bx & c) Hin.
  assert (Hin' : In (iy, (by_, (ix, (bx, c)))) (DepthToSpaceTrace.indices C H W B))
    by exact Hin.
  apply in_indices in Hin'.
  cbn [fst snd]. f_equal.
  unfold mv, move. cbn [snd]. unfold destination, DepthToSpaceTrace.output_offset.
  assert (Riy : 0 <= Z.of_nat iy < H) by lia.
  assert (Rby : 0 <= Z.of_nat by_ < B) by lia.
  assert (Rix : 0 <= Z.of_nat ix < W) by lia.
  assert (Rbx : 0 <= Z.of_nat bx < B) by lia.
  assert (Rc : 0 <= Z.of_nat c < C) by lia.
  pose proof (digit_bound _ _ _ _ Riy Rby) as D1.
  pose proof (digit_bound _ _ _ _ D1 Rix) as D2.
  pose proof (digit_bound _ _ _ _ D2 Rbx) as D3.
  pose proof (digit_bound _ _ _ _ D3 Rc) as D4.
  rewrite !Nat2Z.inj_mul. unfold nC, nB, nW. rewrite !Z2Nat.id by lia.
  match goal with |- size_add output ?x = output + 4 * ?e =>
    replace x with (4 * ((((Z.of_nat iy * B + Z.of_nat by_) * W + Z.of_nat ix) * B
                          + Z.of_nat bx) * C + Z.of_nat c)) by ring;
    replace e with ((((Z.of_nat iy * B + Z.of_nat by_) * W + Z.of_nat ix) * B
                     + Z.of_nat bx) * C + Z.of_nat c) by ring
  end.
  apply size_add_small. lia.
Qed.

Lemma dense_output_is_written_in_order_witness :
  let s0 := {| bytes := fun x => x mod 251; log := [] |} in
  exists s',
    xnn_x32_depth_to_space_chw2hwc_ukernel__scalar_c1_ib2 1 1 2 2 1000 2000 8 8 16 4 s0
    = Some (tt, s')
    /\ store_shapes (log s')
       = [(2000, 4%nat); (2004, 4%nat); (2008, 4%nat); (2012, 4%nat);
          (2016, 4%nat); (2020, 4%nat); (2024, 4%nat); (2028, 4%nat)].
Proof.
  intros s0.
  destruct (dense_output_is_written_in_order 1 1 2 2 1000 2000 8 8 s0
              ltac:(lia) ltac:(lia) ltac:(lia) ltac:(lia) ltac:(lia) ltac:(lia) ltac:(lia))
    as (s' & Hrun & Hlog).
  exists s'. split; [exact Hrun|]. rewrite Hlog. vm_compute. reflexivity.
Defined.


(** With the input strides of a dense tensor in CHW order,
    [input_height_stride = 4 * W] and [input_channel_stride = 4 * H * W], the
    kernel loads, for each index of its loops, the input element
    [((c * B + by) * B + bx) * H + iy) * W + ix]: every load falls inside the
    [C * B * B * H * W] elements of the input, and no element is loaded twice,
    whatever the output strides are. *)
Theorem dense_input_is_read_once (C H W B input output ohs ows : Z) (s : state) :
  0 < C < 2 ^ 64 -> 0 < H < 2 ^ 64 -> 0 < W < 2 ^ 64 -> 0 < B < 2 ^ 64 ->
  0 <= input -> 0 <= output < 2 ^ 64 ->
  input + 4 * (C * B * B * H * W) <= 2 ^ 64 ->
  let element (t : DepthToSpaceTrace.index) :=
    let '(iy, (by_, (ix, (bx, c)))) := t in
    ((((Z.of_nat c * B + Z.of_nat by_) * B + Z.of_nat bx) * H + Z.of_nat iy) * W
     + Z.of_nat ix) in
  exists s',
    xnn_x32_depth_to_space_chw2hwc_ukernel__scalar_c1_ib2 C H W B input output
      (4 * (H * W)) (4 * W) ohs ows s = Some (tt, s')
    /\ load_shapes (log s')
       = load_shapes (log s)
         ++ map (fun t => (input + 4 * element t, 4%nat))
                (DepthToSpaceTrace.indices C H W B)
    /\ (forall t, In t (DepthToSpaceTrace.indices C H W B) ->
          0 <= element t < C * B * B * H * W)
    /\ NoDup (map element (DepthToSpaceTrace.indices C H W B)).
Proof.
  intros HC HH HW HB Hi Ho Hfit element.
  set (mv := move B input output (4 * (H * W)) (4 * W) ohs ows).
  assert (Hrange : forall iy by_ ix bx c,
            In (iy, (by_, (ix, (bx, c)))) (DepthToSpaceTrace.indices C H W B) ->
            0 <= Z.of_nat c < C /\ 0 <= Z.of_nat by_ < B /\ 0 <= Z.of_nat bx < B
            /\ 0 <= Z.of_nat iy < H /\ 0 <= Z.of_nat ix < W).
  { intros iy by_ ix bx c Hin. apply in_indices in Hin. lia. }
  assert (Hel : forall t, In t (DepthToSpaceTrace.indices C H W B) ->
            0 <= element t < C * B * B * H * W).
  { intros (iy & by_ & ix & bx & c) Hin.
    destruct (Hrange _ _ _ _ _ Hin) as (Rc & Rby & Rbx & Riy & Rix).
    pose proof (digit_bound _ _ _ _ Rc Rby) as D1.
    pose proof (digit_bound _ _ _ _ D1 Rbx) as D2.
    pose proof (digit_bound _ _ _ _ D2 Riy) as D3.
    pose proof (digit_bound _ _ _ _ D3 Rix) as D4.
    exact D4. }
  exists (copies (map mv (DepthToSpaceTrace.indices C H W B)) s).
  split; [|split; [|split]].
  - rewrite kernel_run by lia. f_equal. f_equal. f_equal.
    apply map_ext. intros x. apply move_all_move.
  - rewrite copies_loads, map_map. f_equal. apply map_ext_in.
    intros (iy & by_ & ix & bx & c) Hin.
    pose proof (Hel _ Hin) as Hr.
    f_equal. unfold mv, move. cbn [fst]. unfold source, DepthToSpaceTrace.input_offset.
    match goal with |- size_add input ?x = _ =>
      replace x with (4 * element (iy, (by_, (ix, (bx, c))))) by (unfold element; ring)
    end.
    apply size_add_small. lia.
  - exact Hel.
  - apply NoDup_iff_ForallOrdPairs.
    apply ForallOrdPairs_map; [apply NoDup_indices|].
    intros (iy & by_ & ix & bx & c) (iy' & by' & ix' & bx' & c') Ha Hb Hne E.
    apply Hne.
    destruct (Hrange _ _ _ _ _ Ha) as (Rc & Rby & Rbx & Riy & Rix).
    destruct (Hrange _ _ _ _ _ Hb) as (Rc' & Rby' & Rbx' & Riy' & Rix').
    unfold element in E.
    apply digit_inj in E; [|lia|lia]. destruct E as (E & E5).
    apply digit_inj in E; [|lia|lia]. destruct E as (E & E4).
    apply digit_inj in E; [|lia|lia]. destruct E as (E & E3).
    apply digit_inj in E; [|lia|lia]. destruct E as (E1 & E2).
    apply Nat2Z.inj in E1, E2, E3, E4, E5. subst. reflexivity.
Qed.

Lemma dense_input_is_read_once_witness :
  let s0 := {| bytes := fun x => x mod 251; log := [] |} in
  exists s',
    xnn_x32_depth_to_space_chw2hwc_ukernel__scalar_c1_ib2 1 1 2 2 1000 2000 8 8 16 4 s0
    = Some (tt, s')
    /\ load_shapes (log s')
       = [(1000, 4%nat); (1008, 4%nat); (1004, 4%nat); (1012, 4%nat);
          (1016, 4%nat); (1024, 4%nat); (1020, 4%nat); (1028, 4%nat)].
Proof.
  intros s0.
  destruct (dense_input_is_read_once 1 1 2 2 1000 2000 16 4 s0
              ltac:(lia) ltac:(lia) ltac:(lia) ltac:(lia) ltac:(lia) ltac:(lia) ltac:(lia))
    as (s' & Hrun & Hlog & _).
  exists s'. split; [exact Hrun|]. rewrite Hlog. vm_compute. reflexivity.
Defined.

End DenseLayout.
